(** * Slice tables of mkwutil ([mkwutil/lib/slices.py])

    A shallow embedding of the slice table: memory regions ([Slice]), the
    gap-filling partition of an address range ([SliceTable]) with insertion,
    removal, lookup and extraction, the grouping of named slices into
    objects ([object_slices]) and the CSV reader and writer.

    Python integers are unbounded and are modelled by [Z]; list indices that
    the code obtains from [enumerate] are naturals, the index computed as
    [bisect(...) - 1] in [add] is an integer with Python's wrap-around for
    negative values.  An exception is a value of [exn]; every function that
    can raise returns a [res]. *)

From Stdlib Require Import ZArith Lia Ascii String.
From Stdlib Require HexString.
From stdpp Require Import base tactics option list gmap strings.

Local Open Scope Z_scope.

(** ** Exceptions and results *)

Inductive exn : Set :=
  | AssertionError
  | IndexError
  | TypeError
  | ValueError
  | KeyError
  | AttributeError
  | StopIteration
  | OutOfFuel.

Inductive res (A : Type) : Type :=
  | Ok (a : A)
  | Err (e : exn).
Arguments Ok {A} a.
Arguments Err {A} e.

#[global] Instance exn_eq_dec : EqDecision exn.
Proof. solve_decision. Defined.

#[global] Instance res_eq_dec {A} `{EqDecision A} : EqDecision (res A).
Proof. solve_decision. Defined.

#[global] Instance res_ret : MRet res := fun _ a => Ok a.
#[global] Instance res_bind : MBind res := fun _ _ f m =>
  match m with
  | Ok a => f a
  | Err e => Err e
  end.

(** [assert c] of Python. *)
Definition assert (c : bool) : res unit :=
  if c then Ok tt else Err AssertionError.

Definition is_ok {A} (m : res A) : bool :=
  match m with Ok _ => true | Err _ => false end.

(** ** Slice: a continuous memory region *)

Record Slice : Type := mkSlice {
  start : Z;
  stop : Z;
  name : option string;
  section : option string;
  tags : gset string;
}.

#[global] Instance Slice_eq_dec : EqDecision Slice.
Proof. solve_decision. Defined.

(** The constructor runs [__post_init__], which asserts [start <= stop]. *)
Definition Slice_init (a b : Z) (n s : option string) (tg : gset string)
  : res Slice :=
  _ ← assert (a <=? b); Ok (mkSlice a b n s tg).

(** [Slice(a, b)]: the other fields take their defaults. *)
Definition Slice_gap (a b : Z) : res Slice := Slice_init a b None None ∅.

(** [key in slice] for an integer key. *)
Definition contains_addr (s : Slice) (key : Z) : bool :=
  (start s <=? key) && (key <? stop s).

(** [key in slice] for a slice key. *)
Definition contains_slice (s key : Slice) : bool :=
  (start s <=? start key) && (stop s >=? stop key).

(** [Slice.__len__]. *)
Definition len (s : Slice) : res Z :=
  _ ← assert (start s <=? stop s); Ok (stop s - start s).

(** [Slice.__eq__]: two slices are equal when they occupy the same region. *)
Definition slice_eq (a b : Slice) : bool :=
  (start a =? start b) && (stop a =? stop b).

(** [Slice.__gt__]: this slice starts after the other one. *)
Definition slice_gt (a b : Slice) : bool := start a >? start b.

(** [a < b] on slices.  [Slice] defines no [__lt__], so Python evaluates the
    reflected [b.__gt__(a)]. *)
Definition slice_lt (a b : Slice) : bool := slice_gt b a.

Definition has_name (s : Slice) : bool :=
  match name s with Some _ => true | None => false end.

(** [Slice.__copy__] calls the constructor again. *)
Definition copy (s : Slice) : res Slice :=
  Slice_init (start s) (stop s) (name s) (section s) (tags s).

Definition set_start (s : Slice) (a : Z) : Slice :=
  mkSlice a (stop s) (name s) (section s) (tags s).
Definition set_stop (s : Slice) (b : Z) : Slice :=
  mkSlice (start s) b (name s) (section s) (tags s).
Definition set_name (s : Slice) (n : option string) : Slice :=
  mkSlice (start s) (stop s) n (section s) (tags s).

(** ** Python lists *)

(** [l[i]] for a natural index. *)
Definition getitem {A} (l : list A) (i : nat) : res A :=
  match l !! i with
  | Some x => Ok x
  | None => Err IndexError
  end.

(** [l.insert(i, x)] for a natural index: past the end it appends. *)
Definition list_insert_at {A} (l : list A) (i : nat) (x : A) : list A :=
  take i l ++ x :: drop i l.

(** Python's reading of a possibly negative index. *)
Definition py_index {A} (l : list A) (i : Z) : option nat :=
  let n := Z.of_nat (length l) in
  if (0 <=? i) && (i <? n) then Some (Z.to_nat i)
  else if (i <? 0) && (- n <=? i) then Some (Z.to_nat (n + i))
  else None.

Definition py_getitem {A} (l : list A) (i : Z) : res A :=
  match py_index l i with
  | Some k => getitem l k
  | None => Err IndexError
  end.

Definition py_setitem {A} (l : list A) (i : Z) (x : A) : res (list A) :=
  match py_index l i with
  | Some k => Ok (<[k:=x]> l)
  | None => Err IndexError
  end.

(** [l.insert(i, x)]: a negative index counts from the end, and the
    position is clamped to [0 .. len(l)]. *)
Definition py_insert {A} (l : list A) (i : Z) (x : A) : list A :=
  let n := Z.of_nat (length l) in
  let j := if i <? 0 then Z.max 0 (n + i) else Z.min i n in
  list_insert_at l (Z.to_nat j) x.

(** ** bisect *)

(** [bisect.bisect_right(a, x)]: the loop
    [while lo < hi: mid = (lo + hi) // 2; if x < a[mid]: hi = mid
     else: lo = mid + 1]. *)
Fixpoint bisect_right_loop (fuel : nat) (a : list Slice) (x : Slice)
    (lo hi : nat) : res nat :=
  match fuel with
  | O => Err OutOfFuel
  | S fuel' =>
      if (lo <? hi)%nat then
        let mid := ((lo + hi) / 2)%nat in
        am ← getitem a mid;
        if slice_lt x am then bisect_right_loop fuel' a x lo mid
        else bisect_right_loop fuel' a x (S mid) hi
      else Ok lo
  end.

Definition bisect (a : list Slice) (x : Slice) : res nat :=
  bisect_right_loop (S (length a)) a x 0 (length a).

(** [bisect.bisect_left(a, x)]: the test is [a[mid] < x]. *)
Fixpoint bisect_left_loop (fuel : nat) (a : list Slice) (x : Slice)
    (lo hi : nat) : res nat :=
  match fuel with
  | O => Err OutOfFuel
  | S fuel' =>
      if (lo <? hi)%nat then
        let mid := ((lo + hi) / 2)%nat in
        am ← getitem a mid;
        if slice_lt am x then bisect_left_loop fuel' a x (S mid) hi
        else bisect_left_loop fuel' a x lo mid
      else Ok lo
  end.

Definition bisect_left (a : list Slice) (x : Slice) : res nat :=
  bisect_left_loop (S (length a)) a x 0 (length a).

(** ** SliceTable: a list of contiguous slices for a given range *)

Record SliceTable : Type := mkTable {
  slices : list Slice;
  table_start : Z;
  table_stop : Z;
}.

Definition with_slices (t : SliceTable) (l : list Slice) : SliceTable :=
  mkTable l (table_start t) (table_stop t).

(** [SliceTable(start, stop)]. *)
Definition SliceTable_init (a b : Z) : res SliceTable :=
  _ ← assert (a <? b);
  g ← Slice_gap a b;
  Ok (mkTable [g] a b).

(** [slice in table]: the range of the slice lies within the table. *)
Definition table_contains (t : SliceTable) (s : Slice) : bool :=
  (table_start t <=? start s) && (table_stop t >=? stop s).

(** [SliceTable.find]: the first slice the address falls into, with its
    index. *)
Fixpoint find_from (l : list Slice) (i : nat) (addr : Z)
  : option (Slice * nat) :=
  match l with
  | [] => None
  | s :: l' =>
      if contains_addr s addr then Some (s, i) else find_from l' (S i) addr
  end.

Definition find (t : SliceTable) (addr : Z) : option (Slice * nat) :=
  find_from (slices t) 0 addr.

(** [SliceTable.find_parent]. *)
Definition find_parent (t : SliceTable) (s : Slice) : res (option Slice) :=
  i ← bisect_left (slices t) s;
  if (i <? length (slices t))%nat then
    x ← getitem (slices t) i; Ok (Some x)
  else Ok None.

(** [SliceTable.add]. *)
Definition add (t : SliceTable) (s : Slice) : res SliceTable :=
  n ← len s;
  _ ← assert (n >? 0);
  _ ← assert (table_contains t s);
  b ← bisect (slices t) s;
  let i := Z.of_nat b - 1 in
  target ← py_getitem (slices t) i;
  _ ← assert (negb (has_name target) && contains_slice target s);
  '(l1, i1) ←
    (if start s >? start target then
       g ← Slice_gap (start target) (start s);
       Ok (py_insert (slices t) i g, i + 1)
     else Ok (slices t, i));
  l2 ← py_setitem l1 i1 s;
  l3 ←
    (if stop s <? stop target then
       g ← Slice_gap (stop s) (stop target);
       Ok (py_insert l2 (i1 + 1) g)
     else Ok l2);
  Ok (with_slices t l3).

(** [SliceTable.__merge_left]: merges the gap at [idx] with a gap to its
    left, and returns the index of the gap. *)
Definition __merge_left (l : list Slice) (idx : nat)
  : res (list Slice * nat) :=
  cur ← getitem l idx;
  _ ← assert (negb (has_name cur));
  if (0 <? idx)%nat then
    prev ← getitem l (idx - 1);
    if negb (has_name prev) then
      Ok (delete idx (<[(idx - 1)%nat := set_stop prev (stop cur)]> l),
          (idx - 1)%nat)
    else Ok (l, idx)
  else Ok (l, idx).

(** [SliceTable.__merge_right]. *)
Definition __merge_right (l : list Slice) (idx : nat)
  : res (list Slice * nat) :=
  cur ← getitem l idx;
  _ ← assert (negb (has_name cur));
  if (idx + 1 <? length l)%nat then
    next ← getitem l (idx + 1);
    if negb (has_name next) then
      Ok (delete idx (<[(idx + 1)%nat := set_start next (start cur)]> l), idx)
    else Ok (l, idx)
  else Ok (l, idx).

(** [SliceTable.__remove_slice]: creates a gap in the slice at [idx] and
    returns the index of the gap. *)
Definition __remove_slice (l : list Slice) (idx : nat) (new_start new_stop : Z)
  : res (list Slice * nat) :=
  target ← getitem l idx;
  _ ← assert (new_start <? new_stop);
  _ ← assert (start target <=? new_start);
  _ ← assert (stop target >=? new_stop);
  if (start target =? new_start) && (stop target =? new_stop) then
    (* Remove entire slice. *)
    c ← copy target;
    let gap := set_name c None in
    '(l1, idx1) ← __merge_left (<[idx := gap]> l) idx;
    __merge_right l1 idx1
  else if start target =? new_start then
    (* Remove left part. *)
    c ← copy target;
    let gap := set_stop (set_name c None) new_stop in
    c' ← copy target;
    let part := set_start c' new_stop in
    __merge_left (list_insert_at (<[idx := gap]> l) (idx + 1) part) idx
  else if stop target =? new_stop then
    (* Remove right part. *)
    c ← copy target;
    let part := set_stop c new_start in
    c' ← copy target;
    let gap := set_start (set_name c' None) new_start in
    __merge_right (list_insert_at (<[idx := part]> l) (idx + 1) gap) (idx + 1)
  else
    (* Remove middle part. *)
    c ← copy target;
    let part_l := set_stop c new_start in
    c' ← copy target;
    let gap := set_stop (set_start (set_name c' None) new_start) new_stop in
    c'' ← copy target;
    let part_r := set_start c'' new_stop in
    Ok (list_insert_at
          (list_insert_at (<[idx := part_l]> l) (idx + 1) gap)
          (idx + 2) part_r,
        (idx + 1)%nat).

(** The loop of [SliceTable.__remove]:
    [while idx < len(self.slices) and self.slices[idx].start < stop]. *)
Fixpoint remove_loop (fuel : nat) (l : list Slice) (idx : nat) (a b : Z)
  : res (list Slice) :=
  match fuel with
  | O => Err OutOfFuel
  | S fuel' =>
      if (idx <? length l)%nat then
        target ← getitem l idx;
        if start target <? b then
          let next_stop := Z.min b (stop target) in
          '(l', idx') ←
            __remove_slice l idx (Z.max a (start target)) next_stop;
          remove_loop fuel' l' (idx' + 1) a b
        else Ok l
      else Ok l
  end.

(** [SliceTable.__remove]: creates a gap spanning the given range.  When
    [find] returns [None], the comparison [idx < len(self.slices)] raises a
    [TypeError].  Every pass of the loop but the last one leaves one slice
    less to the right of [idx], hence the fuel. *)
Definition __remove (t : SliceTable) (a b : Z) : res SliceTable :=
  let a := Z.max a (table_start t) in
  let b := Z.min b (table_stop t) in
  match find t a with
  | None => Err TypeError
  | Some (_, idx) =>
      l ← remove_loop (length (slices t) + 2) (slices t) idx a b;
      Ok (with_slices t l)
  end.

(** [SliceTable.remove(start, stop)]. *)
Definition remove (t : SliceTable) (a b : Z) : res SliceTable :=
  __remove t a b.

(** [SliceTable.remove(_slice=s)]. *)
Definition remove_region (t : SliceTable) (s : Slice) : res SliceTable :=
  __remove t (start s) (stop s).



(** The attributes a table has: [__init__] sets [slices], [start] and
    [stop]; the class adds its methods and the two constants
    [ONLY_ENABLED] and [SECTION_ORDER].  Nothing in the module sets another
    attribute on a table. *)
Inductive attr : Type :=
  | AttrSlices (l : list Slice)
  | AttrInt (z : Z)
  | AttrClass.

Definition class_attrs : list string :=
  ["load_path"; "size"; "count"; "read_from"; "find"; "slice"; "find_parent";
   "sum_named_slices"; "filter"; "ONLY_ENABLED"; "add"; "remove";
   "SECTION_ORDER"; "object_slices"; "set_sections"]%string.

Definition getattr (t : SliceTable) (a : string) : res attr :=
  if decide (a = "slices"%string) then Ok (AttrSlices (slices t))
  else if decide (a = "start"%string) then Ok (AttrInt (table_start t))
  else if decide (a = "stop"%string) then Ok (AttrInt (table_stop t))
  else if decide (a ∈ class_attrs) then Ok AttrClass
  else Err AttributeError.

(** The loop of [sum_named_slices] over a list of slices. *)
Fixpoint sum_named (l : list Slice) (t : Z) : res Z :=
  match l with
  | [] => Ok t
  | s :: l' =>
      if has_name s then n ← len s; sum_named l' (t + n)
      else sum_named l' t
  end.

(** [SliceTable.sum_named_slices]: it iterates over [self.segs]. *)
Definition sum_named_slices (t : SliceTable) : res Z :=
  v ← getattr t "segs"%string;
  match v with
  | AttrSlices l => sum_named l 0
  | _ => Err TypeError
  end.

(** ** Object slices *)

Definition SECTION_ORDER : list string :=
  ["init"; "extab"; "extabindex"; "text"; "ctors"; "dtors"; "rodata";
   "data"; "bss"; "sdata"; "sbss"; "sdata2"; "sbss2"]%string.

(** [order.index(x)]: the first position of [x]; a [ValueError] when [x] is
    not in the list ([None] never equals a string). *)
Fixpoint index_from (order : list string) (i : nat) (x : string) : res nat :=
  match order with
  | [] => Err ValueError
  | y :: order' => if decide (y = x) then Ok i else index_from order' (S i) x
  end.

Definition index_of (order : list string) (x : option string) : res nat :=
  match x with
  | Some s => index_from order 0 s
  | None => Err ValueError
  end.

(** A Python [dict] keeps its keys in insertion order; assigning to a key
    that is present replaces the value in place. *)
Fixpoint dict_set {K V} `{EqDecision K} (d : list (K * V)) (k : K) (v : V)
  : list (K * V) :=
  match d with
  | [] => [(k, v)]
  | (k', v') :: d' =>
      if decide (k' = k) then (k, v) :: d' else (k', v') :: dict_set d' k v
  end.

(** [ObjectSlices.objects]: slices grouped by slice name. *)
Definition ObjectSlices : Type := list (option string * list Slice).

(** The first loop of [object_slices] puts every named slice into the
    bucket of its section and records the sections of each object. *)
Definition collect_step (order : list string)
    (st : list (list Slice) * gmap string (gset (option string)))
    (s : Slice)
  : res (list (list Slice) * gmap string (gset (option string))) :=
  match name s with
  | None => Ok st
  | Some n =>
      k ← index_of order (section s);
      bucket ← getitem st.1 k;
      let sections := default ∅ (st.2 !! n) in
      Ok (<[k := bucket ++ [s]]> st.1, <[n := sections ∪ {[section s]}]> st.2)
  end.

Fixpoint collect (order : list string)
    (st : list (list Slice) * gmap string (gset (option string)))
    (l : list Slice)
  : res (list (list Slice) * gmap string (gset (option string))) :=
  match l with
  | [] => Ok st
  | s :: l' => st' ← collect_step order st s; collect order st' l'
  end.

(** [bucket.sort(key=lambda _slice: _slice.start)]: a stable sort. *)
Fixpoint insert_by_start (x : Slice) (l : list Slice) : list Slice :=
  match l with
  | [] => [x]
  | y :: l' =>
      if start x <=? start y then x :: y :: l'
      else y :: insert_by_start x l'
  end.

Definition sort_by_start (l : list Slice) : list Slice :=
  foldr insert_by_start [] l.

(** [object_sections[name]]. *)
Definition object_sections_get (os : gmap string (gset (option string)))
    (nm : option string) : res (gset (option string)) :=
  match nm with
  | Some n =>
      match os !! n with
      | Some secs => Ok secs
      | None => Err KeyError
      end
  | None => Err KeyError
  end.

(** The loop that discovers the dependencies of the front slice of bucket
    [i]: [rest] are the buckets from index [j] on, [acc] is [slices].  The
    result is [None] when [deps_match] ends up [False]. *)
Fixpoint deps_loop (order : list string)
    (os : gmap string (gset (option string))) (nm : option string)
    (i j : nat) (rest : list (list Slice)) (acc : list Slice)
  : res (option (list Slice)) :=
  match rest with
  | [] => Ok (Some acc)
  | dep_bucket :: rest' =>
      if decide (i = j) then deps_loop order os nm i (S j) rest' acc
      else
        oj ← getitem order j;
        secs ← object_sections_get os nm;
        if decide (Some oj ∈ secs) then
          d ← getitem dep_bucket 0;
          if decide (name d = nm) then
            deps_loop order os nm i (S j) rest' (acc ++ [d])
          else Ok None
        else deps_loop order os nm i (S j) rest' acc
  end.

(** [while len(buckets[j]) == 0 or buckets[j][0].section != sec: j += 1],
    on the buckets from index [j] on. *)
Fixpoint scan_bucket (rest : list (list Slice)) (j : nat)
    (sec : option string) : res nat :=
  match rest with
  | [] => Err IndexError
  | bucket :: rest' =>
      match bucket with
      | [] => scan_bucket rest' (S j) sec
      | x :: _ =>
          if decide (section x = sec) then Ok j
          else scan_bucket rest' (S j) sec
      end
  end.

(** The loop that pops the slices of the resolved object from their
    buckets; [j] is not reset between two slices. *)
Fixpoint pop_slices (buckets : list (list Slice)) (j : nat)
    (ss : list Slice) : res (list (list Slice)) :=
  match ss with
  | [] => Ok buckets
  | s :: ss' =>
      j' ← scan_bucket (drop j buckets) j (section s);
      bucket ← getitem buckets j';
      pop_slices (<[j' := tail bucket]> buckets) j' ss'
  end.

(** The [for i, bucket in enumerate(buckets)] loop that selects the next
    object; [rest] are the buckets from index [i] on.  The result is
    [None] when [resolved_row] stays [False]. *)
Fixpoint select_loop (order : list string)
    (os : gmap string (gset (option string)))
    (buckets : list (list Slice)) (i : nat) (rest : list (list Slice))
  : res (option (option string * list Slice * list (list Slice))) :=
  match rest with
  | [] => Ok None
  | bucket :: rest' =>
      match bucket with
      | [] => select_loop order os buckets (S i) rest'
      | x :: _ =>
          r ← deps_loop order os (name x) i 0 buckets [x];
          match r with
          | Some ss =>
              buckets' ← pop_slices buckets 0 ss;
              Ok (Some (name x, ss, buckets'))
          | None => select_loop order os buckets (S i) rest'
          end
      end
  end.

Definition total_len (buckets : list (list Slice)) : nat :=
  foldr (fun b n => (length b + n)%nat) 0%nat buckets.

(** [while sum(len(bucket) for bucket in buckets) > 0].  Every pass pops at
    least one slice, hence the fuel. *)
Fixpoint merge_loop (fuel : nat) (order : list string)
    (os : gmap string (gset (option string)))
    (buckets : list (list Slice)) (objects : ObjectSlices)
  : res ObjectSlices :=
  match fuel with
  | O => Err OutOfFuel
  | S fuel' =>
      if (0 <? total_len buckets)%nat then
        r ← select_loop order os buckets 0 buckets;
        match r with
        | Some (nm, ss, buckets') =>
            merge_loop fuel' order os buckets' (dict_set objects nm ss)
        | None => Err AssertionError
        end
      else Ok objects
  end.

(** [SliceTable.object_slices]. *)
Definition object_slices (t : SliceTable) (order : list string)
  : res ObjectSlices :=
  '(buckets, os) ←
    collect order (replicate (length order) [], ∅) (slices t);
  let buckets := sort_by_start <$> buckets in
  merge_loop (S (total_len buckets)) order os buckets [].

(** ** Strings of Python *)

Definition chars (s : string) : list ascii := list_ascii_of_string s.
Definition of_chars (l : list ascii) : string := string_of_list_ascii l.

(** [s.endswith(suffix)]. *)
Definition endswith (s suffix : string) : bool :=
  bool_decide (chars suffix `suffix_of` chars s).

(** [s.removesuffix(suffix)]. *)
Definition removesuffix (s suffix : string) : string :=
  if endswith s suffix then
    of_chars (take (length (chars s) - length (chars suffix)) (chars s))
  else s.

(** The ASCII characters that [str.strip] removes. *)
Definition is_space (c : ascii) : bool :=
  let n := nat_of_ascii c in
  ((9 <=? n) && (n <=? 13) || (28 <=? n) && (n <=? 32))%nat.

Fixpoint lstrip_chars (l : list ascii) : list ascii :=
  match l with
  | [] => []
  | c :: l' => if is_space c then lstrip_chars l' else l
  end.

(** [s.strip()]. *)
Definition strip (s : string) : string :=
  of_chars (rev (lstrip_chars (rev (lstrip_chars (chars s))))).

(** [hex(z)]. *)
Definition hex (z : Z) : string := HexString.of_Z z.

(** The digits of [int(s, 16)]: hexadecimal digits of either case, with
    single underscores between them; [us] tells that the character before
    was an underscore, [acc] is the value read so far. *)
Fixpoint int16_digits (l : list ascii) (acc : N) (us : bool) : option N :=
  match l with
  | [] => if us then None else Some acc
  | c :: l' =>
      if decide (c = "_"%char) then
        if us then None else int16_digits l' acc true
      else
        match HexString.ascii_to_digit c with
        | Some v => int16_digits l' (N.add v (N.mul 16 acc)) false
        | None => None
        end
  end.

(** The unsigned part: an optional [0x] or [0X], then at least one
    digit.  An underscore may follow the prefix but may not start the
    digits. *)
Definition int16_unsigned (l : list ascii) : option N :=
  match l with
  | "0"%char :: x :: l' =>
      if decide (x = "x"%char ∨ x = "X"%char) then
        match l' with
        | [] => None
        | _ => int16_digits l' 0 false
        end
      else int16_digits l 0 true
  | _ => int16_digits l 0 true
  end.

(** [int(s, 16)]: surrounding white space and a sign are accepted. *)
Definition int16 (s : string) : res Z :=
  let l := chars (strip s) in
  let '(neg, l) :=
    match l with
    | c :: l' =>
        if decide (c = "-"%char) then (true, l')
        else if decide (c = "+"%char) then (false, l')
        else (false, l)
    | [] => (false, l)
    end in
  match int16_unsigned l with
  | Some n => Ok (if neg then - Z.of_N n else Z.of_N n)
  | None => Err ValueError
  end.

(** ** The CSV reader and writer

    The [csv] module is modelled at the level of rows: a file is the list
    of its rows, a row the list of its fields.  The quoting that
    [csv.writer] applies and [csv.reader] undoes is not modelled. *)

Definition csv_file : Type := list (list string).

Record SlicesCSVReader : Type := mkReader {
  cols : nat;
  tag_idx : list string;
  sections : list string;
}.

(** The loop of [SlicesCSVReader.__init__] over the pairs of section
    fields. *)
Fixpoint header_sections (section_fields : list string)
  : res (list string) :=
  match section_fields with
  | [] => Ok []
  | [_] => Err IndexError
  | f_start :: f_end :: rest =>
      _ ← assert (endswith f_start "Start");
      _ ← assert (endswith f_end "End");
      let sec := removesuffix f_start "Start" in
      _ ← assert (bool_decide (sec = removesuffix f_end "End"));
      secs ← header_sections rest;
      Ok (sec :: secs)
  end.

(** [SlicesCSVReader.__init__], after the header row has been read. *)
Definition SlicesCSVReader_init (header : list string)
  : res SlicesCSVReader :=
  name_idx ← index_from header 0 "name";
  let section_fields := drop (S name_idx) header in
  _ ← assert ((0 <? length section_fields)%nat
              && (length section_fields mod 2 =? 0)%nat);
  secs ← header_sections section_fields;
  Ok (mkReader (length header) (take name_idx header) secs).

(** The flags of a row: the tags whose field is ["1"]. *)
Fixpoint row_flags (row : list string) (i : nat) (tgs : list string)
    (flags : gset string) : res (gset string) :=
  match tgs with
  | [] => Ok flags
  | tag :: tgs' =>
      f ← getitem row i;
      row_flags row (S i) tgs'
        (if decide (f = "1"%string) then flags ∪ {[tag]} else flags)
  end.

(** The loop of [parse_row] over the sections; [ranges[2 * i : 2 * i + 2]]
    must unpack into two strings. *)
Fixpoint row_ranges (ranges : list string) (i : nat) (secs : list string)
    (nm : string) (flags : gset string) : res (list Slice) :=
  match secs with
  | [] => Ok []
  | sec :: secs' =>
      match take 2 (drop (2 * i) ranges) with
      | [start_str; stop_str] =>
          let start_str := strip start_str in
          let stop_str := strip stop_str in
          if decide (start_str = ""%string) then
            row_ranges ranges (S i) secs' nm flags
          else
            _ ← assert (negb (bool_decide (stop_str = ""%string)));
            a ← int16 (strip start_str);
            b ← int16 stop_str;
            s ← Slice_init a b (Some nm) (Some sec) flags;
            rest ← row_ranges ranges (S i) secs' nm flags;
            Ok (s :: rest)
      | _ => Err ValueError
      end
  end.

(** [SlicesCSVReader.parse_row]: all slices in a row. *)
Definition parse_row (rd : SlicesCSVReader) (row : list string)
  : res (list Slice) :=
  if (length row =? 0)%nat then Ok []
  else
    _ ← assert (length row =? cols rd)%nat;
    flags ← row_flags row 0 (tag_idx rd) ∅;
    nm ← getitem row (length (tag_idx rd));
    let ranges := drop (length (tag_idx rd) + 1) row in
    row_ranges ranges 0 (sections rd) nm flags.

Fixpoint parse_rows (rd : SlicesCSVReader) (rows : list (list string))
  : res (list Slice) :=
  match rows with
  | [] => Ok []
  | row :: rows' =>
      l ← parse_row rd row;
      l' ← parse_rows rd rows';
      Ok (l ++ l')
  end.

(** Iterating over [SlicesCSVReader(file)]: all slices in the file.  On an
    empty file [next(self.reader)] raises [StopIteration]. *)
Definition read_slices (file : csv_file) : res (list Slice) :=
  match file with
  | [] => Err StopIteration
  | header :: rows =>
      rd ← SlicesCSVReader_init header;
      parse_rows rd rows
  end.

(** [SliceTable.read_from]. *)
Definition read_from (t : SliceTable) (file : csv_file) : res SliceTable :=
  l ← read_slices file;
  foldl (fun acc s => t' ← acc; add t' s) (Ok t) l.

(** The start and end columns of a section. *)
Definition section_cols (sec : string) : list string :=
  [sec +:+ "Start"; sec +:+ "End"]%string.

(** The columns of [SlicesCSVWriter]. *)
Definition writer_cols (secs : list string) : list string :=
  ["enabled"; "strip"; "name"]%string ++ flat_map section_cols secs.

(** [str(x)] of an optional string inside an f-string. *)
Definition fmt (x : option string) : string :=
  match x with Some s => s | None => "None" end.

(** The text [csv] writes for a field: [None] becomes the empty string. *)
Definition csv_field (x : option string) : string :=
  match x with Some s => s | None => "" end.

(** [DictWriter.writerow]: a key that is not a column raises a
    [ValueError]; a column without a value is written empty. *)
Definition dict_to_row (fieldnames : list string)
    (entry : gmap string string) : res (list string) :=
  if decide (dom entry ⊆ list_to_set fieldnames) then
    Ok ((fun c => default ""%string (entry !! c)) <$> fieldnames)
  else Err ValueError.

Definition entry_of (nm : option string) (l : list Slice) (s0 : Slice)
  : gmap string string :=
  let entry := {["name"%string := csv_field nm]} in
  let entry :=
    set_fold (fun tag e => <[tag := "1"%string]> e) entry (tags s0) in
  foldl (fun e s =>
           <[fmt (section s) +:+ "End" := hex (stop s)]>
             (<[fmt (section s) +:+ "Start" := hex (start s)]> e))
        entry l.

(** [SlicesCSVWriter.write]: the row written for an object, if any. *)
Definition write (secs : list string) (nm : option string)
    (l : list Slice) : res (option (list string)) :=
  match l with
  | [] => Ok None
  | s0 :: _ =>
      row ← dict_to_row (writer_cols secs) (entry_of nm l s0);
      Ok (Some row)
  end.



(** ** The partition invariants of a table *)

Definition sorted_by_start (l : list Slice) : Prop :=
  ∀ (i j : nat) a b,
    l !! i = Some a → l !! j = Some b → (i < j)%nat → start a < start b.

Definition contiguous (l : list Slice) : Prop :=
  ∀ (i : nat) a b, l !! i = Some a → l !! S i = Some b → stop a = start b.

Definition covers (t : SliceTable) : Prop :=
  ∃ first final,
    head (slices t) = Some first ∧ last (slices t) = Some final ∧
    start first = table_start t ∧ stop final = table_stop t.

Definition positive_lengths (l : list Slice) : Prop :=
  ∀ s, s ∈ l → start s < stop s.

Definition no_adjacent_gaps (l : list Slice) : Prop :=
  ∀ (i : nat) a b,
    l !! i = Some a → l !! S i = Some b → ¬ (name a = None ∧ name b = None).

(** The invariants that do not speak of names. *)
Record tiling (t : SliceTable) : Prop := mkTiling {
  tiling_sorted : sorted_by_start (slices t);
  tiling_contiguous : contiguous (slices t);
  tiling_covers : covers t;
  tiling_positive : positive_lengths (slices t);
}.

Definition partition_inv (t : SliceTable) : Prop :=
  tiling t ∧ no_adjacent_gaps (slices t).

(** [tiles a l b]: the slices of [l], in this order, cut [a .. b) into
    non-empty pieces. *)
Fixpoint tiles (a : Z) (l : list Slice) (b : Z) : Prop :=
  match l with
  | [] => a = b
  | s :: l' => start s = a ∧ start s < stop s ∧ tiles (stop s) l' b
  end.





(** Two lists of slices are equal for Python when they have the same
    length and their slices are pairwise equal for [Slice.__eq__]. *)
Definition slices_eq (l1 l2 : list Slice) : Prop :=
  Forall2 (fun a b => slice_eq a b = true) l1 l2.


(** What the specification says [add] puts in the place of the target
    gap: a left leftover gap, the new slice, a right leftover gap. *)
Definition left_gap (target r : Slice) : list Slice :=
  if start r >? start target
  then [mkSlice (start target) (start r) None None ∅] else [].

Definition right_gap (target r : Slice) : list Slice :=
  if stop r <? stop target
  then [mkSlice (stop r) (stop target) None None ∅] else [].

Definition add_splice (l : list Slice) (i : nat) (target r : Slice)
  : list Slice :=
  take i l ++ left_gap target r ++ [r] ++ right_gap target r ++ drop (S i) l.

(** Executable checks of the invariants. *)
Fixpoint tilesb (a : Z) (l : list Slice) (b : Z) : bool :=
  match l with
  | [] => a =? b
  | s :: l' => (start s =? a) && (start s <? stop s) && tilesb (stop s) l' b
  end.

Fixpoint gaps_apart (l : list Slice) : bool :=
  match l with
  | a :: l' =>
      match l' with
      | b :: _ => (has_name a || has_name b) && gaps_apart l'
      | [] => true
      end
  | [] => true
  end.

Definition partition_invb (t : SliceTable) : bool :=
  tilesb (table_start t) (slices t) (table_stop t)
  && negb (bool_decide (slices t = []))
  && gaps_apart (slices t).

(** The pieces that a removal of [ns .. ne) cuts the slice [tg] into:
    what is left of [tg] on either side, and the gap in between.  All of
    them have the section and the tags of [tg]; the gap has no name. *)
Definition gap_of (tg : Slice) (ns ne : Z) : Slice :=
  mkSlice ns ne None (section tg) (tags tg).

Definition left_part (tg : Slice) (ns : Z) : list Slice :=
  if start tg <? ns
  then [mkSlice (start tg) ns (name tg) (section tg) (tags tg)] else [].

Definition right_part (tg : Slice) (ne : Z) : list Slice :=
  if ne <? stop tg
  then [mkSlice ne (stop tg) (name tg) (section tg) (tags tg)] else [].

Definition carve (tg : Slice) (ns ne : Z) : list Slice :=
  left_part tg ns ++ [gap_of tg ns ne] ++ right_part tg ne.

(** The merges that [__remove_slice] applies to the gap at index [k],
    by the sides on which the removed range reaches the end of the
    target. *)
Definition merge_gap (l : list Slice) (k : nat) (at_start at_stop : bool)
  : res (list Slice * nat) :=
  if at_start && at_stop then
    '(l1, i1) ← __merge_left l k; __merge_right l1 i1
  else if at_start then __merge_left l k
  else if at_stop then __merge_right l k
  else Ok (l, k).

(** [x] has the section and the tags of [y], and the name of [y] or
    none. *)
Definition keeps_metadata (x y : Slice) : Prop :=
  section x = section y ∧ tags x = tags y ∧
  (name x = name y ∨ name x = None).



(** The named slices of [l] that go into bucket [k]. *)
Definition bucket_of (order : list string) (k : nat) (l : list Slice)
  : list Slice :=
  filter (fun s => has_name s ∧ index_of order (section s) = Ok k) l.

(** The sections of the slices of [l] that are named [n]. *)
Definition sections_of (n : string) (l : list Slice)
  : gset (option string) :=
  list_to_set (section <$> filter (fun s => name s = Some n) l).



(** The step of the loop of [SlicesCSVWriter.write] over the slices. *)
Definition entry_step (e : gmap string string) (s : Slice)
  : gmap string string :=
  <[fmt (section s) +:+ "End" := hex (stop s)]>
    (<[fmt (section s) +:+ "Start" := hex (start s)]> e).

(** A slice that belongs into bucket [k]. *)
Definition in_bucket (order : list string) (t : SliceTable) (k : nat)
    (s : Slice) : Prop :=
  has_name s = true ∧ index_of order (section s) = Ok k ∧ s ∈ slices t.

Definition buckets_ok (order : list string) (t : SliceTable)
    (buckets : list (list Slice)) : Prop :=
  ∀ (k : nat) b s, buckets !! k = Some b → s ∈ b → in_bucket order t k s.

(** An object as [object_slices] builds it from the table [t]. *)
Definition object_ok (order : list string) (t : SliceTable)
    (g : option string * list Slice) : Prop :=
  (∃ n, g.1 = Some n) ∧ g.2 ≠ [] ∧
  (∀ s, s ∈ g.2 →
        name s = g.1 ∧ s ∈ slices t
        ∧ ∃ sec, section s = Some sec ∧ sec ∈ order) ∧
  NoDup (section <$> g.2).

(** ** Auxiliary notions of the proofs *)

(** The starts do not decrease along the list: what the binary searches
    rely on. *)
Definition monotone (l : list Slice) : Prop :=
  ∀ (i j : nat) a b,
    l !! i = Some a → l !! j = Some b → (i ≤ j)%nat → start a ≤ start b.

(** The result of a pass of the removal on a list, seen from a list with
    the prefix [pre] in front of it. *)
Definition shift_res (pre : list Slice) (m : res (list Slice * nat))
  : res (list Slice * nat) :=
  '(l, i) ← m; Ok (pre ++ l, (length pre + i)%nat).

(** Every slice of [l'] has the section and the tags of a slice of [l]
    that it comes from. *)
Definition list_keeps_metadata (l' l : list Slice) : Prop :=
  ∀ x, x ∈ l' → ∃ y, y ∈ l ∧ keeps_metadata x y.


(** ** The tables of the examples *)

(** A slice [foo] followed by a gap. *)
Definition table_c2 : SliceTable :=
  mkTable [mkSlice 0 4 (Some "foo"%string) None ∅; mkSlice 4 16 None None ∅]
    0 16.

(** The objects [A] and [B] with [text] in one order and [data] in the
    other. *)
Definition table_c5 : SliceTable :=
  mkTable
    [mkSlice 0 4 None None ∅;
     mkSlice 4 8 (Some "A"%string) (Some "text"%string) ∅;
     mkSlice 8 12 (Some "B"%string) (Some "text"%string) ∅;
     mkSlice 12 20 None None ∅;
     mkSlice 20 24 (Some "B"%string) (Some "data"%string) ∅;
     mkSlice 24 28 (Some "A"%string) (Some "data"%string) ∅]
    0 28.

(** Two objects with a [text] and a [data] slice each, in the order of the
    sections. *)
Definition table_c6 : SliceTable :=
  mkTable
    [mkSlice 0 10 (Some "A"%string) (Some "text"%string) {["enabled"%string]};
     mkSlice 10 20 (Some "B"%string) (Some "text"%string) ∅;
     mkSlice 20 30 (Some "A"%string) (Some "data"%string) {["enabled"%string]};
     mkSlice 30 40 (Some "B"%string) (Some "data"%string) ∅]
    0 40.

(** Its objects. *)
Definition objects_c6 : ObjectSlices :=
  [(Some "A"%string,
    [mkSlice 0 10 (Some "A"%string) (Some "text"%string) {["enabled"%string]};
     mkSlice 20 30 (Some "A"%string) (Some "data"%string)
       {["enabled"%string]}]);
   (Some "B"%string,
    [mkSlice 10 20 (Some "B"%string) (Some "text"%string) ∅;
     mkSlice 30 40 (Some "B"%string) (Some "data"%string) ∅])].


(** * The rest of the slice table *)

(** ** [Slice.split] *)

(** [sorted(split_addrs)] on integers. *)
Fixpoint insert_addr (x : Z) (l : list Z) : list Z :=
  match l with
  | [] => [x]
  | y :: l' => if x <=? y then x :: y :: l' else y :: insert_addr x l'
  end.

Definition sorted (l : list Z) : list Z := foldr insert_addr [] l.

(** The loop of [Slice.split] over [chain(sorted(split_addrs),
    [self.stop])]; [cur] is the variable [start].  The generator is
    modelled by the list of the slices it yields. *)
Fixpoint split_loop (s : Slice) (cur : Z) (addrs : list Z)
  : res (list Slice) :=
  match addrs with
  | [] => Ok []
  | addr :: addrs' =>
      if (addr <? start s) || (addr >? stop s) then split_loop s cur addrs'
      else
        c ← copy s;
        let sub_slice := set_stop (set_start c cur) addr in
        keep ← (if contains_slice s sub_slice
                then n ← len sub_slice; Ok (n >? 0)
                else Ok false);
        rest ← split_loop s addr addrs';
        Ok (if keep : bool then sub_slice :: rest else rest)
  end.

(** [Slice.split]: this slice split into multiple. *)
Definition split (s : Slice) (split_addrs : list Z) : res (list Slice) :=
  split_loop s (start s) (sorted split_addrs ++ [stop s]).

(** ** More of [SliceTable] *)

(** [list(map(copy, l))]. *)
Fixpoint copy_all (l : list Slice) : res (list Slice) :=
  match l with
  | [] => Ok []
  | s :: l' => c ← copy s; cs ← copy_all l'; Ok (c :: cs)
  end.

(** [SliceTable.__copy__]. *)
Definition table_copy (t : SliceTable) : res SliceTable :=
  table ← SliceTable_init (table_start t) (table_stop t);
  l ← copy_all (slices t);
  Ok (with_slices table l).

(** [SliceTable.size] (and [__len__]) and [SliceTable.count]. *)
Definition size (t : SliceTable) : Z := table_stop t - table_start t.
Definition count (t : SliceTable) : nat := length (slices t).




(** ** Notions of the further properties *)

(** The name that a list of slices gives to an address: that of the
    slice [find] returns for it, and none outside of all slices. *)
Definition name_at (l : list Slice) (p : Z) : option string :=
  match find_from l 0 p with
  | Some (s, _) => name s
  | None => None
  end.



(** ** Notions of the completeness of [object_slices] *)

(** Every element of the list is related to the ones after it. *)
Fixpoint chain {A} (R : A → A → Prop) (l : list A) : Prop :=
  match l with
  | [] => True
  | x :: l' => Forall (R x) l' ∧ chain R l'
  end.

(** The names of the slices of a bucket go up in rank. *)
Definition rank_sorted (rank : option string → nat) (b : list Slice)
  : Prop :=
  chain (fun x y => (rank (name x) < rank (name y))%nat) b.

(** The slice is in one of the buckets. *)
Definition in_buckets (buckets : list (list Slice)) (s : Slice) : Prop :=
  ∃ (k : nat) b, buckets !! k = Some b ∧ s ∈ b.

(** The buckets without the front slices of the buckets [ks]. *)
Definition pop_at (ks : list nat) (buckets : list (list Slice))
  : list (list Slice) :=
  imap (fun k b => if decide (k ∈ ks) then tail b else b) buckets.

(** What holds of the buckets and of the objects whenever the merge loop
    of [object_slices] tests its condition: the buckets are those of the
    section order and hold slices of the table, each in the bucket of its
    section and in the order of the ranks; the slices of a name are in
    the buckets all together or not at all; a named slice of the table is
    in a bucket or in the object of its name; and no object has the name
    of a slice that is still in a bucket. *)
Record merge_inv (order : list string) (t : SliceTable)
    (rank : option string → nat) (buckets : list (list Slice))
    (objects : ObjectSlices) : Prop := mkMergeInv {
  mi_len : length buckets = length order;
  mi_ok : buckets_ok order t buckets;
  mi_sorted : ∀ (k : nat) b, buckets !! k = Some b → rank_sorted rank b;
  mi_whole :
    ∀ s s', s ∈ slices t → s' ∈ slices t → has_name s' = true →
            name s = name s' → in_buckets buckets s → in_buckets buckets s';
  mi_done :
    ∀ s, s ∈ slices t → has_name s = true →
         in_buckets buckets s ∨ ∃ l, (name s, l) ∈ objects ∧ s ∈ l;
  mi_fresh :
    ∀ g s, g ∈ objects → in_buckets buckets s → name s ≠ g.1;
  mi_keys : NoDup objects.*1;
}.

(** The front slice of bucket [i], of the object [n], cannot be taken
    yet: another bucket holds a slice of [n] behind a slice of another
    object. *)
Definition blocked (buckets : list (list Slice)) (i : nat) (n : string)
  : Prop :=
  ∃ (k : nat) d bk s',
    k ≠ i ∧ buckets !! k = Some (d :: bk) ∧ name d ≠ Some n ∧
    s' ∈ bk ∧ name s' = Some n.

(** ** [ObjectSlices.get] and the sizes of a table *)

(** [d.get(k)] on the dictionary of the objects. *)
Fixpoint dict_get {K V} `{EqDecision K} (d : list (K * V)) (k : K)
  : option V :=
  match d with
  | [] => None
  | (k', v) :: d' => if decide (k' = k) then Some v else dict_get d' k
  end.

(** [ObjectSlices.get]; the name is a string, so that the assertion
    holds. *)
Definition objects_get (objects : ObjectSlices) (nm : string)
  : option (list Slice) :=
  dict_get objects (Some nm).

(** [ObjectSlices.__len__]. *)
Definition objects_len (objects : ObjectSlices) : nat := length objects.

(** The lengths of the slices of a list added up, each as [len] gives
    it: [len] asserts that the slice does not end before it starts. *)
Fixpoint sum_lens (l : list Slice) (acc : Z) : res Z :=
  match l with
  | [] => Ok acc
  | s :: l' => n ← len s; sum_lens l' (acc + n)
  end.

(** ** Notions of the success of [read_from] *)



(** * Properties *)

(** ** Results *)

Lemma bind_Ok {A B} (m : res A) (f : A → res B) (b : B) :
  m ≫= f = Ok b → ∃ a, m = Ok a ∧ f a = Ok b.
Proof. destruct m as [a|e]; simpl; [eauto | discriminate]. Qed.

Lemma assert_Ok (c : bool) : assert c = Ok tt ↔ c = true.
Proof. destruct c; simpl; split; congruence. Qed.

Lemma assert_true (c : bool) : c = true → assert c = Ok tt.
Proof. intros ->. reflexivity. Qed.

(** Case analysis on the integer comparisons of the goal. *)
Ltac zbool :=
  repeat match goal with
  | |- context [(?a >? ?b)%Z] => rewrite (Z.gtb_ltb a b)
  | |- context [(?a >=? ?b)%Z] => rewrite (Z.geb_leb a b)
  | |- context [(?a <? ?b)%Z] => destruct (Z.ltb_spec a b); try lia
  | |- context [(?a <=? ?b)%Z] => destruct (Z.leb_spec a b); try lia
  | |- context [(?a =? ?b)%Z] => destruct (Z.eqb_spec a b); try lia
  end.

Ltac zbool_in H :=
  repeat match type of H with
  | context [(?a >? ?b)%Z] => rewrite (Z.gtb_ltb a b) in H
  | context [(?a >=? ?b)%Z] => rewrite (Z.geb_leb a b) in H
  | context [(?a <? ?b)%Z] => destruct (Z.ltb_spec a b); try lia
  | context [(?a <=? ?b)%Z] => destruct (Z.leb_spec a b); try lia
  | context [(?a =? ?b)%Z] => destruct (Z.eqb_spec a b); try lia
  end.

Lemma Slice_init_Ok a b n s tg :
  a ≤ b → Slice_init a b n s tg = Ok (mkSlice a b n s tg).
Proof. intros H. unfold Slice_init. zbool. reflexivity. Qed.

Lemma copy_Ok s : start s ≤ stop s → copy s = Ok s.
Proof. intros H. unfold copy. rewrite Slice_init_Ok by done. by destruct s. Qed.

Lemma getitem_Ok {A} (l : list A) i x : getitem l i = Ok x ↔ l !! i = Some x.
Proof. unfold getitem. destruct (l !! i); split; congruence. Qed.

Lemma getitem_lookup {A} (l : list A) i x : l !! i = Some x → getitem l i = Ok x.
Proof. apply getitem_Ok. Qed.

(** ** Tilings *)

Lemma tiles_app a l1 l2 b :
  tiles a (l1 ++ l2) b ↔ ∃ m, tiles a l1 m ∧ tiles m l2 b.
Proof.
  revert a. induction l1 as [|s l1 IH]; intros a; simpl.
  - split; [eauto | by intros (m & -> & H)].
  - rewrite IH. split.
    + intros (? & ? & m & ? & ?). by exists m.
    + intros (m & (? & ? & ?) & ?). repeat split; [done..|]. by exists m.
Qed.

Lemma tiles_le a l b : tiles a l b → a ≤ b.
Proof.
  revert a. induction l as [|s l IH]; simpl; intros a H; [lia|].
  destruct H as (<- & ? & H%IH). lia.
Qed.

Lemma tiles_cons_lt a s l b : tiles a (s :: l) b → a < b.
Proof. simpl. intros (<- & ? & H%tiles_le). lia. Qed.

Lemma tiles_elem a l b s :
  tiles a l b → s ∈ l → a ≤ start s ∧ start s < stop s ∧ stop s ≤ b.
Proof.
  revert a. induction l as [|x l IH]; simpl; intros a H Hin.
  - by apply elem_of_nil in Hin.
  - destruct H as (<- & Hx & H). apply elem_of_cons in Hin as [->|Hin].
    + apply tiles_le in H. lia.
    + destruct (IH _ H Hin). lia.
Qed.

Lemma tiles_lookup_lt a l b (i j : nat) x y :
  tiles a l b → l !! i = Some x → l !! j = Some y → (i < j)%nat →
  stop x ≤ start y.
Proof.
  revert a i j. induction l as [|s l IH]; intros a i j H Hi Hj Hlt; [done|].
  destruct H as (<- & Hs & H). destruct j as [|j]; [lia|]. simpl in Hj.
  destruct i as [|i]; simpl in Hi.
  - injection Hi as ->.
    destruct (tiles_elem _ _ _ y H) as [? _]; [|done].
    by eapply list_elem_of_lookup_2.
  - eapply IH; eauto. lia.
Qed.

Lemma tiles_sorted a l b : tiles a l b → sorted_by_start l.
Proof.
  intros H i j x y Hi Hj Hlt.
  pose proof (tiles_lookup_lt _ _ _ _ _ _ _ H Hi Hj Hlt).
  destruct (tiles_elem _ _ _ x H); [by eapply list_elem_of_lookup_2|]. lia.
Qed.

Lemma tiles_contiguous a l b : tiles a l b → contiguous l.
Proof.
  revert a. induction l as [|s l IH]; intros a H i x y Hi Hj; [done|].
  destruct H as (<- & Hs & H). destruct i as [|i]; simpl in *.
  - injection Hi as ->. destruct l as [|z l]; [done|].
    simpl in Hj. injection Hj as ->. by destruct H as (-> & _).
  - eapply IH; eauto.
Qed.

Lemma tiles_positive a l b : tiles a l b → positive_lengths l.
Proof. intros H s Hs. by destruct (tiles_elem _ _ _ _ H Hs) as (_ & ? & _). Qed.

Lemma tiles_last a l b s : tiles a l b → last l = Some s → stop s = b.
Proof.
  revert a. induction l as [|x l IH]; intros a H Hl; [done|].
  destruct H as (<- & Hx & H). destruct l as [|y l].
  - simpl in *. by injection Hl as ->.
  - eapply IH; eauto.
Qed.

(** The invariants of a table, as a tiling of its range. *)
Lemma tiling_tiles t :
  tiling t ↔ tiles (table_start t) (slices t) (table_stop t) ∧ slices t ≠ [].
Proof.
  split.
  - intros [Hs Hc (f & z & Hf & Hz & Hfs & Hzs) Hp]. split.
    2: { intros E. by rewrite E in Hf. }
    rewrite <- Hfs, <- Hzs. clear Hs Hfs Hzs.
    revert f Hf. induction (slices t) as [|s l IH]; intros f Hf; [done|].
    simpl in Hf. injection Hf as ->. simpl. split; [done|]. split.
    { apply Hp. by left. }
    destruct l as [|y l].
    + simpl in Hz. by injection Hz as ->.
    + rewrite (Hc 0%nat f y eq_refl eq_refl).
      apply IH; [|done| |done].
      * intros i u v Hu Hv. by apply (Hc (S i)).
      * intros u Hu. apply Hp. by right.
  - intros [H Hne]. split.
    + by eapply tiles_sorted.
    + by eapply tiles_contiguous.
    + unfold covers. destruct (slices t) as [|s l]; [done|].
      destruct (last (s :: l)) as [z|] eqn:Hz.
      2: { by apply last_None in Hz. }
      exists s, z. split; [done|]. split; [done|].
      split; [by destruct H | by eapply tiles_last].
    + by eapply tiles_positive.
Qed.

(** ** Lookup *)


Lemma find_from_None l k p :
  find_from l k p = None ↔ Forall (fun s => contains_addr s p = false) l.
Proof.
  revert k. induction l as [|s l IH]; intros k; simpl; [done|].
  destruct (contains_addr s p) eqn:E.
  - split; [done|]. intros H. apply Forall_cons in H as [? _]. congruence.
  - rewrite IH. split; [by constructor|]. by intros [_ ?]%Forall_cons.
Qed.

Lemma find_from_app l1 tg l2 k p :
  Forall (fun s => contains_addr s p = false) l1 →
  contains_addr tg p = true →
  find_from (l1 ++ tg :: l2) k p = Some (tg, (k + length l1)%nat).
Proof.
  revert k. induction l1 as [|s l1 IH]; intros k H Htg; simpl.
  - by rewrite Htg, Nat.add_0_r.
  - apply Forall_cons in H as [-> H]. rewrite IH by done. do 2 f_equal. lia.
Qed.

(** In a tiling every address of the range falls into one slice. *)
Lemma tiles_find a l b p :
  tiles a l b → a ≤ p < b →
  ∃ l1 tg l2, l = l1 ++ tg :: l2 ∧ contains_addr tg p = true ∧
    Forall (fun s => contains_addr s p = false) l1.
Proof.
  revert a. induction l as [|s l IH]; simpl; intros a H Hp; [lia|].
  destruct H as (<- & Hs & H).
  destruct (contains_addr s p) eqn:E.
  - by exists [], s, l.
  - destruct (IH _ H) as (l1 & tg & l2 & -> & ? & ?).
    { unfold contains_addr in E. revert E. zbool; simpl; intros; lia || done. }
    exists (s :: l1), tg, l2. repeat split; [done|by constructor].
Qed.

(** ** bisect *)

Lemma sorted_monotone l : sorted_by_start l → monotone l.
Proof.
  intros H i j a b Hi Hj Hle. destruct (decide (i = j)) as [->|].
  - rewrite Hi in Hj. injection Hj as ->. lia.
  - pose proof (H i j a b Hi Hj). lia.
Qed.

Lemma bisect_right_loop_spec fuel l x (lo hi : nat) :
  monotone l → (lo ≤ hi ≤ length l)%nat → (hi - lo < fuel)%nat →
  (∀ (j : nat) s, (j < lo)%nat → l !! j = Some s → start s ≤ start x) →
  (∀ (j : nat) s, (hi ≤ j)%nat → l !! j = Some s → start x < start s) →
  ∃ r, bisect_right_loop fuel l x lo hi = Ok r ∧ (lo ≤ r ≤ hi)%nat ∧
    (∀ (j : nat) s, (j < r)%nat → l !! j = Some s → start s ≤ start x) ∧
    (∀ (j : nat) s, (r ≤ j)%nat → l !! j = Some s → start x < start s).
Proof.
  intros Hm. revert lo hi.
  induction fuel as [|fuel IH]; intros lo hi Hb Hf Hlo Hhi; [lia|].
  cbn [bisect_right_loop bisect_left_loop].
  destruct (Nat.ltb_spec lo hi) as [Hlt|Hge].
  2: { exists lo. repeat split; [lia|lia|done|]. intros j s ?. apply Hhi. lia. }
  set (mid := ((lo + hi) / 2)%nat).
  assert (lo ≤ mid < hi)%nat as Hmid.
  { subst mid. split.
    - apply Nat.div_le_lower_bound; lia.
    - apply Nat.Div0.div_lt_upper_bound; lia. }
  destruct (lookup_lt_is_Some_2 l mid) as [am Ham]; [lia|].
  fold mid. rewrite (getitem_lookup _ _ _ Ham). cbn [mbind res_bind].
  unfold slice_lt, slice_gt. rewrite Z.gtb_ltb.
  destruct (Z.ltb_spec (start x) (start am)).
  - destruct (IH lo mid) as (r & ? & ? & ? & ?); [lia|lia|done| |].
    { intros j s Hj Hs. pose proof (Hm mid j am s Ham Hs Hj). lia. }
    exists r. repeat split; [done|lia|lia|done|done].
  - destruct (IH (S mid) hi) as (r & ? & ? & ? & ?); [lia|lia| |done|].
    { intros j s Hj Hs. pose proof (Hm j mid s am Hs Ham). lia. }
    exists r. repeat split; [done|lia|lia|done|done].
Qed.

Lemma bisect_left_loop_spec fuel l x (lo hi : nat) :
  monotone l → (lo ≤ hi ≤ length l)%nat → (hi - lo < fuel)%nat →
  (∀ (j : nat) s, (j < lo)%nat → l !! j = Some s → start s < start x) →
  (∀ (j : nat) s, (hi ≤ j)%nat → l !! j = Some s → start x ≤ start s) →
  ∃ r, bisect_left_loop fuel l x lo hi = Ok r ∧ (lo ≤ r ≤ hi)%nat ∧
    (∀ (j : nat) s, (j < r)%nat → l !! j = Some s → start s < start x) ∧
    (∀ (j : nat) s, (r ≤ j)%nat → l !! j = Some s → start x ≤ start s).
Proof.
  intros Hm. revert lo hi.
  induction fuel as [|fuel IH]; intros lo hi Hb Hf Hlo Hhi; [lia|].
  cbn [bisect_right_loop bisect_left_loop].
  destruct (Nat.ltb_spec lo hi) as [Hlt|Hge].
  2: { exists lo. repeat split; [lia|lia|done|]. intros j s ?. apply Hhi. lia. }
  set (mid := ((lo + hi) / 2)%nat).
  assert (lo ≤ mid < hi)%nat as Hmid.
  { subst mid. split.
    - apply Nat.div_le_lower_bound; lia.
    - apply Nat.Div0.div_lt_upper_bound; lia. }
  destruct (lookup_lt_is_Some_2 l mid) as [am Ham]; [lia|].
  fold mid. rewrite (getitem_lookup _ _ _ Ham). cbn [mbind res_bind].
  unfold slice_lt, slice_gt. rewrite Z.gtb_ltb.
  destruct (Z.ltb_spec (start am) (start x)).
  - destruct (IH (S mid) hi) as (r & ? & ? & ? & ?); [lia|lia| |done|].
    { intros j s Hj Hs. pose proof (Hm j mid s am Hs Ham). lia. }
    exists r. repeat split; [done|lia|lia|done|done].
  - destruct (IH lo mid) as (r & ? & ? & ? & ?); [lia|lia|done| |].
    { intros j s Hj Hs. pose proof (Hm mid j am s Ham Hs Hj). lia. }
    exists r. repeat split; [done|lia|lia|done|done].
Qed.

(** On a tiling, [bisect] returns the index after the slice that contains
    the start of [x]. *)
Lemma bisect_tiles a l1 tg l2 b x :
  tiles a (l1 ++ tg :: l2) b → contains_addr tg (start x) = true →
  bisect (l1 ++ tg :: l2) x = Ok (S (length l1)).
Proof.
  intros Ht Hc. set (l := l1 ++ tg :: l2) in *.
  assert (monotone l) as Hm by (eapply sorted_monotone, tiles_sorted; eauto).
  destruct (bisect_right_loop_spec (S (length l)) l x 0 (length l))
    as (r & Hr & Hrb & Hbelow & Habove); [done|lia|lia|lia| |].
  { intros j s Hj Hs. apply lookup_lt_Some in Hs. lia. }
  unfold bisect. rewrite Hr. f_equal.
  assert (l !! length l1 = Some tg) as Htg by apply list_lookup_middle, eq_refl.
  unfold contains_addr in Hc. apply andb_prop in Hc as [H1 H2].
  apply Z.leb_le in H1. apply Z.ltb_lt in H2.
  destruct (decide (r ≤ length l1)%nat) as [Hle|Hgt].
  { pose proof (Habove _ _ Hle Htg). lia. }
  destruct (decide (r = S (length l1))) as [|Hne]; [done|].
  destruct l2 as [|y l2].
  - subst l. rewrite length_app in Hrb. simpl in Hrb. lia.
  - assert (l !! S (length l1) = Some y) as Hy.
    { subst l. rewrite lookup_app_r by lia.
      by replace (S (length l1) - length l1)%nat with 1%nat by lia. }
    assert (S (length l1) < r)%nat as Hlt by lia.
    pose proof (Hbelow _ _ Hlt Hy).
    apply tiles_app in Ht as (m & _ & Ht). simpl in Ht.
    destruct Ht as (_ & _ & Hy' & _). lia.
Qed.

(** ** Python lists *)

Lemma py_index_nat {A} (l : list A) (i : nat) :
  (i < length l)%nat → py_index l (Z.of_nat i) = Some i.
Proof.
  intros H. unfold py_index.
  destruct (Z.leb_spec 0 (Z.of_nat i)); [|lia].
  destruct (Z.ltb_spec (Z.of_nat i) (Z.of_nat (length l))); [|lia].
  simpl. by rewrite Nat2Z.id.
Qed.

Lemma py_insert_nat {A} (l : list A) (i : nat) x :
  (i ≤ length l)%nat → py_insert l (Z.of_nat i) x = list_insert_at l i x.
Proof.
  intros H. unfold py_insert.
  destruct (Z.ltb_spec (Z.of_nat i) 0); [lia|].
  rewrite Z.min_l by lia. by rewrite Nat2Z.id.
Qed.

Lemma list_insert_at_app {A} (l1 l2 : list A) x :
  list_insert_at (l1 ++ l2) (length l1) x = l1 ++ x :: l2.
Proof.
  unfold list_insert_at. by rewrite take_app_length, drop_app_length.
Qed.

Lemma list_insert_at_app_r {A} (l1 l2 : list A) (k : nat) x :
  list_insert_at (l1 ++ l2) (length l1 + k) x = l1 ++ list_insert_at l2 k x.
Proof.
  unfold list_insert_at.
  rewrite take_app_add', drop_app_add' by done. by rewrite <- app_assoc.
Qed.

Lemma insert_app_r' {A} (l1 l2 : list A) (k : nat) x :
  <[(length l1 + k)%nat := x]> (l1 ++ l2) = l1 ++ <[k := x]> l2.
Proof. induction l1; simpl; [done|]. by f_equal. Qed.

Lemma insert_middle {A} (l1 l2 : list A) x y :
  <[length l1 := x]> (l1 ++ y :: l2) = l1 ++ x :: l2.
Proof. induction l1; simpl; [done|]. by f_equal. Qed.

Lemma delete_app_r' {A} (l1 l2 : list A) (k : nat) :
  delete (length l1 + k)%nat (l1 ++ l2) = l1 ++ delete k l2.
Proof. induction l1; simpl; [done|]. by f_equal. Qed.

Lemma lookup_app_r' {A} (l1 l2 : list A) (k : nat) :
  (l1 ++ l2) !! (length l1 + k)%nat = l2 !! k.
Proof. induction l1; simpl; done. Qed.

Lemma getitem_app_r {A} (l1 l2 : list A) (k : nat) :
  getitem (l1 ++ l2) (length l1 + k) = getitem l2 k.
Proof. unfold getitem. by rewrite lookup_app_r'. Qed.

(** ** add *)

Lemma len_Ok s : start s ≤ stop s → len s = Ok (stop s - start s).
Proof. intros H. unfold len. zbool. reflexivity. Qed.

(** [add] on a tiling whose slice [tg], after [l1], contains the start of
    [r]. *)
Lemma add_tiles_Ok t l1 tg l2 r :
  slices t = l1 ++ tg :: l2 →
  tiles (table_start t) (slices t) (table_stop t) →
  start r < stop r → table_contains t r = true →
  contains_addr tg (start r) = true →
  has_name tg = false → contains_slice tg r = true →
  add t r =
    Ok (with_slices t (l1 ++ left_gap tg r ++ [r] ++ right_gap tg r ++ l2)).
Proof.
  intros El Ht Hr Hin Hc Hn Hcs. unfold add.
  rewrite len_Ok by lia. cbn [mbind res_bind].
  rewrite (assert_true (_ >? 0)) by (apply Z.gtb_lt; lia).
  rewrite Hin. cbn [mbind res_bind assert].
  rewrite El in *. erewrite bisect_tiles by eauto. cbn [mbind res_bind].
  replace (Z.of_nat (S (length l1)) - 1) with (Z.of_nat (length l1)) by lia.
  assert (length l1 < length (l1 ++ tg :: l2))%nat as Hlen.
  { rewrite length_app. simpl. lia. }
  unfold py_getitem. rewrite py_index_nat by done.
  rewrite (getitem_lookup _ _ tg) by apply list_lookup_middle, eq_refl.
  cbn [mbind res_bind]. rewrite Hn, Hcs. cbn [negb andb assert mbind res_bind].
  unfold contains_slice in Hcs. apply andb_prop in Hcs as [Hs1 Hs2].
  apply Z.leb_le in Hs1. rewrite Z.geb_leb in Hs2. apply Z.leb_le in Hs2.
  unfold left_gap, right_gap, Slice_gap.
  rewrite !Z.gtb_ltb.
  destruct (Z.ltb_spec (start tg) (start r)) as [Hl|Hl].
  - rewrite (Slice_init_Ok (start tg) (start r)) by lia. cbn [mbind res_bind].
    rewrite py_insert_nat by lia. rewrite list_insert_at_app.
    replace (Z.of_nat (length l1) + 1) with (Z.of_nat (S (length l1))) by lia.
    unfold py_setitem. rewrite py_index_nat.
    2: { rewrite length_app. simpl. lia. }
    cbn [mbind res_bind].
    replace (S (length l1)) with (length l1 + 1)%nat by lia.
    rewrite insert_app_r'. cbn [list_insert].
    destruct (Z.ltb_spec (stop r) (stop tg)) as [Hrg|Hrg].
    + rewrite (Slice_init_Ok (stop r) (stop tg)) by lia. cbn [mbind res_bind].
      replace (Z.of_nat (length l1 + 1) + 1)
        with (Z.of_nat (length l1 + 2)) by lia.
      rewrite py_insert_nat.
      2: { rewrite length_app. simpl. lia. }
      rewrite list_insert_at_app_r. reflexivity.
    + reflexivity.
  - cbn [mbind res_bind].
    unfold py_setitem. rewrite py_index_nat by done. cbn [mbind res_bind].
    rewrite insert_middle.
    destruct (Z.ltb_spec (stop r) (stop tg)) as [Hrg|Hrg].
    + rewrite (Slice_init_Ok (stop r) (stop tg)) by lia. cbn [mbind res_bind].
      replace (Z.of_nat (length l1) + 1)
        with (Z.of_nat (length l1 + 1)) by lia.
      rewrite py_insert_nat.
      2: { rewrite length_app. simpl. lia. }
      rewrite list_insert_at_app_r. reflexivity.
    + reflexivity.
Qed.

Lemma add_tiles_Err t l1 tg l2 r :
  slices t = l1 ++ tg :: l2 →
  tiles (table_start t) (slices t) (table_stop t) →
  start r < stop r → table_contains t r = true →
  contains_addr tg (start r) = true →
  has_name tg || negb (contains_slice tg r) = true →
  add t r = Err AssertionError.
Proof.
  intros El Ht Hr Hin Hc Hn. unfold add.
  rewrite len_Ok by lia. cbn [mbind res_bind].
  rewrite (assert_true (_ >? 0)) by (apply Z.gtb_lt; lia).
  rewrite Hin. cbn [mbind res_bind assert].
  rewrite El in *. erewrite bisect_tiles by eauto. cbn [mbind res_bind].
  replace (Z.of_nat (S (length l1)) - 1) with (Z.of_nat (length l1)) by lia.
  unfold py_getitem. rewrite py_index_nat.
  2: { rewrite length_app. simpl. lia. }
  rewrite (getitem_lookup _ _ tg) by apply list_lookup_middle, eq_refl.
  cbn [mbind res_bind].
  destruct (has_name tg); [done|]. simpl in Hn.
  apply negb_true_iff in Hn. by rewrite Hn.
Qed.

(** ** Checking the invariants *)

Lemma tilesb_tiles a l b : tilesb a l b = true ↔ tiles a l b.
Proof.
  revert a. induction l as [|s l IH]; intros a; simpl.
  - apply Z.eqb_eq.
  - rewrite !andb_true_iff, Z.eqb_eq, Z.ltb_lt, IH. tauto.
Qed.

Lemma has_name_false s : has_name s = false ↔ name s = None.
Proof. unfold has_name. destruct (name s); split; congruence. Qed.

Lemma has_name_true s : has_name s = true ↔ name s ≠ None.
Proof. unfold has_name. destruct (name s); split; congruence. Qed.

Lemma gaps_apart_spec l : gaps_apart l = true ↔ no_adjacent_gaps l.
Proof.
  induction l as [|a l IH]; simpl.
  - split; [|done]. intros _ i a b Hi. done.
  - destruct l as [|b l].
    + split; [|done]. intros _ [|i] x y Hi Hj; done.
    + rewrite andb_true_iff, IH, orb_true_iff, !has_name_true. split.
      * intros [Hab H] [|i] x y Hi Hj; simpl in *.
        -- injection Hi as <-. injection Hj as <-. tauto.
        -- by apply (H i).
      * intros H. split.
        -- pose proof (H 0%nat a b eq_refl eq_refl) as Hab.
           destruct (name a), (name b); [by left..|by right|].
           by destruct Hab.
        -- intros i x y Hi Hj. by apply (H (S i)).
Qed.

Lemma partition_invb_sound t : partition_invb t = true → partition_inv t.
Proof.
  unfold partition_invb. rewrite !andb_true_iff, negb_true_iff.
  intros [[H1 H2] H3]. split.
  - apply tiling_tiles. split; [by apply tilesb_tiles|].
    by apply bool_decide_eq_false in H2.
  - by apply gaps_apart_spec.
Qed.



(** ** C2: what [add] does *)

Lemma tiles_decompose t p :
  tiling t → table_start t ≤ p < table_stop t →
  ∃ l1 tg l2, slices t = l1 ++ tg :: l2 ∧ contains_addr tg p = true ∧
    find t p = Some (tg, length l1).
Proof.
  intros [Ht _]%tiling_tiles Hp.
  destruct (tiles_find _ _ _ _ Ht Hp) as (l1 & tg & l2 & E & Hc & Hl1).
  exists l1, tg, l2. repeat split; [done..|].
  unfold find. rewrite E. by rewrite find_from_app.
Qed.

Lemma add_splice_middle l1 tg l2 r :
  add_splice (l1 ++ tg :: l2) (length l1) tg r
  = l1 ++ left_gap tg r ++ [r] ++ right_gap tg r ++ l2.
Proof.
  unfold add_splice. rewrite take_app_length. do 4 f_equal.
  induction l1; simpl; [by rewrite drop_0|done].
Qed.

Lemma add_tiling t r :
  tiling t → start r < stop r →
  table_start t ≤ start r → stop r ≤ table_stop t →
  ∃ target i,
    find t (start r) = Some (target, i) ∧
    slices t !! i = Some target ∧
    contains_addr target (start r) = true ∧
    if has_name target || negb (contains_slice target r)
    then add t r = Err AssertionError
    else add t r = Ok (with_slices t (add_splice (slices t) i target r)).
Proof.
  intros Ht Hr H1 H2.
  destruct (tiles_decompose t (start r)) as (l1 & tg & l2 & E & Hc & Hf);
    [done|lia|].
  exists tg, (length l1). split; [done|]. split.
  { rewrite E. by apply list_lookup_middle. }
  split; [done|].
  apply tiling_tiles in Ht as [Ht _].
  assert (table_contains t r = true) as Hin.
  { unfold table_contains. rewrite Z.geb_leb. apply andb_true_intro.
    split; by apply Z.leb_le. }
  destruct (has_name tg || negb (contains_slice tg r)) eqn:Hn.
  - by eapply add_tiles_Err.
  - apply orb_false_elim in Hn as [Hn Hcs]. apply negb_false_iff in Hcs.
    rewrite E, add_splice_middle. by eapply add_tiles_Ok.
Qed.



(** ** Removal keeps the tiling *)

Lemma lookup_split {A} (l : list A) (i : nat) x :
  l !! i = Some x → ∃ l1 l2, l = l1 ++ x :: l2 ∧ i = length l1.
Proof.
  intros H. apply list_elem_of_split_length in H as (l1 & l2 & -> & ->).
  by exists l1, l2.
Qed.

Lemma lookup_split2 {A} (l : list A) (i : nat) x y :
  l !! i = Some x → l !! S i = Some y →
  ∃ l1 l2, l = l1 ++ x :: y :: l2 ∧ i = length l1.
Proof.
  intros Hx Hy. destruct (lookup_split _ _ _ Hx) as (l1 & l2 & -> & ->).
  exists l1. replace (S (length l1)) with (length l1 + 1)%nat in Hy by lia.
  rewrite lookup_app_r' in Hy. destruct l2 as [|z l2]; [done|].
  simpl in Hy. injection Hy as ->. by exists l2.
Qed.

Lemma tiles_merge_stop a l1 x y l2 b :
  tiles a (l1 ++ x :: y :: l2) b →
  tiles a (l1 ++ set_stop x (stop y) :: l2) b.
Proof.
  rewrite !tiles_app. intros (m & H1 & H2). exists m. split; [done|].
  simpl in *. destruct H2 as (? & ? & ? & ? & ?). repeat split; [done|lia|done].
Qed.

Lemma tiles_merge_start a l1 x y l2 b :
  tiles a (l1 ++ x :: y :: l2) b →
  tiles a (l1 ++ set_start y (start x) :: l2) b.
Proof.
  rewrite !tiles_app. intros (m & H1 & H2). exists m. split; [done|].
  simpl in *. destruct H2 as (? & ? & ? & ? & ?). repeat split; [done|lia|done].
Qed.

Lemma merge_left_tiles a l b idx l' idx' :
  tiles a l b → __merge_left l idx = Ok (l', idx') → tiles a l' b.
Proof.
  intros Ht H. unfold __merge_left in H.
  apply bind_Ok in H as (cur & Hcur & H). apply getitem_Ok in Hcur.
  apply bind_Ok in H as ([] & _ & H).
  destruct (Nat.ltb_spec 0 idx) as [Hpos|]; [|by injection H as <- <-].
  apply bind_Ok in H as (prev & Hprev & H). apply getitem_Ok in Hprev.
  destruct (negb (has_name prev)); [|by injection H as <- <-].
  injection H as <- <-.
  replace idx with (S (idx - 1)) in Hcur by lia.
  destruct (lookup_split2 _ _ _ _ Hprev Hcur) as (l1 & l2 & -> & E).
  rewrite E, insert_middle.
  replace idx with (length l1 + 1)%nat by lia.
  rewrite delete_app_r'. simpl. by apply tiles_merge_stop.
Qed.

Lemma merge_right_tiles a l b idx l' idx' :
  tiles a l b → __merge_right l idx = Ok (l', idx') → tiles a l' b.
Proof.
  intros Ht H. unfold __merge_right in H.
  apply bind_Ok in H as (cur & Hcur & H). apply getitem_Ok in Hcur.
  apply bind_Ok in H as ([] & _ & H).
  destruct (idx + 1 <? length l)%nat; [|by injection H as <- <-].
  apply bind_Ok in H as (next & Hnext & H). apply getitem_Ok in Hnext.
  destruct (negb (has_name next)); [|by injection H as <- <-].
  injection H as <- <-.
  replace (idx + 1)%nat with (S idx) in * by lia.
  destruct (lookup_split2 _ _ _ _ Hcur Hnext) as (l1 & l2 & -> & ->).
  replace (S (length l1)) with (length l1 + 1)%nat by lia.
  rewrite insert_app_r'. simpl.
  replace (length l1) with (length l1 + 0)%nat at 1 by lia.
  rewrite delete_app_r'. simpl. by apply tiles_merge_start.
Qed.

Lemma copy_inv s c : copy s = Ok c → c = s ∧ start s ≤ stop s.
Proof.
  unfold copy, Slice_init. destruct (Z.leb_spec (start s) (stop s)); [|done].
  simpl. intros [= <-]. by destruct s.
Qed.




(** ** C1: the invariants under [add] and [remove] *)

Lemma tiling_bounds t : tiling t → table_start t < table_stop t.
Proof.
  intros [Ht Hne]%tiling_tiles. destruct (slices t); [done|].
  by eapply tiles_cons_lt.
Qed.

Lemma tiles_nonempty a l b : tiles a l b → a < b → l ≠ [].
Proof. intros H Hab ->. simpl in H. lia. Qed.


Lemma add_Ok_inv t r t' :
  add t r = Ok t' →
  start r < stop r ∧ table_start t ≤ start r ∧ stop r ≤ table_stop t.
Proof.
  unfold add, len. intros H.
  apply bind_Ok in H as (n & Hn & H).
  apply bind_Ok in Hn as ([] & H0%assert_Ok & [= <-]).
  apply bind_Ok in H as ([] & H1%assert_Ok & H).
  apply bind_Ok in H as ([] & H2%assert_Ok & _).
  apply Z.gtb_lt in H1. unfold table_contains in H2.
  apply andb_prop in H2 as [H2 H3]. apply Z.leb_le in H2.
  rewrite Z.geb_leb in H3. apply Z.leb_le in H3. lia.
Qed.

Lemma left_gap_cases tg r :
  (start tg < start r ∧
   left_gap tg r = [mkSlice (start tg) (start r) None None ∅]) ∨
  (start r ≤ start tg ∧ left_gap tg r = []).
Proof.
  unfold left_gap. rewrite Z.gtb_ltb.
  destruct (Z.ltb_spec (start tg) (start r)); [left|right]; done.
Qed.

Lemma right_gap_cases tg r :
  (stop r < stop tg ∧
   right_gap tg r = [mkSlice (stop r) (stop tg) None None ∅]) ∨
  (stop tg ≤ stop r ∧ right_gap tg r = []).
Proof.
  unfold right_gap.
  destruct (Z.ltb_spec (stop r) (stop tg)); [left|right]; done.
Qed.

(** The pieces that replace the target tile the range of the target. *)
Lemma tiles_splice tg r :
  start r < stop r → contains_slice tg r = true →
  tiles (start tg) (left_gap tg r ++ [r] ++ right_gap tg r) (stop tg).
Proof.
  intros Hr Hc. unfold contains_slice in Hc. apply andb_prop in Hc as [H1 H2].
  apply Z.leb_le in H1. rewrite Z.geb_leb in H2. apply Z.leb_le in H2.
  destruct (left_gap_cases tg r) as [[? ->]|[? ->]];
    destruct (right_gap_cases tg r) as [[? ->]|[? ->]];
    simpl; repeat split; lia.
Qed.

(** A successful [add], on a tiling, in terms of the decomposition of the
    list around the target. *)
Lemma add_Ok_splice t r t' :
  tiling t → add t r = Ok t' →
  ∃ l1 tg l2,
    slices t = l1 ++ tg :: l2 ∧ find t (start r) = Some (tg, length l1) ∧
    contains_addr tg (start r) = true ∧
    has_name tg = false ∧ contains_slice tg r = true ∧
    t' = with_slices t (l1 ++ left_gap tg r ++ [r] ++ right_gap tg r ++ l2).
Proof.
  intros Ht H. destruct (add_Ok_inv _ _ _ H) as (Hr & H1 & H2).
  destruct (tiles_decompose t (start r)) as (l1 & tg & l2 & E & Hc & Hf);
    [done|lia|].
  exists l1, tg, l2.
  destruct (add_tiling t r Ht Hr H1 H2) as (tg' & i & Hf' & _ & _ & Hadd).
  rewrite Hf in Hf'. injection Hf' as <- <-.
  destruct (has_name tg || negb (contains_slice tg r)) eqn:Hn.
  { rewrite Hadd in H. discriminate. }
  apply orb_false_elim in Hn as [Hn Hcs]. apply negb_false_iff in Hcs.
  rewrite Hadd in H. injection H as <-.
  by rewrite E, add_splice_middle.
Qed.

Lemma add_keeps_tiling t r t' :
  tiling t → add t r = Ok t' →
  tiling t' ∧ table_start t' = table_start t ∧ table_stop t' = table_stop t.
Proof.
  intros Ht H. pose proof (tiling_bounds _ Ht) as Hb.
  destruct (add_Ok_inv _ _ _ H) as (Hr & _ & _).
  destruct (add_Ok_splice _ _ _ Ht H) as (l1 & tg & l2 & E & _ & _ & _ & Hc & ->).
  split; [|done]. apply tiling_tiles in Ht as [Ht _]. apply tiling_tiles.
  simpl. rewrite E in Ht.
  apply tiles_app in Ht as (m & Hl1 & <- & _ & Hl2).
  split; [|by destruct l1, (left_gap tg r)].
  apply tiles_app. exists (start tg). split; [done|].
  change (r :: right_gap tg r ++ l2) with ([r] ++ right_gap tg r ++ l2).
  rewrite !app_assoc. apply tiles_app. exists (stop tg). split; [|done].
  rewrite <- app_assoc. by apply tiles_splice.
Qed.










(** ** C4: removing a range twice *)

(** On a fresh table over [0 .. 10), [remove(2, 5)] splits the gap into
    three unnamed slices, and a second [remove(2, 5)] merges the three into
    one again: removing twice does not give the table that removing once
    gives, not even for [Slice.__eq__]. *)
Theorem remove_twice_differs :
  ∃ t0 t1 t2,
    SliceTable_init 0 10 = Ok t0 ∧
    remove t0 2 5 = Ok t1 ∧ remove t1 2 5 = Ok t2 ∧
    slices t1 = [mkSlice 0 2 None None ∅; mkSlice 2 5 None None ∅;
                 mkSlice 5 10 None None ∅] ∧
    slices t2 = [mkSlice 0 10 None None ∅] ∧
    ¬ slices_eq (slices t2) (slices t1).
Proof.
  eexists _, _, _.
  split; [vm_compute; reflexivity|]. split; [vm_compute; reflexivity|].
  split; [vm_compute; reflexivity|]. split; [vm_compute; reflexivity|].
  split; [vm_compute; reflexivity|].
  intros H. apply Forall2_length in H. vm_compute in H. discriminate.
Qed.

(** The same on a table that satisfies all the invariants: with a named
    slice between two gaps, the first removal merges the three slices and
    the second one splits the merged gap. *)
Lemma remove_twice_differs_named :
  let t := mkTable [mkSlice 0 3 None None ∅;
                    mkSlice 3 6 (Some "foo"%string) None ∅;
                    mkSlice 6 10 None None ∅] 0 10 in
  partition_inv t ∧
  ∃ t1 t2,
    remove t 3 6 = Ok t1 ∧ remove t1 3 6 = Ok t2 ∧
    slices t1 = [mkSlice 0 10 None None ∅] ∧
    slices t2 = [mkSlice 0 3 None None ∅; mkSlice 3 6 None None ∅;
                 mkSlice 6 10 None None ∅].
Proof.
  split; [apply partition_invb_sound; vm_compute; reflexivity|].
  eexists _, _. repeat split; vm_compute; reflexivity.
Qed.

(** After [remove(2, 5)] on the fresh table, the free range [1 .. 4) can
    no longer be added, although no named slice overlaps it. *)
Lemma add_after_split_gap_fails :
  ∃ t0 t1,
    SliceTable_init 0 10 = Ok t0 ∧ remove t0 2 5 = Ok t1 ∧
    is_ok (add t0 (mkSlice 1 4 (Some "foo"%string) None ∅)) = true ∧
    add t1 (mkSlice 1 4 (Some "foo"%string) None ∅) = Err AssertionError.
Proof. eexists _, _. repeat split; vm_compute; reflexivity. Qed.

(** ** C8: [find_parent] *)

(** In a table with the slices [0 .. 10) and [10 .. 20), the slice
    [3 .. 5) lies within the first one, yet [find_parent] returns the
    second one, which does not contain it; in a fresh table [find_parent]
    finds no parent for a slice that lies inside the gap. *)
Theorem find_parent_misses_parent :
  let a := mkSlice 0 10 (Some "foo"%string) None ∅ in
  let b := mkSlice 10 20 (Some "bar"%string) None ∅ in
  let t := mkTable [a; b] 0 20 in
  let r := mkSlice 3 5 None None ∅ in
  partition_inv t ∧ contains_slice a r = true ∧
  find_parent t r = Ok (Some b) ∧ contains_slice b r = false ∧
  find_parent (mkTable [mkSlice 0 10 None None ∅] 0 10) (mkSlice 5 6 None None ∅)
  = Ok None.
Proof.
  split; [apply partition_invb_sound; vm_compute; reflexivity|].
  repeat split; vm_compute; reflexivity.
Qed.

(** On a tiling, [find_parent] returns the first slice that starts at or
    after the start of [r], if any. *)
Lemma find_parent_spec t r :
  tiling t →
  ∃ i, find_parent t r = Ok (slices t !! i) ∧
    (∀ (j : nat) s, (j < i)%nat → slices t !! j = Some s → start s < start r) ∧
    (∀ (j : nat) s, (i ≤ j)%nat → slices t !! j = Some s → start r ≤ start s).
Proof.
  intros [Ht _]%tiling_tiles.
  assert (monotone (slices t)) as Hm
    by (eapply sorted_monotone, tiles_sorted; eauto).
  destruct (bisect_left_loop_spec (S (length (slices t))) (slices t) r
              0 (length (slices t)))
    as (i & Hi & Hb & Hlo & Hhi); [done|lia|lia|lia| |].
  { intros j s Hj Hs. apply lookup_lt_Some in Hs. lia. }
  exists i. split; [|done].
  unfold find_parent, bisect_left. rewrite Hi. cbn [mbind res_bind].
  destruct (Nat.ltb_spec i (length (slices t))) as [Hlt|Hge].
  - destruct (lookup_lt_is_Some_2 _ _ Hlt) as [x Hx].
    by rewrite (getitem_lookup _ _ _ Hx), Hx.
  - by rewrite (lookup_ge_None_2 _ _ Hge).
Qed.

(** So whenever [r] starts strictly inside a slice of the table,
    [find_parent] does not return a slice that contains [r]. *)
Lemma find_parent_never_contains t r tg :
  tiling t → tg ∈ slices t → start tg < start r < stop tg →
  ∃ res, find_parent t r = Ok res ∧
    ∀ x, res = Some x → contains_slice x r = false.
Proof.
  intros Ht Htg Hr. destruct (find_parent_spec t r Ht) as (i & Hf & Hlo & Hhi).
  eexists. split; [done|]. intros x Hx.
  apply list_elem_of_lookup in Htg as [k Hk].
  apply tiling_tiles in Ht as [Ht _].
  assert (k < i)%nat as Hki.
  { destruct (decide (k < i)%nat); [done|].
    pose proof (Hhi k tg ltac:(lia) Hk). lia. }
  pose proof (Hhi i x ltac:(lia) Hx).
  pose proof (tiles_lookup_lt _ _ _ _ _ _ _ Ht Hk Hx Hki).
  unfold contains_slice. apply andb_false_intro1. apply Z.leb_gt. lia.
Qed.

(** ** C9: [sum_named_slices] *)

(** C9.  On every table [sum_named_slices] raises an [AttributeError]:
    a table has no attribute [segs].  It never returns a number, so it
    never returns what the loop computes on the slices of the table. *)
Theorem sum_named_slices_fails t :
  sum_named_slices t = Err AttributeError ∧
  (∀ n, sum_named_slices t ≠ Ok n) ∧
  (∀ n, sum_named (slices t) 0 = Ok n → sum_named_slices t ≠ Ok n).
Proof.
  assert (sum_named_slices t = Err AttributeError) as H by reflexivity.
  split; [done|]. split; intros; rewrite H; discriminate.
Qed.

(** ** Removal acts locally

    The slices to the left of the one before the target play no part in
    a removal: [pre] is a prefix that stays in place. *)

Lemma merge_left_frame pre w k :
  (0 < k)%nat →
  __merge_left (pre ++ w) (length pre + k) = shift_res pre (__merge_left w k).
Proof.
  intros Hk. unfold __merge_left, shift_res. rewrite getitem_app_r.
  destruct (getitem w k) as [cur|]; [|done]. cbn [mbind res_bind].
  destruct (assert (negb (has_name cur))); [|done]. cbn [mbind res_bind].
  destruct (Nat.ltb_spec 0 (length pre + k)); [|lia].
  destruct (Nat.ltb_spec 0 k); [|lia].
  replace (length pre + k - 1)%nat with (length pre + (k - 1))%nat by lia.
  rewrite getitem_app_r.
  destruct (getitem w (k - 1)) as [prev|]; [|done]. cbn [mbind res_bind].
  destruct (negb (has_name prev)); [|done].
  rewrite insert_app_r'.
  by rewrite delete_app_r'.
Qed.

Lemma merge_right_frame pre w k :
  __merge_right (pre ++ w) (length pre + k)
  = shift_res pre (__merge_right w k).
Proof.
  unfold __merge_right, shift_res. rewrite getitem_app_r.
  destruct (getitem w k) as [cur|]; [|done]. cbn [mbind res_bind].
  destruct (assert (negb (has_name cur))); [|done]. cbn [mbind res_bind].
  rewrite length_app.
  replace (length pre + k + 1 <? length pre + length w)%nat
    with (k + 1 <? length w)%nat.
  2: { destruct (Nat.ltb_spec (k + 1) (length w));
       destruct (Nat.ltb_spec (length pre + k + 1) (length pre + length w));
       done || lia. }
  destruct (k + 1 <? length w)%nat; [|done].
  replace (length pre + k + 1)%nat with (length pre + (k + 1))%nat by lia.
  rewrite getitem_app_r.
  destruct (getitem w (k + 1)) as [next|]; [|done]. cbn [mbind res_bind].
  destruct (negb (has_name next)); [|done].
  rewrite insert_app_r'. by rewrite delete_app_r'.
Qed.

Lemma shift_res_bind pre m (f : list Slice * nat → res (list Slice * nat)) g :
  (∀ l i, f (pre ++ l, (length pre + i)%nat) = shift_res pre (g (l, i))) →
  shift_res pre m ≫= f = shift_res pre (m ≫= g).
Proof.
  intros H. destruct m as [[l i]|]; [|done]. simpl. apply H.
Qed.

Lemma remove_slice_frame pre w k ns ne :
  (0 < k)%nat →
  __remove_slice (pre ++ w) (length pre + k) ns ne
  = shift_res pre (__remove_slice w k ns ne).
Proof.
  intros Hk. unfold __remove_slice. rewrite getitem_app_r.
  destruct (getitem w k) as [tg|]; [|done]. cbn [mbind res_bind].
  destruct (assert (ns <? ne)); [|done]. cbn [mbind res_bind].
  destruct (assert (start tg <=? ns)); [|done]. cbn [mbind res_bind].
  destruct (assert (stop tg >=? ne)); [|done]. cbn [mbind res_bind].
  replace (length pre + k + 1)%nat with (length pre + (k + 1))%nat by lia.
  replace (length pre + k + 2)%nat with (length pre + (k + 2))%nat by lia.
  destruct (copy tg) as [c|]; [|by repeat case_match].
  destruct ((start tg =? ns) && (stop tg =? ne)); cbn [mbind res_bind].
  { rewrite insert_app_r', merge_left_frame by done.
    apply shift_res_bind. intros l i. apply merge_right_frame. }
  destruct (start tg =? ns); cbn [mbind res_bind].
  { rewrite insert_app_r', list_insert_at_app_r. by apply merge_left_frame. }
  destruct (stop tg =? ne); cbn [mbind res_bind].
  { rewrite insert_app_r', list_insert_at_app_r. apply merge_right_frame. }
  by rewrite insert_app_r', !list_insert_at_app_r.
Qed.

Lemma remove_loop_frame fuel pre w k a b :
  (0 < k)%nat →
  remove_loop fuel (pre ++ w) (length pre + k) a b
  = (l ← remove_loop fuel w k a b; Ok (pre ++ l)).
Proof.
  revert w k. induction fuel as [|fuel IH]; intros w k Hk; [done|].
  cbn [remove_loop]. rewrite length_app.
  replace (length pre + k <? length pre + length w)%nat
    with (k <? length w)%nat.
  2: { destruct (Nat.ltb_spec k (length w));
       destruct (Nat.ltb_spec (length pre + k) (length pre + length w));
       done || lia. }
  destruct (k <? length w)%nat; [|done].
  rewrite getitem_app_r.
  destruct (getitem w k) as [tg|]; [|done]. cbn [mbind res_bind].
  destruct (start tg <? b); [|done].
  rewrite remove_slice_frame by done.
  destruct (__remove_slice w k _ _) as [[l i]|]; [|done].
  cbn [shift_res mbind res_bind].
  replace (length pre + i + 1)%nat with (length pre + (i + 1))%nat by lia.
  apply IH. lia.
Qed.

(** ** C3: [add] then [remove] *)

Lemma gaps_apart_neighbours l1 tg l2 :
  no_adjacent_gaps (l1 ++ tg :: l2) → has_name tg = false →
  (l1 = [] ∨ ∃ l1' p, l1 = l1' ++ [p] ∧ has_name p = true) ∧
  (l2 = [] ∨ ∃ n l2', l2 = n :: l2' ∧ has_name n = true).
Proof.
  intros Hg Hn. apply has_name_false in Hn. split.
  - destruct l1 as [|x l1 _] using rev_ind; [by left|]. right.
    exists l1, x. split; [done|]. apply has_name_true. intros Hx.
    apply (Hg (length l1) x tg).
    + rewrite <- app_assoc. by apply list_lookup_middle.
    + rewrite <- app_assoc. simpl.
      replace (S (length l1)) with (length l1 + 1)%nat by lia.
      by rewrite lookup_app_r'.
    + done.
  - destruct l2 as [|n l2]; [by left|]. right.
    exists n, l2. split; [done|]. apply has_name_true. intros Hx.
    apply (Hg (length l1) tg n).
    + by apply list_lookup_middle.
    + replace (S (length l1)) with (length l1 + 1)%nat by lia.
      by rewrite lookup_app_r'.
    + done.
Qed.

(** What the two merges do, by the neighbour of the gap. *)

Lemma getitem_middle {A} (l1 l2 : list A) x :
  getitem (l1 ++ x :: l2) (length l1) = Ok x.
Proof. apply getitem_lookup, list_lookup_middle. done. Qed.

Lemma getitem_middle_S {A} (l1 l2 : list A) x y :
  getitem (l1 ++ x :: y :: l2) (S (length l1)) = Ok y.
Proof.
  replace (S (length l1)) with (length l1 + 1)%nat by lia.
  by rewrite getitem_app_r.
Qed.

Lemma merge_left_merge l1 prev cur l2 :
  has_name prev = false → has_name cur = false →
  __merge_left (l1 ++ prev :: cur :: l2) (S (length l1))
  = Ok (l1 ++ set_stop prev (stop cur) :: l2, length l1).
Proof.
  intros Hp Hc. unfold __merge_left.
  rewrite getitem_middle_S. cbn [mbind res_bind]. rewrite Hc. cbn [negb assert mbind res_bind Nat.ltb Nat.leb].
  replace (S (length l1) - 1)%nat with (length l1) by lia.
  rewrite getitem_middle. cbn [mbind res_bind]. rewrite Hp. cbn [negb mbind res_bind].
  rewrite insert_middle.
  replace (S (length l1)) with (length l1 + 1)%nat by lia.
  by rewrite delete_app_r'.
Qed.

Lemma merge_left_keep l1 p cur l2 :
  has_name p = true → has_name cur = false →
  __merge_left (l1 ++ p :: cur :: l2) (S (length l1))
  = Ok (l1 ++ p :: cur :: l2, S (length l1)).
Proof.
  intros Hp Hc. unfold __merge_left.
  rewrite getitem_middle_S. cbn [mbind res_bind]. rewrite Hc. cbn [negb assert mbind res_bind Nat.ltb Nat.leb].
  replace (S (length l1) - 1)%nat with (length l1) by lia.
  rewrite getitem_middle. cbn [mbind res_bind]. by rewrite Hp.
Qed.

Lemma merge_left_first cur l2 :
  has_name cur = false → __merge_left (cur :: l2) 0 = Ok (cur :: l2, 0%nat).
Proof. intros Hc. unfold __merge_left. cbn. by rewrite Hc. Qed.

Lemma merge_right_merge l1 cur next l2 :
  has_name cur = false → has_name next = false →
  __merge_right (l1 ++ cur :: next :: l2) (length l1)
  = Ok (l1 ++ set_start next (start cur) :: l2, length l1).
Proof.
  intros Hc Hn. unfold __merge_right.
  rewrite getitem_middle. cbn [mbind res_bind]. rewrite Hc. cbn [negb assert mbind res_bind].
  destruct (Nat.ltb_spec (length l1 + 1) (length (l1 ++ cur :: next :: l2)))
    as [_|Hlen].
  2: { rewrite length_app in Hlen. simpl in Hlen. lia. }
  replace (length l1 + 1)%nat with (S (length l1)) by lia.
  rewrite getitem_middle_S. cbn [mbind res_bind]. rewrite Hn. cbn [negb mbind res_bind].
  replace (S (length l1)) with (length l1 + 1)%nat by lia.
  rewrite insert_app_r'. cbn [list_insert].
  replace (length l1) with (length l1 + 0)%nat at 1 by lia.
  by rewrite delete_app_r'.
Qed.

Lemma merge_right_keep l1 cur n l2 :
  has_name cur = false → has_name n = true →
  __merge_right (l1 ++ cur :: n :: l2) (length l1)
  = Ok (l1 ++ cur :: n :: l2, length l1).
Proof.
  intros Hc Hn. unfold __merge_right.
  rewrite getitem_middle. cbn [mbind res_bind]. rewrite Hc. cbn [negb assert mbind res_bind].
  destruct (length l1 + 1 <? _)%nat; [|done].
  replace (length l1 + 1)%nat with (S (length l1)) by lia.
  rewrite getitem_middle_S. cbn [mbind res_bind]. by rewrite Hn.
Qed.

Lemma merge_right_last l1 cur :
  has_name cur = false →
  __merge_right (l1 ++ [cur]) (length l1) = Ok (l1 ++ [cur], length l1).
Proof.
  intros Hc. unfold __merge_right.
  rewrite getitem_middle. cbn [mbind res_bind]. rewrite Hc. cbn [negb assert mbind res_bind].
  destruct (Nat.ltb_spec (length l1 + 1) (length (l1 ++ [cur]))) as [Hlen|];
    [|done].
  rewrite length_app in Hlen. simpl in Hlen. lia.
Qed.

(** Removing exactly the slice at [idx]. *)
Lemma remove_slice_entire l1 tg l2 :
  start tg < stop tg →
  __remove_slice (l1 ++ tg :: l2) (length l1) (start tg) (stop tg)
  = ('(l, i) ← __merge_left (l1 ++ set_name tg None :: l2) (length l1);
     __merge_right l i).
Proof.
  intros H. unfold __remove_slice. rewrite getitem_middle.
  cbn [mbind res_bind].
  rewrite (assert_true (_ <? _)) by (apply Z.ltb_lt; lia).
  rewrite (assert_true (_ <=? _)) by (apply Z.leb_le; lia).
  rewrite (assert_true (_ >=? _)) by (rewrite Z.geb_leb; apply Z.leb_le; lia).
  cbn [mbind res_bind]. rewrite !Z.eqb_refl. cbn [andb].
  rewrite copy_Ok by lia. cbn [mbind res_bind].
  by rewrite insert_middle.
Qed.

(** One pass of the loop of [__remove] that is the last one. *)
Lemma remove_loop_once fuel l idx a b tg l' idx' :
  l !! idx = Some tg → start tg < b →
  __remove_slice l idx (Z.max a (start tg)) (Z.min b (stop tg))
  = Ok (l', idx') →
  (∀ n, l' !! (idx' + 1)%nat = Some n → b ≤ start n) →
  remove_loop (S (S fuel)) l idx a b = Ok l'.
Proof.
  intros Htg Hb Hrs Hnext. cbn [remove_loop].
  destruct (Nat.ltb_spec idx (length l)) as [_|Hlen].
  2: { apply lookup_lt_Some in Htg. lia. }
  rewrite (getitem_lookup _ _ _ Htg). cbn [mbind res_bind].
  destruct (Z.ltb_spec (start tg) b); [|lia].
  rewrite Hrs. cbn [mbind res_bind].
  destruct (Nat.ltb_spec (idx' + 1) (length l')) as [Hlt|]; [|done].
  destruct (lookup_lt_is_Some_2 _ _ Hlt) as [n Hn].
  rewrite (getitem_lookup _ _ _ Hn). cbn [mbind res_bind].
  pose proof (Hnext _ Hn). by destruct (Z.ltb_spec (start n) b); [lia|].
Qed.

Lemma slice_eq_refl s : slice_eq s s = true.
Proof. unfold slice_eq. by rewrite !Z.eqb_refl. Qed.

Lemma slices_eq_refl l : slices_eq l l.
Proof. induction l; constructor; [apply slice_eq_refl | done]. Qed.

Lemma slices_eq_middle l1 x y l2 :
  start x = start y → stop x = stop y →
  slices_eq (l1 ++ x :: l2) (l1 ++ y :: l2).
Proof.
  intros H1 H2. apply Forall2_app; [apply slices_eq_refl|].
  constructor; [|apply slices_eq_refl].
  unfold slice_eq. rewrite H1, H2. by rewrite !Z.eqb_refl.
Qed.

(** After [add] has put [r] into the gap [tg], the left merge of the gap
    that [remove] creates in the place of [r]. *)
Lemma merge_left_after_add l1 tg r rest :
  (l1 = [] ∨ ∃ l1' p, l1 = l1' ++ [p] ∧ has_name p = true) →
  start tg ≤ start r →
  ∃ cur,
    __merge_left ((l1 ++ left_gap tg r) ++ set_name r None :: rest)
      (length (l1 ++ left_gap tg r))
    = Ok (l1 ++ cur :: rest, length l1) ∧
    has_name cur = false ∧ start cur = start tg ∧ stop cur = stop r ∧
    (cur = set_name r None ∨ (section cur = None ∧ tags cur = ∅)).
Proof.
  intros Hl1 Hle.
  destruct (left_gap_cases tg r) as [[? ->]|[? ->]].
  - eexists. rewrite <- app_assoc, length_app. cbn [app length].
    replace (length l1 + 1)%nat with (S (length l1)) by lia.
    rewrite merge_left_merge by done.
    split; [reflexivity|]. cbn. repeat split. by right.
  - exists (set_name r None). rewrite app_nil_r.
    split; [|repeat split; [simpl; lia|by left]].
    destruct Hl1 as [->|(l1' & p & -> & Hp)].
    + cbn [app length]. by rewrite merge_left_first.
    + rewrite <- !app_assoc, length_app. cbn [app length].
      replace (length l1' + 1)%nat with (S (length l1')) by lia.
      by rewrite merge_left_keep.
Qed.

Lemma merge_right_after_add l1 cur tg r l2 :
  (l2 = [] ∨ ∃ n l2', l2 = n :: l2' ∧ has_name n = true) →
  has_name cur = false → stop cur = stop r → stop r ≤ stop tg →
  ∃ g',
    __merge_right (l1 ++ cur :: right_gap tg r ++ l2) (length l1)
    = Ok (l1 ++ g' :: l2, length l1) ∧
    has_name g' = false ∧ start g' = start cur ∧ stop g' = stop tg ∧
    (g' = cur ∨ (section g' = None ∧ tags g' = ∅)).
Proof.
  intros Hl2 Hc Hs Hle.
  destruct (right_gap_cases tg r) as [[? ->]|[? ->]].
  - eexists. cbn [app]. rewrite merge_right_merge by done.
    split; [reflexivity|]. cbn. repeat split. by right.
  - exists cur. cbn [app].
    split; [|repeat split; [done|lia|by left]].
    destruct Hl2 as [->|(n & l2' & -> & Hn)].
    + by rewrite merge_right_last.
    + by rewrite merge_right_keep.
Qed.

(** C3.  On a table that satisfies the partition invariants, when
    [add(r)] succeeds, [remove(r.start, r.stop)] right after it succeeds
    too and gives back the list of slices from before the insertion: the
    same slices in the same places, but for the gap [g] that [r] was put
    into, which is restored as an unnamed slice [g'] over the same range.
    The two lists are equal for [Slice.__eq__], and slice by slice they
    have the same names.  (The section and the tags of [g'] are those of
    [r] when [r] filled the gap, and otherwise those of a fresh gap.) *)
Theorem add_then_remove_restores t r t1 :
  partition_inv t → add t r = Ok t1 →
  ∃ t2 i g g',
    remove t1 (start r) (stop r) = Ok t2 ∧
    find t (start r) = Some (g, i) ∧
    t2 = with_slices t (<[i := g']> (slices t)) ∧
    name g = None ∧ name g' = None ∧
    start g' = start g ∧ stop g' = stop g ∧
    slices_eq (slices t2) (slices t) ∧
    Forall2 (fun x y => name x = name y) (slices t2) (slices t).
Proof.
  intros [Ht Hg] Hadd.
  destruct (add_Ok_inv _ _ _ Hadd) as (Hr & Hb1 & Hb2).
  destruct (add_Ok_splice _ _ _ Ht Hadd)
    as (l1 & tg & l2 & E & Hf & Hc & Hn & Hcs & ->).
  apply tiling_tiles in Ht as [Ht _]. rewrite E in Ht, Hg.
  apply tiles_app in Ht as (m & Hl1 & <- & Hpos & Hl2).
  destruct (gaps_apart_neighbours _ _ _ Hg Hn) as [Hp Hnx].
  unfold contains_slice in Hcs. apply andb_prop in Hcs as [Hs1 Hs2].
  apply Z.leb_le in Hs1. rewrite Z.geb_leb in Hs2. apply Z.leb_le in Hs2.
  destruct (merge_left_after_add l1 tg r (right_gap tg r ++ l2) Hp Hs1)
    as (cur & Hml & Hcn & Hcs1 & Hcs2 & _).
  destruct (merge_right_after_add l1 cur tg r l2 Hnx Hcn Hcs2 Hs2)
    as (g' & Hmr & Hgn & Hgs1 & Hgs2 & _).
  exists (with_slices t (l1 ++ g' :: l2)), (length l1), tg, g'.
  split.
  { unfold remove, __remove. cbn [slices with_slices table_start table_stop].
    rewrite Z.max_l, Z.min_l by lia.
    unfold find. cbn [slices with_slices].
    rewrite (app_assoc l1). cbn [app].
    rewrite find_from_app; first last.
    - unfold contains_addr. apply andb_true_intro.
      split; [apply Z.leb_le | apply Z.ltb_lt]; lia.
    - apply Forall_app. split.
      + apply Forall_forall. intros s Hs.
        destruct (tiles_elem _ _ _ _ Hl1 Hs) as (_ & _ & ?).
        unfold contains_addr. apply andb_false_intro2, Z.ltb_ge. lia.
      + destruct (left_gap_cases tg r) as [[? ->]|[? ->]]; [|done].
        constructor; [|done].
        unfold contains_addr. apply andb_false_intro2, Z.ltb_ge. simpl. lia.
    - cbn [Nat.add].
      replace (length ((l1 ++ left_gap tg r) ++ r :: right_gap tg r ++ l2) + 2)%nat
        with (S (S (length ((l1 ++ left_gap tg r) ++ r :: right_gap tg r ++ l2))))
        by lia.
      erewrite remove_loop_once; [reflexivity| | | |].
      + apply list_lookup_middle. reflexivity.
      + lia.
      + rewrite Z.max_id, Z.min_id, remove_slice_entire by done.
        rewrite Hml. cbn [mbind res_bind]. exact Hmr.
      + intros n Hn'. rewrite lookup_app_r' in Hn'.
        destruct l2 as [|n' l2']; [done|]. simpl in Hn'. injection Hn' as <-.
        destruct Hl2 as (-> & _). lia. }
  split; [done|]. split.
  { rewrite E, insert_middle. reflexivity. }
  apply has_name_false in Hn, Hgn.
  split; [done|]. split; [done|]. split; [lia|]. split; [lia|].
  cbn [slices with_slices]. rewrite E. split.
  - apply slices_eq_middle; lia.
  - apply Forall2_app; [by apply Forall_Forall2_diag, Forall_true|].
    constructor; [congruence|]. by apply Forall_Forall2_diag, Forall_true.
Qed.

Lemma add_then_remove_restores_witness :
  let r := mkSlice 6 9 (Some "bar"%string) (Some "text"%string) ∅ in
  let t1 := mkTable [mkSlice 0 4 (Some "foo"%string) None ∅;
                     mkSlice 4 6 None None ∅; r; mkSlice 9 16 None None ∅]
              0 16 in
  ∃ t2 i g g',
    remove t1 (start r) (stop r) = Ok t2 ∧
    find table_c2 (start r) = Some (g, i) ∧
    t2 = with_slices table_c2 (<[i := g']> (slices table_c2)) ∧
    name g = None ∧ name g' = None ∧
    start g' = start g ∧ stop g' = stop g ∧
    slices_eq (slices t2) (slices table_c2) ∧
    Forall2 (fun x y => name x = name y) (slices t2) (slices table_c2).
Proof.
  intros r t1. apply (add_then_remove_restores table_c2 r t1).
  - apply partition_invb_sound. vm_compute. reflexivity.
  - vm_compute. reflexivity.
Defined.

(** ** C10: the pieces of a removal *)

Lemma take_drop_middle_eq {A} (l1 l2 : list A) x :
  take (length l1) (l1 ++ x :: l2) = l1 ∧
  drop (S (length l1)) (l1 ++ x :: l2) = l2.
Proof.
  split; [apply take_app_length|].
  induction l1; simpl; [by rewrite drop_0|done].
Qed.

Lemma left_part_cases tg ns :
  (start tg < ns ∧
   left_part tg ns = [mkSlice (start tg) ns (name tg) (section tg) (tags tg)])
  ∨ (ns ≤ start tg ∧ left_part tg ns = []).
Proof.
  unfold left_part.
  destruct (Z.ltb_spec (start tg) ns); [left|right]; done.
Qed.

Lemma right_part_cases tg ne :
  (ne < stop tg ∧
   right_part tg ne = [mkSlice ne (stop tg) (name tg) (section tg) (tags tg)])
  ∨ (stop tg ≤ ne ∧ right_part tg ne = []).
Proof.
  unfold right_part.
  destruct (Z.ltb_spec ne (stop tg)); [left|right]; done.
Qed.

(** All four branches of [__remove_slice] put the pieces of the target in
    its place and then merge the gap among them. *)
Lemma remove_slice_carve l1 tg l2 ns ne :
  __remove_slice (l1 ++ tg :: l2) (length l1) ns ne
  = (_ ← assert (ns <? ne);
     _ ← assert (start tg <=? ns);
     _ ← assert (stop tg >=? ne);
     _ ← assert (start tg <=? stop tg);
     merge_gap (l1 ++ carve tg ns ne ++ l2)
       (length l1 + length (left_part tg ns))
       (start tg =? ns) (stop tg =? ne)).
Proof.
  unfold __remove_slice. rewrite getitem_middle. cbn [mbind res_bind].
  destruct (Z.ltb_spec ns ne) as [H1|]; [|done]. cbn [assert mbind res_bind].
  destruct (Z.leb_spec (start tg) ns) as [H2|]; [|done].
  cbn [assert mbind res_bind]. rewrite Z.geb_leb.
  destruct (Z.leb_spec ne (stop tg)) as [H3|]; [|done].
  cbn [assert mbind res_bind].
  destruct (Z.leb_spec (start tg) (stop tg)) as [H4|]; [|lia].
  cbn [assert mbind res_bind]. unfold merge_gap, carve.
  destruct (left_part_cases tg ns) as [[? ->]|[? ->]];
    destruct (right_part_cases tg ne) as [[? ->]|[? ->]];
    destruct (Z.eqb_spec (start tg) ns); try lia;
    destruct (Z.eqb_spec (stop tg) ne); try lia;
    cbn [andb app length];
    repeat (rewrite copy_Ok by done; cbn [mbind res_bind]);
    rewrite insert_middle.
  all: rewrite ?Nat.add_0_r, ?list_insert_at_app_r.
  all: cbn [list_insert_at take drop app].
  all: rewrite ?list_insert_at_app_r; cbn [list_insert_at take drop app].
  all: unfold gap_of, set_stop, set_start, set_name;
    cbn [start stop name section tags]; subst; reflexivity.
Qed.

(** What a merge can do. *)
Lemma merge_left_inv l k l' k' :
  __merge_left l k = Ok (l', k') →
  (l' = l ∧ k' = k) ∨
  ∃ l1 prev cur l2,
    l = l1 ++ prev :: cur :: l2 ∧ k = S (length l1) ∧
    has_name prev = false ∧ has_name cur = false ∧
    l' = l1 ++ set_stop prev (stop cur) :: l2 ∧ k' = length l1.
Proof.
  intros H. unfold __merge_left in H.
  apply bind_Ok in H as (cur & Hcur%getitem_Ok & H).
  apply bind_Ok in H as ([] & Hc%assert_Ok & H).
  apply negb_true_iff in Hc.
  destruct (Nat.ltb_spec 0 k) as [Hpos|]; [|left; by injection H as <- <-].
  apply bind_Ok in H as (prev & Hprev%getitem_Ok & H).
  destruct (has_name prev) eqn:Hp; cbn [negb] in H;
    [left; by injection H as <- <-|].
  right. injection H as <- <-.
  replace k with (S (k - 1)) in Hcur by lia.
  destruct (lookup_split2 _ _ _ _ Hprev Hcur) as (l1 & l2 & -> & E).
  exists l1, prev, cur, l2. rewrite E, insert_middle.
  replace k with (length l1 + 1)%nat by lia.
  rewrite delete_app_r'. cbn. repeat split; [lia|done..].
Qed.

Lemma merge_right_inv l k l' k' :
  __merge_right l k = Ok (l', k') →
  k' = k ∧
  (l' = l ∨
   ∃ l1 cur next l2,
     l = l1 ++ cur :: next :: l2 ∧ k = length l1 ∧
     has_name cur = false ∧ has_name next = false ∧
     l' = l1 ++ set_start next (start cur) :: l2).
Proof.
  intros H. unfold __merge_right in H.
  apply bind_Ok in H as (cur & Hcur%getitem_Ok & H).
  apply bind_Ok in H as ([] & Hc%assert_Ok & H).
  apply negb_true_iff in Hc.
  destruct (k + 1 <? length l)%nat;
    [|injection H as <- <-; split; [done|by left]].
  apply bind_Ok in H as (next & Hnext%getitem_Ok & H).
  destruct (has_name next) eqn:Hn; cbn [negb] in H;
    [injection H as <- <-; split; [done|by left]|].
  injection H as <- <-. split; [done|]. right.
  replace (k + 1)%nat with (S k) in * by lia.
  destruct (lookup_split2 _ _ _ _ Hcur Hnext) as (l1 & l2 & -> & ->).
  exists l1, cur, next, l2.
  replace (S (length l1)) with (length l1 + 1)%nat by lia.
  rewrite insert_app_r'. cbn.
  pose proof (delete_app_r' l1 (cur :: set_start next (start cur) :: l2) 0)
    as Hd.
  rewrite Nat.add_0_r in Hd. rewrite Hd. cbn. repeat split; done.
Qed.

Lemma carve_metadata tg ns ne p :
  p ∈ carve tg ns ne →
  section p = section tg ∧ tags p = tags tg ∧
  (p = gap_of tg ns ne ∨ name p = name tg).
Proof.
  unfold carve. intros Hp.
  destruct (left_part_cases tg ns) as [[_ E1]|[_ E1]];
    destruct (right_part_cases tg ne) as [[_ E2]|[_ E2]];
    rewrite E1, E2 in Hp; cbn [app] in Hp;
    repeat (apply elem_of_cons in Hp as [->|Hp]);
    try (by apply elem_of_nil in Hp); cbn; auto.
Qed.

Lemma app_cons_inj {A} (l1 k1 l2 k2 : list A) x :
  l1 ++ x :: l2 = k1 ++ k2 → length k1 = S (length l1) →
  k1 = l1 ++ [x] ∧ k2 = l2.
Proof.
  intros E Hlen. rewrite (cons_middle x), app_assoc in E.
  apply app_inj_1 in E as [-> ->]; [done|].
  rewrite length_app. simpl. lia.
Qed.

Lemma remove_slice_pieces l idx ns ne tg l' idx' :
  l !! idx = Some tg → __remove_slice l idx ns ne = Ok (l', idx') →
  let lm := take idx l ++ carve tg ns ne ++ drop (S idx) l in
  let k := (idx + length (left_part tg ns))%nat in
  (∀ p, p ∈ carve tg ns ne →
     section p = section tg ∧ tags p = tags tg ∧
     (p = gap_of tg ns ne ∨ name p = name tg)) ∧
  name (gap_of tg ns ne) = None ∧
  lm !! k = Some (gap_of tg ns ne) ∧
  merge_gap lm k (start tg =? ns) (stop tg =? ne) = Ok (l', idx') ∧
  (∀ p, p ∈ left_part tg ns ++ right_part tg ne → p ∈ l') ∧
  ((∀ nb, (0 < idx)%nat ∧ l !! (idx - 1)%nat = Some nb ∨ l !! S idx = Some nb →
          has_name nb = true) →
   l' = lm ∧ idx' = k).
Proof.
  intros Htg H lm k.
  split; [intros p; apply carve_metadata|]. split; [done|].
  destruct (lookup_split _ _ _ Htg) as (l1 & l2 & -> & ->).
  destruct (take_drop_middle_eq l1 l2 tg) as [Et Ed].
  subst lm k. rewrite Et, Ed. clear Et Ed.
  rewrite remove_slice_carve in H.
  apply bind_Ok in H as ([] & H1%assert_Ok & H).
  apply bind_Ok in H as ([] & H2%assert_Ok & H).
  apply bind_Ok in H as ([] & H3%assert_Ok & H).
  apply bind_Ok in H as ([] & _ & H).
  apply Z.ltb_lt in H1. apply Z.leb_le in H2.
  rewrite Z.geb_leb in H3. apply Z.leb_le in H3.
  split.
  { unfold carve. rewrite <- (app_assoc (left_part tg ns)), (app_assoc l1).
    cbn [app]. rewrite <- length_app. by apply list_lookup_middle. }
  split; [done|].
  assert (∀ nb, l2 !! 0%nat = Some nb →
            (l1 ++ tg :: l2) !! S (length l1) = Some nb) as Hnext.
  { intros nb Hnb. replace (S (length l1)) with (length l1 + 1)%nat by lia.
    by rewrite lookup_app_r'. }
  assert (∀ k1 prev, l1 = k1 ++ [prev] →
            (0 < length l1)%nat ∧
            (l1 ++ tg :: l2) !! (length l1 - 1)%nat = Some prev) as Hprev.
  { intros k1 prev ->. rewrite length_app. simpl. split; [lia|].
    replace (length k1 + 1 - 1)%nat with (length k1) by lia.
    rewrite <- !app_assoc. by apply list_lookup_middle. }
  unfold merge_gap, carve in *.
  destruct (left_part_cases tg ns) as [[? E1]|[? E1]];
    destruct (right_part_cases tg ne) as [[? E2]|[? E2]];
    rewrite E1, E2 in *; clear E1 E2;
    destruct (Z.eqb_spec (start tg) ns) as [Es|Es]; try lia;
    destruct (Z.eqb_spec (stop tg) ne) as [Ee|Ee]; try lia;
    cbn [andb app length] in *; rewrite ?Nat.add_0_r in *.
  - (* the range lies inside the target *)
    injection H as <- <-. split; [|done]. intros p Hp.
    apply elem_of_app. right.
    repeat (apply elem_of_cons in Hp as [->|Hp]);
      [by left | by do 2 right; left | by apply elem_of_nil in Hp].
  - (* the range ends at the stop of the target *)
    apply merge_right_inv in H
      as [-> [->|(k1 & cur & next & k2 & E & Ek & Hc & Hn & ->)]].
    { split; [|done]. intros p Hp.
      apply list_elem_of_singleton in Hp as ->.
      apply elem_of_app. right. by left. }
    apply app_cons_inj in E as [-> [= <- <-]]; [|lia]. split.
    + intros p Hp. apply list_elem_of_singleton in Hp as ->.
      apply elem_of_app. left. apply elem_of_app. right. by left.
    + intros Hnb. rewrite (Hnb next) in Hn; [done|]. right. by apply Hnext.
  - (* the range starts at the start of the target *)
    apply merge_left_inv in H
      as [[-> ->]|(k1 & prev & cur & k2 & E & Ek & Hpn & Hc & -> & ->)].
    { split; [|done]. intros p Hp.
      apply list_elem_of_singleton in Hp as ->.
      apply elem_of_app. right. by right; left. }
    symmetry in E. apply app_cons_inj in E as [-> [= <- <-]]; [|lia]. split.
    + intros p Hp. apply list_elem_of_singleton in Hp as ->.
      apply elem_of_app. right. by right; left.
    + intros Hnb. rewrite (Hnb prev) in Hpn; [done|]. left. by eapply Hprev.
  - (* the whole target is removed *)
    apply bind_Ok in H as ([l0 i0] & Hml & Hmr). split.
    { intros p Hp. by apply elem_of_nil in Hp. }
    intros Hnb.
    apply merge_left_inv in Hml
      as [[-> ->]|(k1 & prev & cur & k2 & E & Ek & Hpn & Hc & -> & ->)].
    + apply merge_right_inv in Hmr
        as [-> [->|(k1 & cur & next & k2 & E & Ek & Hc & Hn & ->)]];
        [done|].
      apply app_inj_1 in E as [<- [= <- ->]]; [|done].
      rewrite (Hnb next) in Hn; [done|]. right. by apply Hnext.
    + symmetry in E. apply app_cons_inj in E as [-> [= <- <-]]; [|lia].
      rewrite (Hnb prev) in Hpn; [done|]. left. by eapply Hprev.
Qed.




(** Over a whole call of [remove]: every slice of the table afterwards
    has the section and the tags of a slice of the table before, and its
    name or none. *)

Lemma keeps_metadata_refl x : keeps_metadata x x.
Proof. repeat split. by left. Qed.

Lemma keeps_metadata_trans x y z :
  keeps_metadata x y → keeps_metadata y z → keeps_metadata x z.
Proof.
  intros (? & ? & Hx) (? & ? & Hy). repeat split; [congruence..|].
  destruct Hx as [Hx|Hx]; [|by right]. rewrite Hx. done.
Qed.

Lemma list_keeps_metadata_refl l : list_keeps_metadata l l.
Proof. intros x Hx. exists x. split; [done|apply keeps_metadata_refl]. Qed.

Lemma list_keeps_metadata_trans l1 l2 l3 :
  list_keeps_metadata l1 l2 → list_keeps_metadata l2 l3 →
  list_keeps_metadata l1 l3.
Proof.
  intros H12 H23 x Hx. destruct (H12 x Hx) as (y & Hy & Hxy).
  destruct (H23 y Hy) as (z & Hz & Hyz). exists z. split; [done|].
  by eapply keeps_metadata_trans.
Qed.

Lemma merge_left_metadata l k l' k' :
  __merge_left l k = Ok (l', k') → list_keeps_metadata l' l.
Proof.
  intros [[-> ->]|(l1 & prev & cur & l2 & -> & _ & _ & _ & -> & _)]%merge_left_inv;
    [apply list_keeps_metadata_refl|].
  intros x Hx. apply elem_of_app in Hx as [Hx|Hx].
  - exists x. split; [|apply keeps_metadata_refl]. apply elem_of_app. by left.
  - apply elem_of_cons in Hx as [->|Hx].
    + exists prev. split; [|repeat split; by left].
      apply elem_of_app. right. by left.
    + exists x. split; [|apply keeps_metadata_refl].
      apply elem_of_app. right. by do 2 right.
Qed.

Lemma merge_right_metadata l k l' k' :
  __merge_right l k = Ok (l', k') → list_keeps_metadata l' l.
Proof.
  intros [_ [->|(l1 & cur & next & l2 & -> & _ & _ & _ & ->)]]%merge_right_inv;
    [apply list_keeps_metadata_refl|].
  intros x Hx. apply elem_of_app in Hx as [Hx|Hx].
  - exists x. split; [|apply keeps_metadata_refl]. apply elem_of_app. by left.
  - apply elem_of_cons in Hx as [->|Hx].
    + exists next. split; [|repeat split; by left].
      apply elem_of_app. right. by right; left.
    + exists x. split; [|apply keeps_metadata_refl].
      apply elem_of_app. right. by do 2 right.
Qed.

Lemma remove_slice_metadata l idx ns ne l' idx' :
  __remove_slice l idx ns ne = Ok (l', idx') → list_keeps_metadata l' l.
Proof.
  intros H.
  assert (∃ tg, l !! idx = Some tg) as [tg Htg].
  { unfold __remove_slice in H. apply bind_Ok in H as (tg & Htg%getitem_Ok & _).
    by exists tg. }
  destruct (remove_slice_pieces _ _ _ _ _ _ _ Htg H)
    as (Hpieces & _ & _ & Hm & _).
  apply list_keeps_metadata_trans
    with (take idx l ++ carve tg ns ne ++ drop (S idx) l).
  - unfold merge_gap in Hm.
    destruct (start tg =? ns), (stop tg =? ne); cbn [andb] in Hm.
    + apply bind_Ok in Hm as ([l0 i0] & Hl & Hr).
      eapply list_keeps_metadata_trans;
        [by eapply merge_right_metadata | by eapply merge_left_metadata].
    + by eapply merge_left_metadata.
    + by eapply merge_right_metadata.
    + injection Hm as <- _. apply list_keeps_metadata_refl.
  - intros x Hx. apply elem_of_app in Hx as [Hx|Hx].
    { exists x. split; [|apply keeps_metadata_refl].
      by eapply subseteq_take. }
    apply elem_of_app in Hx as [Hx|Hx].
    + exists tg. split; [by eapply list_elem_of_lookup_2|].
      destruct (Hpieces x Hx) as (? & ? & [->|?]); repeat split; auto.
    + exists x. split; [|apply keeps_metadata_refl].
      by eapply subseteq_drop.
Qed.

Lemma remove_loop_metadata fuel l idx a b l' :
  remove_loop fuel l idx a b = Ok l' → list_keeps_metadata l' l.
Proof.
  revert l idx. induction fuel as [|fuel IH]; intros l idx H; [done|].
  cbn [remove_loop] in H.
  destruct (idx <? length l)%nat;
    [|injection H as <-; apply list_keeps_metadata_refl].
  apply bind_Ok in H as (tg & _ & H).
  destruct (start tg <? _);
    [|injection H as <-; apply list_keeps_metadata_refl].
  apply bind_Ok in H as ([l0 i0] & Hrs & H).
  eapply list_keeps_metadata_trans; [by eapply IH|].
  by eapply remove_slice_metadata.
Qed.

Lemma remove_keeps_metadata t a b t' :
  remove t a b = Ok t' → list_keeps_metadata (slices t') (slices t).
Proof.
  unfold remove, __remove. destruct (find t _) as [[_ idx]|]; [|done].
  intros (l' & H & [= <-])%bind_Ok. cbn [slices with_slices].
  by eapply remove_loop_metadata.
Qed.

(** ** C7: [slice] *)














(** ** C5: object slices *)

Lemma index_from_lt order i x k :
  index_from order i x = Ok k → (i ≤ k < i + length order)%nat.
Proof.
  revert i. induction order as [|y order IH]; intros i H; [done|].
  simpl in H. destruct (decide (y = x)).
  - injection H as <-. simpl. lia.
  - apply IH in H. simpl. lia.
Qed.

(** The buckets after the first loop. *)
Lemma collect_buckets order l : ∀ bs os bs' os',
  collect order (bs, os) l = Ok (bs', os') →
  ∀ k, bs' !! k = (fun b => b ++ bucket_of order k l) <$> (bs !! k).
Proof.
  induction l as [|s l IH]; intros bs os bs' os' H k.
  - injection H as <- <-. unfold bucket_of. rewrite filter_nil.
    destruct (bs !! k); simpl; by rewrite ?app_nil_r.
  - cbn [collect] in H. apply bind_Ok in H as ([bs1 os1] & Hstep & H).
    rewrite (IH _ _ _ _ H k). unfold collect_step in Hstep.
    unfold bucket_of. rewrite filter_cons.
    destruct (name s) as [n|] eqn:En.
    2: { injection Hstep as <- <-.
         rewrite decide_False; [done|].
         intros [Hn _]. unfold has_name in Hn. by rewrite En in Hn. }
    apply bind_Ok in Hstep as (k0 & Hk0 & Hstep).
    apply bind_Ok in Hstep as (b0 & Hb0%getitem_Ok & [= <- <-]).
    cbn [fst snd] in *.
    destruct (decide (k0 = k)) as [->|Hne].
    + rewrite list_lookup_insert_eq by (by eapply lookup_lt_Some).
      rewrite Hb0. cbn. rewrite decide_True.
      * by rewrite <- app_assoc.
      * split; [|done]. unfold has_name. by rewrite En.
    + rewrite list_lookup_insert_ne by done.
      rewrite decide_False; [done|]. intros [_ Hk]. congruence.
Qed.

(** The sections of the objects after the first loop. *)
Lemma collect_sections order l : ∀ bs os bs' os',
  collect order (bs, os) l = Ok (bs', os') →
  ∀ n s, s ∈ l → name s = Some n →
    ∃ secs, os' !! n = Some secs ∧
      secs = default ∅ (os !! n) ∪ sections_of n l.
Proof.
  assert (∀ l bs os bs' os' n,
            collect order (bs, os) l = Ok (bs', os') →
            default ∅ (os' !! n) = default ∅ (os !! n) ∪ sections_of n l ∧
            (is_Some (os !! n) → is_Some (os' !! n))) as Haux.
  { clear l. induction l as [|s l IH]; intros bs os bs' os' n H.
    - injection H as <- <-. unfold sections_of. rewrite filter_nil. cbn.
      split; [set_solver|done].
    - cbn [collect] in H. apply bind_Ok in H as ([bs1 os1] & Hstep & H).
      destruct (IH _ _ _ _ n H) as [-> Hsome]. unfold collect_step in Hstep.
      unfold sections_of. rewrite filter_cons.
      destruct (name s) as [m|] eqn:En.
      2: { injection Hstep as <- <-. rewrite decide_False by done.
           split; [done|]. done. }
      apply bind_Ok in Hstep as (k0 & Hk0 & Hstep).
      apply bind_Ok in Hstep as (b0 & _ & [= <- <-]). cbn [fst snd] in *.
      destruct (decide (m = n)) as [->|Hne].
      + rewrite decide_True by done. split.
        * rewrite lookup_insert_eq. cbn. set_solver.
        * intros _. apply Hsome. rewrite lookup_insert_eq. eauto.
      + rewrite decide_False by congruence. split.
        * by rewrite lookup_insert_ne.
        * intros ?. apply Hsome. by rewrite lookup_insert_ne. }
  induction l as [|s l IH]; intros bs os bs' os' H n x Hx Hn.
  { by apply elem_of_nil in Hx. }
  destruct (Haux _ _ _ _ _ n H) as [Hd _].
  assert (is_Some (os' !! n)) as [secs Hsecs].
  { cbn [collect] in H. apply bind_Ok in H as ([bs1 os1] & Hstep & H).
    apply elem_of_cons in Hx as [->|Hx].
    - destruct (Haux _ _ _ _ _ n H) as [_ Hsome]. apply Hsome.
      unfold collect_step in Hstep. rewrite Hn in Hstep.
      apply bind_Ok in Hstep as (k0 & Hk0 & Hstep).
      apply bind_Ok in Hstep as (b0 & _ & [= <- <-]). cbn.
      rewrite lookup_insert_eq. eauto.
    - destruct (IH _ _ _ _ H n x Hx Hn) as (secs & -> & _). eauto. }
  exists secs. split; [done|]. rewrite Hsecs in Hd. exact Hd.
Qed.

(** The first loop succeeds when every named slice has its section in the
    order. *)
Lemma collect_Ok order l : ∀ bs os,
  (∀ s, s ∈ l → has_name s = true →
        ∃ k, index_of order (section s) = Ok k ∧ (k < length bs)%nat) →
  ∃ bs' os', collect order (bs, os) l = Ok (bs', os') ∧ length bs' = length bs.
Proof.
  induction l as [|s l IH]; intros bs os H.
  - by exists bs, os.
  - cbn [collect]. unfold collect_step at 1. unfold has_name in H.
    destruct (name s) as [n|] eqn:En; cbn [mbind res_bind].
    + destruct (H s) as (k & -> & Hk); [by left|by rewrite En|].
      cbn [mbind res_bind fst snd].
      destruct (lookup_lt_is_Some_2 bs k Hk) as [b Hb].
      rewrite (getitem_lookup _ _ _ Hb). cbn [mbind res_bind].
      destruct (IH (<[k := b ++ [s]]> bs)
                  (<[n := default ∅ (os !! n) ∪ {[section s]}]> os))
        as (bs' & os' & -> & Hlen).
      { intros x Hx Hn. destruct (H x) as (k' & ? & ?); [by right|done|].
        exists k'. by rewrite length_insert. }
      exists bs', os'. split; [done|]. by rewrite Hlen, length_insert.
    + apply IH. intros x Hx Hn. apply H; [by right|done].
Qed.

Lemma sort_two x y :
  start x < start y →
  sort_by_start [x; y] = [x; y] ∧ sort_by_start [y; x] = [x; y].
Proof.
  intros H. unfold sort_by_start. cbn.
  destruct (Z.leb_spec (start x) (start y)); [|lia].
  destruct (Z.leb_spec (start y) (start x)); [lia|]. done.
Qed.

Lemma sort_perm_two l x y :
  l ≡ₚ [x; y] → start x < start y → sort_by_start l = [x; y].
Proof.
  intros Hp H. symmetry in Hp.
  apply Permutation_length_2_inv in Hp as [->| ->]; by apply sort_two.
Qed.

(** Steps of the loop over the dependencies. *)
Lemma deps_loop_same order os nm i b rest acc :
  deps_loop order os nm i i (b :: rest) acc
  = deps_loop order os nm i (S i) rest acc.
Proof. cbn [deps_loop]. by rewrite decide_True. Qed.

Lemma deps_loop_skip order os nm i j b rest acc oj secs :
  i ≠ j → order !! j = Some oj → object_sections_get os nm = Ok secs →
  Some oj ∉ secs →
  deps_loop order os nm i j (b :: rest) acc
  = deps_loop order os nm i (S j) rest acc.
Proof.
  intros Hij Hoj Hsecs Hnot. cbn [deps_loop].
  rewrite decide_False by done. rewrite (getitem_lookup _ _ _ Hoj), Hsecs.
  cbn [mbind res_bind]. by rewrite decide_False.
Qed.

Lemma deps_loop_mismatch order os nm i j d b rest acc oj secs :
  i ≠ j → order !! j = Some oj → object_sections_get os nm = Ok secs →
  Some oj ∈ secs → name d ≠ nm →
  deps_loop order os nm i j ((d :: b) :: rest) acc = Ok None.
Proof.
  intros Hij Hoj Hsecs Hin Hd. cbn [deps_loop].
  rewrite decide_False by done. rewrite (getitem_lookup _ _ _ Hoj), Hsecs.
  cbn [mbind res_bind]. rewrite decide_True by done.
  cbn. by rewrite decide_False.
Qed.

Lemma select_loop_unmatched order os buckets i x b rest :
  deps_loop order os (name x) i 0 buckets [x] = Ok None →
  select_loop order os buckets i ((x :: b) :: rest)
  = select_loop order os buckets (S i) rest.
Proof. intros H. cbn [select_loop]. by rewrite H. Qed.

Section adversarial.
Variables (t : SliceTable) (nA nB : string) (At Bt Ad Bd : Slice).
Hypothesis HAB : nA ≠ nB.
Hypothesis HAt : name At = Some nA ∧ section At = Some "text"%string.
Hypothesis HAd : name Ad = Some nA ∧ section Ad = Some "data"%string.
Hypothesis HBt : name Bt = Some nB ∧ section Bt = Some "text"%string.
Hypothesis HBd : name Bd = Some nB ∧ section Bd = Some "data"%string.
Hypothesis Hnamed :
  filter (fun s => has_name s) (slices t) ≡ₚ [At; Bt; Ad; Bd].
Hypothesis Htext : start At < start Bt.
Hypothesis Hdata : start Bd < start Ad.

Local Lemma named_elem s :
  s ∈ slices t → has_name s = true → s ∈ [At; Bt; Ad; Bd].
Proof.
  intros Hs Hn. rewrite <- Hnamed. apply list_elem_of_filter.
  split; [by apply Is_true_true|done].
Qed.

Local Lemma elem_named s : s ∈ [At; Bt; Ad; Bd] → s ∈ slices t.
Proof.
  intros Hs. rewrite <- Hnamed in Hs.
  by apply list_elem_of_filter in Hs as [_ ?].
Qed.

Local Lemma four_cases s :
  s ∈ [At; Bt; Ad; Bd] → s = At ∨ s = Bt ∨ s = Ad ∨ s = Bd.
Proof.
  intros Hs. repeat (apply elem_of_cons in Hs as [->|Hs]); auto.
  by apply elem_of_nil in Hs.
Qed.

Local Lemma bucket_perm k :
  bucket_of SECTION_ORDER k (slices t)
  ≡ₚ filter (fun s => index_of SECTION_ORDER (section s) = Ok k)
       [At; Bt; Ad; Bd].
Proof.
  rewrite <- Hnamed, list_filter_filter. unfold bucket_of.
  erewrite list_filter_iff; [reflexivity|].
  intros s. cbn. rewrite Is_true_true. tauto.
Qed.

Local Lemma bucket_text :
  sort_by_start (bucket_of SECTION_ORDER 3 (slices t)) = [At; Bt].
Proof.
  apply sort_perm_two; [|done]. rewrite bucket_perm.
  destruct HAt as [_ E1], HAd as [_ E2], HBt as [_ E3], HBd as [_ E4].
  rewrite !filter_cons, E1, E2, E3, E4. reflexivity.
Qed.

Local Lemma bucket_data :
  sort_by_start (bucket_of SECTION_ORDER 7 (slices t)) = [Bd; Ad].
Proof.
  apply sort_perm_two; [|done]. rewrite bucket_perm.
  destruct HAt as [_ E1], HAd as [_ E2], HBt as [_ E3], HBd as [_ E4].
  rewrite !filter_cons, E1, E2, E3, E4. cbn. apply Permutation_swap.
Qed.

Local Lemma bucket_other k :
  k ≠ 3%nat → k ≠ 7%nat → bucket_of SECTION_ORDER k (slices t) = [].
Proof.
  intros H3 H7. apply Permutation_nil_r. rewrite bucket_perm.
  destruct HAt as [_ E1], HAd as [_ E2], HBt as [_ E3], HBd as [_ E4].
  rewrite !filter_cons, E1, E2, E3, E4.
  assert (index_of SECTION_ORDER (Some "text"%string) = Ok 3%nat) as ->
    by reflexivity.
  assert (index_of SECTION_ORDER (Some "data"%string) = Ok 7%nat) as ->
    by reflexivity.
  rewrite !decide_False by congruence. done.
Qed.

Local Lemma sections_A x :
  x ∈ sections_of nA (slices t)
  ↔ x = Some "text"%string ∨ x = Some "data"%string.
Proof.
  unfold sections_of. rewrite elem_of_list_to_set, list_elem_of_fmap.
  destruct HAt as [N1 E1], HAd as [N2 E2], HBt as [N3 E3], HBd as [N4 E4].
  split.
  - intros (s & -> & [Hn Hs]%list_elem_of_filter).
    assert (has_name s = true) as Hh by (unfold has_name; by rewrite Hn).
    destruct (four_cases s (named_elem s Hs Hh)) as [->|[->|[->| ->]]];
      auto; congruence.
  - intros [->| ->].
    + exists At. split; [done|]. apply list_elem_of_filter.
      split; [done|]. apply elem_named. by left.
    + exists Ad. split; [done|]. apply list_elem_of_filter.
      split; [done|]. apply elem_named. by do 2 right; left.
Qed.

Local Lemma sections_B x :
  x ∈ sections_of nB (slices t)
  ↔ x = Some "text"%string ∨ x = Some "data"%string.
Proof.
  unfold sections_of. rewrite elem_of_list_to_set, list_elem_of_fmap.
  destruct HAt as [N1 E1], HAd as [N2 E2], HBt as [N3 E3], HBd as [N4 E4].
  split.
  - intros (s & -> & [Hn Hs]%list_elem_of_filter).
    assert (has_name s = true) as Hh by (unfold has_name; by rewrite Hn).
    destruct (four_cases s (named_elem s Hs Hh)) as [->|[->|[->| ->]]];
      auto; congruence.
  - intros [->| ->].
    + exists Bt. split; [done|]. apply list_elem_of_filter.
      split; [done|]. apply elem_named. by right; left.
    + exists Bd. split; [done|]. apply list_elem_of_filter.
      split; [done|]. apply elem_named. by do 3 right; left.
Qed.

Lemma adversarial_fails :
  object_slices t SECTION_ORDER = Err AssertionError.
Proof.
  destruct HAt as [N1 E1], HAd as [N2 E2], HBt as [N3 E3], HBd as [N4 E4].
  destruct (collect_Ok SECTION_ORDER (slices t)
              (replicate (length SECTION_ORDER) []) ∅)
    as (bs & os & Hcol & Hlen).
  { intros s Hs Hn.
    destruct (four_cases s (named_elem s Hs Hn)) as [->|[->|[->| ->]]];
      rewrite ?E1, ?E2, ?E3, ?E4; eexists; (split; [reflexivity|cbn; lia]). }
  unfold object_slices. rewrite Hcol. cbn [mbind res_bind].
  (* the buckets *)
  assert (bs = (fun k => bucket_of SECTION_ORDER k (slices t))
               <$> seq 0 13) as ->.
  { apply list_eq. intros k. rewrite (collect_buckets _ _ _ _ _ _ Hcol k).
    rewrite list_lookup_fmap.
    destruct (decide (k < 13)%nat) as [Hk|Hk].
    - rewrite lookup_replicate_2 by (cbn; lia).
      by rewrite lookup_seq_lt by lia.
    - rewrite (proj1 (lookup_replicate_None _ _ _)) by (cbn; lia).
      by rewrite lookup_seq_ge by lia. }
  cbn [seq fmap list_fmap].
  rewrite bucket_text, bucket_data, !bucket_other by done.
  cbn [sort_by_start foldr].
  (* the sections of the two objects *)
  destruct (collect_sections _ _ _ _ _ _ Hcol nA At)
    as (secsA & HosA & HsecsA); [apply elem_named; by left|done|].
  destruct (collect_sections _ _ _ _ _ _ Hcol nB Bt)
    as (secsB & HosB & HsecsB); [apply elem_named; by right; left|done|].
  assert (∀ x, x ∈ secsA ↔ x = Some "text"%string ∨ x = Some "data"%string)
    as HinA.
  { intros x. rewrite HsecsA, lookup_empty, elem_of_union, sections_A.
    cbn. set_solver. }
  assert (∀ x, x ∈ secsB ↔ x = Some "text"%string ∨ x = Some "data"%string)
    as HinB.
  { intros x. rewrite HsecsB, lookup_empty, elem_of_union, sections_B.
    cbn. set_solver. }
  assert (object_sections_get os (Some nA) = Ok secsA) as HgetA
    by (cbn; by rewrite HosA).
  assert (object_sections_get os (Some nB) = Ok secsB) as HgetB
    by (cbn; by rewrite HosB).
  clear Hcol Hlen HsecsA HsecsB HosA HosB.
  (* no bucket can be resolved *)
  set (buckets :=
         [[]; []; []; [At; Bt]; []; []; []; [Bd; Ad]; []; []; []; []; []]).
  assert (deps_loop SECTION_ORDER os (name At) 3 0 buckets [At] = Ok None)
    as HdA.
  { subst buckets. rewrite N1.
    do 3 (erewrite deps_loop_skip;
          [|lia|reflexivity|exact HgetA
           |rewrite HinA; intros [?|?]; discriminate]).
    rewrite deps_loop_same.
    do 3 (erewrite deps_loop_skip;
          [|lia|reflexivity|exact HgetA
           |rewrite HinA; intros [?|?]; discriminate]).
    eapply deps_loop_mismatch;
      [lia|reflexivity|exact HgetA|apply HinA; by right|congruence]. }
  assert (deps_loop SECTION_ORDER os (name Bd) 7 0 buckets [Bd] = Ok None)
    as HdB.
  { subst buckets. rewrite N4.
    do 3 (erewrite deps_loop_skip;
          [|lia|reflexivity|exact HgetB
           |rewrite HinB; intros [?|?]; discriminate]).
    eapply deps_loop_mismatch;
      [lia|reflexivity|exact HgetB|apply HinB; by left|congruence]. }
  assert (select_loop SECTION_ORDER os buckets 0 buckets = Ok None) as Hsel.
  { unfold buckets at 2. cbn [select_loop].
    rewrite HdA. cbn [mbind res_bind]. by rewrite HdB. }
  cbn [merge_loop total_len foldr length Nat.add Nat.ltb Nat.leb].
  by rewrite Hsel.
Qed.
End adversarial.

(** C5.  When the named slices of a table are exactly the text and data
    slices of two objects [A] and [B], with the text of [A] below the
    text of [B] and the data of [A] above the data of [B],
    [object_slices] fails: no bucket has a front slice whose object is at
    the front of all its buckets, and the assertion [resolved_row]
    fails. *)
Theorem object_slices_unsatisfiable t (nA nB : string) At Bt Ad Bd :
  nA ≠ nB →
  name At = Some nA ∧ section At = Some "text"%string →
  name Ad = Some nA ∧ section Ad = Some "data"%string →
  name Bt = Some nB ∧ section Bt = Some "text"%string →
  name Bd = Some nB ∧ section Bd = Some "data"%string →
  filter (fun s => has_name s) (slices t) ≡ₚ [At; Bt; Ad; Bd] →
  start At < start Bt → start Bd < start Ad →
  object_slices t SECTION_ORDER = Err AssertionError.
Proof. apply adversarial_fails. Qed.

Lemma object_slices_unsatisfiable_witness :
  partition_inv table_c5 ∧
  object_slices table_c5 SECTION_ORDER = Err AssertionError.
Proof.
  split; [apply partition_invb_sound; vm_compute; reflexivity|].
  apply (object_slices_unsatisfiable table_c5 "A" "B"
           (mkSlice 4 8 (Some "A"%string) (Some "text"%string) ∅)
           (mkSlice 8 12 (Some "B"%string) (Some "text"%string) ∅)
           (mkSlice 24 28 (Some "A"%string) (Some "data"%string) ∅)
           (mkSlice 20 24 (Some "B"%string) (Some "data"%string) ∅)).
  - discriminate.
  - split; reflexivity.
  - split; reflexivity.
  - split; reflexivity.
  - split; reflexivity.
  - cbn. do 2 apply Permutation_skip. apply Permutation_swap.
  - simpl. lia.
  - simpl. lia.
Defined.

(** ** Strings *)

Lemma chars_app s1 s2 : chars (s1 +:+ s2) = chars s1 ++ chars s2.
Proof.
  unfold chars. induction s1 as [|c s1 IH]; [done|].
  change (String c s1 +:+ s2) with (String c (s1 +:+ s2)).
  cbn [list_ascii_of_string app]. by rewrite IH.
Qed.

Lemma of_chars_chars s : of_chars (chars s) = s.
Proof. apply string_of_list_ascii_of_string. Qed.

Lemma chars_of_chars l : chars (of_chars l) = l.
Proof. apply list_ascii_of_string_of_list_ascii. Qed.

Lemma chars_inj s1 s2 : chars s1 = chars s2 → s1 = s2.
Proof.
  intros H. rewrite <- (of_chars_chars s1), <- (of_chars_chars s2).
  by rewrite H.
Qed.

Lemma string_app_inj_r s1 s2 suffix :
  s1 +:+ suffix = s2 +:+ suffix → s1 = s2.
Proof.
  intros H. apply chars_inj. apply (f_equal chars) in H.
  rewrite !chars_app in H. by apply app_inv_tail in H.
Qed.

(** The reversed characters of a string tell its suffix. *)
Lemma rev_chars_app s suffix :
  rev (chars (s +:+ suffix)) = rev (chars suffix) ++ rev (chars s).
Proof. by rewrite chars_app, rev_app_distr. Qed.

Lemma Start_not_End s1 s2 : (s1 +:+ "Start" ≠ s2 +:+ "End")%string.
Proof.
  intros H. apply (f_equal (fun s => rev (chars s))) in H.
  rewrite !rev_chars_app in H. cbn in H. discriminate.
Qed.

Lemma name_not_Start s : "name"%string ≠ (s +:+ "Start")%string.
Proof.
  intros H. apply (f_equal (fun s => rev (chars s))) in H.
  rewrite !rev_chars_app in H. cbn in H. discriminate.
Qed.


Lemma enabled_not_Start s : "enabled"%string ≠ (s +:+ "Start")%string.
Proof.
  intros H. apply (f_equal (fun s => rev (chars s))) in H.
  rewrite !rev_chars_app in H. cbn in H. discriminate.
Qed.


Lemma strip_not_Start s : "strip"%string ≠ (s +:+ "Start")%string.
Proof.
  intros H. apply (f_equal (fun s => rev (chars s))) in H.
  rewrite !rev_chars_app in H. cbn in H. discriminate.
Qed.


Lemma endswith_app s suffix : endswith (s +:+ suffix) suffix = true.
Proof.
  unfold endswith. apply bool_decide_eq_true. rewrite chars_app.
  by apply suffix_app_r.
Qed.

Lemma removesuffix_app s suffix : removesuffix (s +:+ suffix) suffix = s.
Proof.
  unfold removesuffix. rewrite endswith_app, chars_app, length_app.
  replace (length (chars s) + length (chars suffix) - length (chars suffix))%nat
    with (length (chars s)) by lia.
  by rewrite take_app_length, of_chars_chars.
Qed.



(** ** [hex] and [int(., 16)] *)









(** ** The row that the writer writes *)

Lemma entry_of_fold nm l s0 :
  entry_of nm l s0
  = foldl entry_step
      (set_fold (fun tag e => <[tag := "1"%string]> e)
         ({["name"%string := csv_field nm]} : gmap string string) (tags s0)) l.
Proof. reflexivity. Qed.

Lemma set_fold_tags_lookup (e : gmap string string) (T : gset string) k :
  set_fold (fun tag e => <[tag := "1"%string]> e) e T !! k
  = if decide (k ∈ T) then Some "1"%string else e !! k.
Proof.
  assert ((k ∈ T →
           set_fold (fun tag e => <[tag := "1"%string]> e) e T !! k
           = Some "1"%string) ∧
          (k ∉ T →
           set_fold (fun tag e => <[tag := "1"%string]> e) e T !! k
           = e !! k)) as [H1 H2].
  { apply (set_fold_ind_L
             (fun (b : gmap string string) (X : gset string) =>
                (k ∈ X → b !! k = Some "1"%string) ∧
                (k ∉ X → b !! k = e !! k))).
    - split; [set_solver|done].
    - intros x X r Hx [IH1 IH2]. destruct (decide (x = k)) as [->|Hne].
      + rewrite lookup_insert_eq. split; [done|set_solver].
      + rewrite lookup_insert_ne by done. split.
        * intros Hk. apply IH1. set_solver.
        * intros Hk. apply IH2. set_solver. }
  destruct (decide (k ∈ T)); auto.
Qed.





Lemma elem_of_flat_map {A B} (f : A → list B) (l : list A) y :
  y ∈ flat_map f l ↔ ∃ x, x ∈ l ∧ y ∈ f x.
Proof.
  rewrite list_elem_of_In, in_flat_map. split.
  - intros (x & Hx & Hy). exists x. by rewrite !list_elem_of_In.
  - intros (x & Hx & Hy). exists x. by rewrite <- !list_elem_of_In.
Qed.

(** The header that the writer writes is one that the reader accepts. *)
Lemma length_section_cols secs :
  length (flat_map section_cols secs) = (2 * length secs)%nat.
Proof. induction secs as [|sec secs IH]; cbn; [done|]. rewrite IH. lia. Qed.

Lemma header_sections_cols secs :
  header_sections (flat_map section_cols secs) = Ok secs.
Proof.
  induction secs as [|sec secs IH]; [done|].
  cbn [flat_map section_cols app header_sections].
  rewrite !endswith_app, !removesuffix_app. cbn [assert mbind res_bind].
  rewrite bool_decide_eq_true_2 by done. cbn [assert mbind res_bind].
  by rewrite IH.
Qed.

Lemma writer_cols_parts secs :
  drop 3 (writer_cols secs) = flat_map section_cols secs ∧
  take 2 (writer_cols secs) = ["enabled"%string; "strip"%string] ∧
  index_from (writer_cols secs) 0 "name" = Ok 2%nat.
Proof. repeat split; reflexivity. Qed.

Lemma reader_init_cols secs :
  secs ≠ [] →
  SlicesCSVReader_init (writer_cols secs)
  = Ok (mkReader (length (writer_cols secs))
          ["enabled"%string; "strip"%string] secs).
Proof.
  intros Hne. unfold SlicesCSVReader_init.
  destruct (writer_cols_parts secs) as (Hd & Ht & ->).
  cbn [mbind res_bind]. rewrite Hd, Ht, length_section_cols.
  destruct secs as [|sec secs]; [done|].
  replace ((2 * length (sec :: secs)) mod 2)%nat with 0%nat.
  2: { symmetry. rewrite Nat.mul_comm. apply Nat.Div0.mod_mul. }
  cbn [length Nat.mul Nat.add Nat.ltb Nat.leb Nat.eqb andb assert
         mbind res_bind].
  by rewrite header_sections_cols.
Qed.

Section one_object.
Variables (secs : list string) (nm : option string) (n : string).
Variables (l : list Slice) (s0 : Slice).
Hypothesis Hn : nm = Some n.
Hypothesis Hhead : head l = Some s0.
Hypothesis Htags : tags s0 ⊆ {["enabled"%string; "strip"%string]}.
Hypothesis Hslices :
  ∀ s, s ∈ l →
    name s = nm ∧ (∃ sec, section s = Some sec ∧ sec ∈ secs) ∧
    start s ≤ stop s.
Hypothesis Hnodup : NoDup (section <$> l).

Local Notation entry := (entry_of nm l s0).
Local Notation cell := (fun c : string => default ""%string (entry !! c)).











End one_object.

(** ** C6: writing the objects and reading them back *)



(** ** The objects that [object_slices] builds *)

Lemma index_from_elem order : ∀ i x k,
  index_from order i x = Ok k → x ∈ order.
Proof.
  induction order as [|y order IH]; intros i x k H; [done|].
  cbn [index_from] in H. destruct (decide (y = x)) as [->|_]; [by left|].
  right. by eapply IH.
Qed.

Lemma index_of_Ok order x k :
  index_of order x = Ok k → ∃ sec, x = Some sec ∧ sec ∈ order.
Proof.
  destruct x as [sec|]; [|done]. intros H. exists sec. split; [done|].
  by eapply index_from_elem.
Qed.

Lemma insert_by_start_elem x l s :
  s ∈ insert_by_start x l ↔ s = x ∨ s ∈ l.
Proof.
  induction l as [|y l IH]; cbn [insert_by_start].
  - rewrite list_elem_of_singleton, elem_of_nil. tauto.
  - destruct (start x <=? start y).
    + by rewrite elem_of_cons.
    + rewrite !elem_of_cons, IH. tauto.
Qed.

Lemma sort_by_start_elem l s : s ∈ sort_by_start l ↔ s ∈ l.
Proof.
  unfold sort_by_start. induction l as [|x l IH]; [done|].
  cbn [foldr]. rewrite insert_by_start_elem, IH, elem_of_cons. tauto.
Qed.

Lemma collect_buckets_ok order t bs os :
  collect order (replicate (length order) [], ∅) (slices t) = Ok (bs, os) →
  buckets_ok order t (sort_by_start <$> bs).
Proof.
  intros H k b s Hb Hs. rewrite list_lookup_fmap in Hb.
  rewrite (collect_buckets _ _ _ _ _ _ H k) in Hb.
  destruct (replicate (length order) [] !! k) as [b0|] eqn:E; [|done].
  apply lookup_replicate in E as [-> _]. cbn in Hb. injection Hb as <-.
  apply (proj1 (sort_by_start_elem _ _)) in Hs. unfold bucket_of in Hs.
  apply list_elem_of_filter in Hs as [[Hn Hi] Hin].
  split; [by apply Is_true_true|done].
Qed.

Lemma pop_slices_ok order t ss : ∀ buckets j buckets',
  buckets_ok order t buckets → pop_slices buckets j ss = Ok buckets' →
  buckets_ok order t buckets'.
Proof.
  induction ss as [|s ss IH]; intros buckets j buckets' Hok H.
  - by injection H as <-.
  - cbn [pop_slices] in H. apply bind_Ok in H as (j' & _ & H).
    apply bind_Ok in H as (bucket & Hb%getitem_Ok & H).
    eapply IH; [|exact H]. intros k b x Hk Hx.
    destruct (decide (j' = k)) as [->|Hne].
    + rewrite list_lookup_insert_eq in Hk by (by eapply lookup_lt_Some).
      injection Hk as <-. apply (Hok k bucket x Hb).
      destruct bucket; [done|]. by right.
    + rewrite list_lookup_insert_ne in Hk by done. by eapply Hok.
Qed.

Lemma deps_loop_ok order t os nm i buckets :
  buckets_ok order t buckets →
  ∀ rest j acc ks ss,
    (∀ (m : nat) b, rest !! m = Some b → buckets !! (j + m)%nat = Some b) →
    Forall2 (fun s k => in_bucket order t k s ∧ name s = nm) acc ks →
    (∀ k, k ∈ ks → (k < j)%nat ∨ k = i) → NoDup ks →
    deps_loop order os nm i j rest acc = Ok (Some ss) →
    ∃ more ks',
      ss = acc ++ more ∧
      Forall2 (fun s k => in_bucket order t k s ∧ name s = nm) ss ks' ∧
      NoDup ks'.
Proof.
  intros Hok. induction rest as [|dep rest IH];
    intros j acc ks ss Hrest Hacc Hks Hnd H.
  { injection H as <-. exists [], ks. by rewrite app_nil_r. }
  assert (∀ (m : nat) b, rest !! m = Some b →
            buckets !! (S j + m)%nat = Some b) as Hrest'.
  { intros m b Hm. replace (S j + m)%nat with (j + S m)%nat by lia.
    by apply Hrest. }
  assert (∀ k, k ∈ ks → (k < S j)%nat ∨ k = i) as Hks'.
  { intros k Hk. destruct (Hks k Hk); [left; lia|by right]. }
  cbn [deps_loop] in H. destruct (decide (i = j)) as [->|Hij].
  { by eapply IH. }
  apply bind_Ok in H as (oj & _ & H). apply bind_Ok in H as (secs & _ & H).
  destruct (decide (Some oj ∈ secs)) as [_|_]; [|by eapply IH].
  apply bind_Ok in H as (d & Hd%getitem_Ok & H).
  destruct (decide (name d = nm)) as [Hname|_]; [|done].
  assert (in_bucket order t j d) as Hin.
  { apply (Hok j dep d).
    - replace j with (j + 0)%nat by lia. by apply Hrest.
    - by eapply list_elem_of_lookup_2. }
  destruct (IH (S j) (acc ++ [d]) (ks ++ [j]) ss)
    as (more & ks' & -> & HF & Hnd'); try done.
  - apply Forall2_app; [done|]. constructor; [by split|constructor].
  - intros k [Hk|Hk%list_elem_of_singleton]%elem_of_app; [by apply Hks'|].
    left. lia.
  - apply NoDup_app. split; [done|]. split; [|apply NoDup_singleton].
    intros k Hk Hj. apply list_elem_of_singleton in Hj. subst k.
    destruct (Hks _ Hk); [lia|congruence].
  - exists (d :: more), ks'. split; [by rewrite <- app_assoc|done].
Qed.

Lemma in_bucket_sections_NoDup order t nm ss : ∀ ks,
  Forall2 (fun s k => in_bucket order t k s ∧ name s = nm) ss ks →
  NoDup ks → NoDup (section <$> ss).
Proof.
  induction ss as [|s ss IH]; intros ks HF Hnd; [constructor|].
  apply Forall2_cons_inv_l in HF as (k & ks' & [Hs _] & HF & ->).
  apply NoDup_cons in Hnd as [Hk Hnd]. cbn [fmap list_fmap].
  apply NoDup_cons. split; [|by eapply IH].
  intros (s' & Heq & Hs')%list_elem_of_fmap. apply Hk.
  apply list_elem_of_lookup in Hs' as [m Hm].
  destruct (Forall2_lookup_l _ _ _ _ _ HF Hm) as (k' & Hk' & [Hs'' _]).
  destruct Hs as (_ & Hi & _), Hs'' as (_ & Hi' & _).
  rewrite Heq, Hi' in Hi. injection Hi as ->.
  by eapply list_elem_of_lookup_2.
Qed.

Lemma select_loop_ok order t os buckets :
  buckets_ok order t buckets →
  ∀ rest i nm ss buckets',
    (∀ (m : nat) b, rest !! m = Some b → buckets !! (i + m)%nat = Some b) →
    select_loop order os buckets i rest = Ok (Some (nm, ss, buckets')) →
    object_ok order t (nm, ss) ∧ buckets_ok order t buckets'.
Proof.
  intros Hok. induction rest as [|bucket rest IH];
    intros i nm ss buckets' Hrest H; [done|].
  assert (∀ (m : nat) b, rest !! m = Some b →
            buckets !! (S i + m)%nat = Some b) as Hrest'.
  { intros m b Hm. replace (S i + m)%nat with (i + S m)%nat by lia.
    by apply Hrest. }
  cbn [select_loop] in H. destruct bucket as [|x bucket]; [by eapply IH|].
  apply bind_Ok in H as (r & Hdeps & H).
  destruct r as [ss'|]; [|by eapply IH].
  apply bind_Ok in H as (bs & Hpop & [= <- <- <-]).
  split; [|by eapply pop_slices_ok].
  assert (in_bucket order t i x) as Hx.
  { apply (Hok i (x :: bucket) x); [|by left].
    replace i with (i + 0)%nat by lia. by apply Hrest. }
  destruct (deps_loop_ok order t os (name x) i buckets Hok buckets 0 [x] [i]
              ss') as (more & ks' & -> & HF & Hnd); try done.
  - constructor; [by split|constructor].
  - intros k ->%list_elem_of_singleton. by right.
  - apply NoDup_singleton.
  - split; [|split; [done|split]]; cbn [fst snd].
    + destruct Hx as (Hn & _). unfold has_name in Hn.
      destruct (name x); [eauto|done].
    + intros s Hs. apply list_elem_of_lookup in Hs as [m Hm].
      destruct (Forall2_lookup_l _ _ _ _ _ HF Hm)
        as (k & _ & (_ & Hi & Hin) & Hname).
      split; [done|]. split; [done|]. by eapply index_of_Ok.
    + by eapply in_bucket_sections_NoDup.
Qed.

Lemma dict_set_Forall {V} (P : option string * V → Prop) d k v :
  Forall P d → P (k, v) → Forall P (dict_set d k v).
Proof.
  intros Hd Hkv. induction Hd as [|[k' v'] d Hk' Hd IH]; cbn [dict_set].
  - by repeat constructor.
  - destruct (decide (k' = k)); constructor; done.
Qed.

Lemma merge_loop_ok order t os fuel : ∀ buckets objects objects',
  buckets_ok order t buckets → Forall (object_ok order t) objects →
  merge_loop fuel order os buckets objects = Ok objects' →
  Forall (object_ok order t) objects'.
Proof.
  induction fuel as [|fuel IH]; intros buckets objects objects' Hb Ho H;
    [done|].
  cbn [merge_loop] in H.
  destruct (0 <? total_len buckets)%nat; [|by injection H as <-].
  apply bind_Ok in H as (r & Hsel & H).
  destruct r as [[[nm ss] buckets']|]; [|done].
  destruct (select_loop_ok order t os buckets Hb buckets 0 nm ss buckets')
    as [Hobj Hb']; [done|done|].
  eapply IH; [exact Hb'| |exact H]. by apply dict_set_Forall.
Qed.

Lemma object_slices_ok t order objects :
  object_slices t order = Ok objects → Forall (object_ok order t) objects.
Proof.
  unfold object_slices. intros H.
  apply bind_Ok in H as ([bs os] & Hcol & H).
  eapply merge_loop_ok; [|constructor|exact H].
  by eapply collect_buckets_ok.
Qed.






(** * Further properties *)

Ltac zsolve := zbool; simpl; intros; first [lia | done | discriminate].

(** ** [find] *)

Lemma find_from_index l : ∀ k p s i,
  find_from l k p = Some (s, i) →
  (k ≤ i)%nat ∧ l !! (i - k)%nat = Some s ∧ contains_addr s p = true.
Proof.
  induction l as [|x l IH]; intros k p s i H; [done|].
  cbn [find_from] in H. destruct (contains_addr x p) eqn:E.
  - injection H as <- <-. rewrite Nat.sub_diag. done.
  - apply IH in H as (Hk & Hl & Hc). split; [lia|]. split; [|done].
    replace (i - k)%nat with (S (i - S k)) by lia. done.
Qed.

Lemma tiles_contains_unique a l b p (i j : nat) x y :
  tiles a l b → l !! i = Some x → l !! j = Some y →
  contains_addr x p = true → contains_addr y p = true → i = j.
Proof.
  intros Ht Hx Hy Hcx Hcy. unfold contains_addr in *.
  destruct (decide (i < j)%nat) as [Hlt|Hge].
  { pose proof (tiles_lookup_lt _ _ _ _ _ _ _ Ht Hx Hy Hlt).
    revert Hcx Hcy. zsolve. }
  destruct (decide (j < i)%nat) as [Hlt|Hge']; [|lia].
  pose proof (tiles_lookup_lt _ _ _ _ _ _ _ Ht Hy Hx Hlt).
  revert Hcx Hcy. zsolve.
Qed.

Lemma find_tiles a l b p s (i : nat) :
  tiles a l b →
  find_from l 0 p = Some (s, i) ↔ l !! i = Some s ∧ contains_addr s p = true.
Proof.
  intros Ht. split.
  - intros H. apply find_from_index in H as (_ & Hl & Hc).
    by rewrite Nat.sub_0_r in Hl.
  - intros [Hl Hc].
    assert (a ≤ p < b) as Hp.
    { apply list_elem_of_lookup_2 in Hl.
      pose proof (tiles_elem _ _ _ _ Ht Hl). unfold contains_addr in Hc.
      revert Hc. zsolve. }
    destruct (tiles_find _ _ _ _ Ht Hp) as (l1 & tg & l2 & -> & Hc' & Hf).
    rewrite (find_from_app _ _ _ 0 p Hf Hc'). cbn [Nat.add].
    assert (length l1 = i) as <-.
    { eapply (tiles_contains_unique _ _ _ p); [exact Ht| |exact Hl|done..].
      by apply list_lookup_middle. }
    rewrite list_lookup_middle in Hl by done. by injection Hl as ->.
Qed.

Lemma find_tiles_None a l b p :
  tiles a l b → find_from l 0 p = None ↔ ¬ (a ≤ p < b).
Proof.
  intros Ht. split.
  - intros H Hp.
    destruct (tiles_find _ _ _ _ Ht Hp) as (l1 & tg & l2 & -> & Hc' & Hf).
    by rewrite (find_from_app _ _ _ 0 p Hf Hc') in H.
  - intros Hp. apply find_from_None. apply Forall_forall. intros s Hs.
    pose proof (tiles_elem _ _ _ _ Ht Hs). unfold contains_addr.
    zsolve.
Qed.

(** X1: in a table whose slices tile its range, [find] returns the slice
    at index [i] for an address exactly when that slice holds the address,
    and it returns nothing exactly for the addresses outside the range of
    the table. *)
Theorem find_characterised t p :
  tiling t →
  (∀ s (i : nat),
     find t p = Some (s, i)
     ↔ slices t !! i = Some s ∧ start s ≤ p < stop s) ∧
  (find t p = None ↔ ¬ (table_start t ≤ p < table_stop t)).
Proof.
  intros [Ht _]%tiling_tiles. split.
  - intros s i. unfold find. rewrite (find_tiles _ _ _ _ _ _ Ht).
    unfold contains_addr. split; intros [? H]; (split; [done|]);
      revert H; zsolve.
  - by apply find_tiles_None.
Qed.

Lemma find_characterised_witness :
  (∀ s (i : nat),
     find table_c2 6 = Some (s, i)
     ↔ slices table_c2 !! i = Some s ∧ start s ≤ 6 < stop s) ∧
  (find table_c2 6 = None ↔ ¬ (table_start table_c2 ≤ 6 < table_stop table_c2)).
Proof.
  apply (find_characterised table_c2 6).
  apply partition_invb_sound. vm_compute. reflexivity.
Defined.

(** ** The name of an address *)

Lemma find_from_name l p : ∀ k,
  match find_from l k p with Some (s, _) => name s | None => None end
  = name_at l p.
Proof.
  unfold name_at. generalize 0%nat. induction l as [|x l IH]; intros k0 k; [done|].
  cbn [find_from]. destruct (contains_addr x p); [done|].
  by rewrite (IH (S k0) (S k)).
Qed.

Lemma name_at_cons s l p :
  name_at (s :: l) p = if contains_addr s p then name s else name_at l p.
Proof.
  unfold name_at at 1. cbn [find_from].
  destruct (contains_addr s p); [done|]. apply find_from_name.
Qed.

Lemma name_at_nil p : name_at [] p = None.
Proof. done. Qed.

Lemma name_at_before a l b p : tiles a l b → p < a → name_at l p = None.
Proof.
  revert a. induction l as [|s l IH]; intros a Ht Hp; [done|].
  destruct Ht as (Hs & Hlt & Ht). rewrite name_at_cons.
  unfold contains_addr. zbool. cbn. eapply IH; [done|lia].
Qed.

Lemma name_at_after a l b p : tiles a l b → b ≤ p → name_at l p = None.
Proof.
  revert a. induction l as [|s l IH]; intros a Ht Hp; [done|].
  destruct Ht as (Hs & Hlt & Ht). rewrite name_at_cons.
  pose proof (tiles_le _ _ _ Ht).
  unfold contains_addr. zbool; cbn; by eapply IH.
Qed.

Lemma name_at_app a l1 m l2 b p :
  tiles a l1 m → tiles m l2 b →
  name_at (l1 ++ l2) p = if p <? m then name_at l1 p else name_at l2 p.
Proof.
  revert a. induction l1 as [|s l1 IH]; intros a H1 H2.
  - cbn in H1. subst m. cbn [app]. destruct (Z.ltb_spec p a); [|done].
    rewrite name_at_nil. by eapply name_at_before.
  - destruct H1 as (Hs & Hlt & H1). cbn [app]. rewrite !name_at_cons.
    pose proof (tiles_le _ _ _ H1).
    destruct (contains_addr s p) eqn:E.
    + unfold contains_addr in E. revert E. zsolve.
    + by eapply IH.
Qed.

Lemma name_at_unnamed l p :
  Forall (fun s => has_name s = false) l → name_at l p = None.
Proof.
  induction 1 as [|s l Hs _ IH]; [done|]. rewrite name_at_cons.
  apply has_name_false in Hs. by destruct (contains_addr s p).
Qed.

Lemma name_at_elem a l b s p :
  tiles a l b → s ∈ l → start s ≤ p < stop s → name_at l p = name s.
Proof.
  intros Ht Hs Hp. apply list_elem_of_lookup in Hs as [i Hi].
  assert (find_from l 0 p = Some (s, i)) as Hf.
  { apply (find_tiles _ _ _ _ _ _ Ht). split; [done|].
    unfold contains_addr. zsolve. }
  unfold name_at. by rewrite Hf.
Qed.

(** The names between [m1] and [m2] are those of the part of the list
    that tiles this range. *)
Lemma name_at_middle a l1 m1 w m2 l2 b p :
  tiles a l1 m1 → tiles m1 w m2 → tiles m2 l2 b →
  name_at (l1 ++ w ++ l2) p
  = if p <? m1 then name_at l1 p
    else if p <? m2 then name_at w p else name_at l2 p.
Proof.
  intros H1 Hw H2.
  rewrite (name_at_app a l1 m1 (w ++ l2) b).
  - by rewrite (name_at_app m1 w m2 l2 b).
  - done.
  - apply tiles_app. eauto.
Qed.

(** Replacing a part of the list by slices that tile the same range and
    give no other names than [f] changes the names accordingly. *)
Lemma name_at_replace a l1 m1 w w' m2 l2 b p :
  tiles a l1 m1 → tiles m1 w m2 → tiles m1 w' m2 → tiles m2 l2 b →
  name_at w' p = name_at w p →
  name_at (l1 ++ w' ++ l2) p = name_at (l1 ++ w ++ l2) p.
Proof.
  intros H1 Hw Hw' H2 Hp.
  rewrite (name_at_middle a l1 m1 w m2 l2 b) by done.
  rewrite (name_at_middle a l1 m1 w' m2 l2 b) by done.
  by rewrite Hp.
Qed.

(** ** [add], address by address *)

Lemma tiles_middle a l1 tg l2 b :
  tiles a (l1 ++ tg :: l2) b
  ↔ tiles a l1 (start tg) ∧ start tg < stop tg ∧ tiles (stop tg) l2 b.
Proof.
  rewrite tiles_app. split.
  - intros (m & H1 & <- & Hlt & H2). done.
  - intros (H1 & Hlt & H2). exists (start tg). done.
Qed.

Lemma name_at_splice tg r p :
  start r < stop r → contains_slice tg r = true →
  name_at (left_gap tg r ++ [r] ++ right_gap tg r) p
  = if (start r <=? p) && (p <? stop r) then name r else None.
Proof.
  intros Hr Hc. unfold contains_slice in Hc.
  destruct (left_gap_cases tg r) as [[Hl ->]|[Hl ->]],
    (right_gap_cases tg r) as [[Hg ->]|[Hg ->]];
    cbn [app]; rewrite ?name_at_cons, ?name_at_nil; unfold contains_addr;
    cbn [start stop name]; zbool; done.
Qed.

Lemma add_names_list t r t' :
  tiling t → add t r = Ok t' →
  ∀ p, name_at (slices t') p
       = if (start r <=? p) && (p <? stop r) then name r
         else name_at (slices t) p.
Proof.
  intros Ht Hadd p. pose proof Ht as [Htl _]%tiling_tiles.
  destruct (add_Ok_inv _ _ _ Hadd) as (Hr & _ & _).
  destruct (add_Ok_splice _ _ _ Ht Hadd)
    as (l1 & tg & l2 & Hl & _ & _ & Hn & Hc & ->).
  cbn [slices with_slices]. rewrite Hl in *.
  apply tiles_middle in Htl as (H1 & Hlt & H2).
  pose proof (tiles_splice tg r Hr Hc) as Hw.
  replace (l1 ++ left_gap tg r ++ [r] ++ right_gap tg r ++ l2)
    with (l1 ++ (left_gap tg r ++ [r] ++ right_gap tg r) ++ l2)
    by (by rewrite <- !app_assoc).
  rewrite (name_at_middle (table_start t) l1 (start tg)
             (left_gap tg r ++ [r] ++ right_gap tg r) (stop tg) l2
             (table_stop t) p H1 Hw H2).
  change (l1 ++ tg :: l2) with (l1 ++ [tg] ++ l2).
  rewrite (name_at_middle (table_start t) l1 (start tg) [tg] (stop tg) l2
             (table_stop t) p H1); [|by cbn|done].
  rewrite name_at_splice by done. rewrite name_at_cons, name_at_nil.
  apply has_name_false in Hn. rewrite Hn.
  unfold contains_slice in Hc. unfold contains_addr.
  revert Hc. zbool; done.
Qed.

Lemma add_elems t r t' :
  tiling t → add t r = Ok t' →
  r ∈ slices t' ∧
  (∀ s, s ∈ slices t → has_name s = true → s ∈ slices t').
Proof.
  intros Ht Hadd.
  destruct (add_Ok_splice _ _ _ Ht Hadd)
    as (l1 & tg & l2 & Hl & _ & _ & Hn & Hc & ->).
  cbn [slices with_slices]. split.
  - rewrite !elem_of_app, list_elem_of_singleton. tauto.
  - intros s Hs Hnamed. rewrite Hl in Hs.
    apply elem_of_app in Hs as [Hs|Hs]; [apply elem_of_app; by left|].
    apply elem_of_cons in Hs as [->|Hs]; [congruence|].
    rewrite !elem_of_app. tauto.
Qed.

(** X2: a successful [add] to a table whose slices tile its range leaves
    such a table, of which the new slice and every named slice of the old
    table are slices; the addresses of the new slice get its name, and
    every other address keeps the name it had. *)
Theorem add_names t r t' :
  tiling t → add t r = Ok t' →
  tiling t' ∧ r ∈ slices t' ∧
  (∀ s, s ∈ slices t → has_name s = true → s ∈ slices t') ∧
  ∀ p, name_at (slices t') p
       = if (start r <=? p) && (p <? stop r) then name r
         else name_at (slices t) p.
Proof.
  intros Ht Hadd. split; [by eapply add_keeps_tiling|].
  destruct (add_elems _ _ _ Ht Hadd) as [Hr Hs].
  split; [done|]. split; [done|]. by apply add_names_list.
Qed.

Lemma add_names_witness :
  let r := mkSlice 6 9 (Some "bar"%string) None ∅ in
  let t' := mkTable [mkSlice 0 4 (Some "foo"%string) None ∅;
                     mkSlice 4 6 None None ∅; r; mkSlice 9 16 None None ∅]
              0 16 in
  tiling t' ∧ r ∈ slices t' ∧
  (∀ s, s ∈ slices table_c2 → has_name s = true → s ∈ slices t') ∧
  ∀ p, name_at (slices t') p
       = if (start r <=? p) && (p <? stop r) then name r
         else name_at (slices table_c2) p.
Proof.
  apply (add_names table_c2 (mkSlice 6 9 (Some "bar"%string) None ∅)).
  - apply partition_invb_sound. vm_compute. reflexivity.
  - vm_compute. reflexivity.
Defined.

(** ** [remove], address by address *)

Lemma merge_left_names a l b k l' k' :
  tiles a l b → __merge_left l k = Ok (l', k') →
  ∀ p, name_at l' p = name_at l p.
Proof.
  intros Ht H p.
  destruct (merge_left_inv _ _ _ _ H)
    as [[-> ->]|(l1 & prev & cur & l2 & -> & -> & Hp & Hc & -> & ->)];
    [done|].
  apply tiles_middle in Ht as (H1 & Hlt & (Hs & Hlt' & H2)).
  change (l1 ++ prev :: cur :: l2) with (l1 ++ [prev; cur] ++ l2).
  change (l1 ++ set_stop prev (stop cur) :: l2)
    with (l1 ++ [set_stop prev (stop cur)] ++ l2).
  apply (name_at_replace a l1 (start prev) [prev; cur] _ (stop cur) l2 b);
    try done; try (cbn; repeat split; first [done | lia]).
  rewrite !name_at_unnamed; [done|by repeat constructor..].
Qed.

Lemma merge_right_names a l b k l' k' :
  tiles a l b → __merge_right l k = Ok (l', k') →
  ∀ p, name_at l' p = name_at l p.
Proof.
  intros Ht H p.
  destruct (merge_right_inv _ _ _ _ H)
    as [-> [->|(l1 & cur & next & l2 & -> & -> & Hc & Hn & ->)]]; [done|].
  apply tiles_middle in Ht as (H1 & Hlt & (Hs & Hlt' & H2)).
  change (l1 ++ cur :: next :: l2) with (l1 ++ [cur; next] ++ l2).
  change (l1 ++ set_start next (start cur) :: l2)
    with (l1 ++ [set_start next (start cur)] ++ l2).
  apply (name_at_replace a l1 (start cur) [cur; next] _ (stop next) l2 b);
    try done; try (cbn; repeat split; first [done | lia]).
  rewrite !name_at_unnamed; [done|by repeat constructor..].
Qed.

Lemma merge_left_total l k cur :
  l !! k = Some cur → has_name cur = false →
  ∃ l' k', __merge_left l k = Ok (l', k').
Proof.
  intros Hk Hn. unfold __merge_left. rewrite (getitem_lookup _ _ _ Hk).
  cbn [mbind res_bind]. rewrite Hn. cbn [negb assert mbind res_bind].
  destruct (0 <? k)%nat eqn:E; [|eauto].
  apply Nat.ltb_lt in E.
  destruct (lookup_lt_is_Some_2 l (k - 1)) as [prev Hp].
  { apply lookup_lt_Some in Hk. lia. }
  rewrite (getitem_lookup _ _ _ Hp). cbn [mbind res_bind].
  destruct (negb (has_name prev)); eauto.
Qed.

Lemma merge_right_total l k cur :
  l !! k = Some cur → has_name cur = false →
  ∃ l' k', __merge_right l k = Ok (l', k').
Proof.
  intros Hk Hn. unfold __merge_right. rewrite (getitem_lookup _ _ _ Hk).
  cbn [mbind res_bind]. rewrite Hn. cbn [negb assert mbind res_bind].
  destruct (k + 1 <? length l)%nat eqn:E; [|eauto].
  apply Nat.ltb_lt in E.
  destruct (lookup_lt_is_Some_2 l (k + 1)) as [next Hx]; [done|].
  rewrite (getitem_lookup _ _ _ Hx). cbn [mbind res_bind].
  destruct (negb (has_name next)); eauto.
Qed.

(** What a merge does to the gap and to the number of slices from the gap
    on. *)
Lemma merge_left_step a l b k g :
  tiles a l b → l !! k = Some g → has_name g = false →
  ∃ l' k' g',
    __merge_left l k = Ok (l', k') ∧ tiles a l' b ∧
    (∀ p, name_at l' p = name_at l p) ∧
    l' !! k' = Some g' ∧ has_name g' = false ∧
    start g' ≤ start g ∧ stop g' = stop g ∧
    (length l' - k' = length l - k)%nat.
Proof.
  intros Ht Hk Hn. destruct (merge_left_total l k g Hk Hn) as (l' & k' & H).
  pose proof (merge_left_tiles _ _ _ _ _ _ Ht H) as Ht'.
  pose proof (merge_left_names _ _ _ _ _ _ Ht H) as Hnames.
  destruct (merge_left_inv _ _ _ _ H)
    as [[-> ->]|(l1 & prev & cur & l2 & -> & -> & Hp & Hc & -> & ->)].
  { exists l, k, g. repeat split; first [done | lia]. }
  exists (l1 ++ set_stop prev (stop cur) :: l2), (length l1),
    (set_stop prev (stop cur)).
  replace (S (length l1)) with (length (l1 ++ [prev])) in Hk
    by (rewrite length_app; cbn; lia).
  change (l1 ++ prev :: cur :: l2) with (l1 ++ [prev] ++ cur :: l2) in Hk.
  rewrite app_assoc, list_lookup_middle in Hk by done. injection Hk as ->.
  apply tiles_middle in Ht as (H1 & Hlt & (Hs & Hlt' & H2)).
  repeat split; try done.
  - by apply list_lookup_middle.
  - cbn. lia.
  - rewrite !length_app. cbn [length]. lia.
Qed.

Lemma merge_right_step a l b k g :
  tiles a l b → l !! k = Some g → has_name g = false →
  ∃ l' g',
    __merge_right l k = Ok (l', k) ∧ tiles a l' b ∧
    (∀ p, name_at l' p = name_at l p) ∧
    l' !! k = Some g' ∧ has_name g' = false ∧
    start g' = start g ∧ stop g ≤ stop g' ∧
    (length l' ≤ length l)%nat.
Proof.
  intros Ht Hk Hn. destruct (merge_right_total l k g Hk Hn) as (l' & k' & H).
  pose proof (merge_right_tiles _ _ _ _ _ _ Ht H) as Ht'.
  pose proof (merge_right_names _ _ _ _ _ _ Ht H) as Hnames.
  destruct (merge_right_inv _ _ _ _ H)
    as [-> [->|(l1 & cur & next & l2 & -> & -> & Hc & Hx & ->)]].
  { exists l, g. repeat split; first [done | lia]. }
  exists (l1 ++ set_start next (start cur) :: l2),
    (set_start next (start cur)).
  rewrite list_lookup_middle in Hk by done. injection Hk as ->.
  apply tiles_middle in Ht as (H1 & Hlt & (Hs & Hlt' & H2)).
  repeat split; try done.
  - by apply list_lookup_middle.
  - cbn. lia.
  - rewrite !length_app. cbn [length]. lia.
Qed.

Lemma merge_gap_step a l b k g (at_start at_stop : bool) :
  tiles a l b → l !! k = Some g → has_name g = false →
  ∃ l' k' g',
    merge_gap l k at_start at_stop = Ok (l', k') ∧ tiles a l' b ∧
    (∀ p, name_at l' p = name_at l p) ∧
    l' !! k' = Some g' ∧ has_name g' = false ∧
    start g' ≤ start g ∧ stop g ≤ stop g' ∧
    (length l' - k' ≤ length l - k)%nat ∧
    (at_stop = false →
     stop g' = stop g ∧ (length l' - k' = length l - k)%nat).
Proof.
  intros Ht Hk Hn. unfold merge_gap.
  destruct at_start, at_stop; cbn [andb].
  - destruct (merge_left_step a l b k g Ht Hk Hn)
      as (l1 & k1 & g1 & -> & Ht1 & Hn1 & Hk1 & Hu1 & Hs1 & He1 & Hlen1).
    cbn [mbind res_bind].
    destruct (merge_right_step a l1 b k1 g1 Ht1 Hk1 Hu1)
      as (l2 & g2 & -> & Ht2 & Hn2 & Hk2 & Hu2 & Hs2 & He2 & Hlen2).
    exists l2, k1, g2. repeat split; try done; try lia.
    intros p. by rewrite Hn2.
  - destruct (merge_left_step a l b k g Ht Hk Hn)
      as (l1 & k1 & g1 & -> & Ht1 & Hn1 & Hk1 & Hu1 & Hs1 & He1 & Hlen1).
    exists l1, k1, g1. repeat split; try done; lia.
  - destruct (merge_right_step a l b k g Ht Hk Hn)
      as (l2 & g2 & -> & Ht2 & Hn2 & Hk2 & Hu2 & Hs2 & He2 & Hlen2).
    exists l2, k, g2. repeat split; try done; lia.
  - exists l, k, g. repeat split; try done; lia.
Qed.

Lemma carve_tiles tg ns ne :
  start tg ≤ ns → ns < ne → ne ≤ stop tg →
  tiles (start tg) (carve tg ns ne) (stop tg).
Proof.
  intros H1 H2 H3. unfold carve.
  destruct (left_part_cases tg ns) as [[Hl ->]|[Hl ->]],
    (right_part_cases tg ne) as [[Hr ->]|[Hr ->]];
    cbn; repeat split; lia.
Qed.

Lemma carve_names tg ns ne p :
  start tg ≤ ns → ns < ne → ne ≤ stop tg →
  name_at (carve tg ns ne) p
  = if (ns <=? p) && (p <? ne) then None else name_at [tg] p.
Proof.
  intros H1 H2 H3. unfold carve.
  destruct (left_part_cases tg ns) as [[Hl ->]|[Hl ->]],
    (right_part_cases tg ne) as [[Hr ->]|[Hr ->]];
    cbn [app]; rewrite ?name_at_cons, ?name_at_nil; unfold contains_addr;
    cbn [start stop name gap_of]; zbool; done.
Qed.

Lemma carve_gap_lookup l1 tg ns ne l2 :
  (l1 ++ carve tg ns ne ++ l2) !! (length l1 + length (left_part tg ns))%nat
  = Some (gap_of tg ns ne).
Proof.
  rewrite lookup_app_r'. unfold carve. rewrite <- !app_assoc.
  replace (length (left_part tg ns)) with (length (left_part tg ns) + 0)%nat
    by lia.
  by rewrite lookup_app_r'.
Qed.

(** One pass of the removal: the range [ns .. ne) of the target loses its
    name, and the index that is returned is that of a gap which spans the
    range. *)
Lemma remove_slice_step a l b idx tg ns ne :
  tiles a l b → l !! idx = Some tg →
  start tg ≤ ns → ns < ne → ne ≤ stop tg →
  ∃ l' idx' g,
    __remove_slice l idx ns ne = Ok (l', idx') ∧ tiles a l' b ∧
    (∀ p, name_at l' p
          = if (ns <=? p) && (p <? ne) then None else name_at l p) ∧
    l' !! idx' = Some g ∧ has_name g = false ∧
    start g ≤ ns ∧ ne ≤ stop g ∧
    (ne < stop tg → stop g = ne ∧ (S idx' < length l')%nat) ∧
    (ne = stop tg → (length l' - idx' ≤ length l - idx)%nat).
Proof.
  intros Ht Hidx H1 H2 H3.
  destruct (lookup_split _ _ _ Hidx) as (l1 & l2 & -> & ->).
  rewrite remove_slice_carve.
  rewrite !assert_true by (zsolve).
  cbn [mbind res_bind].
  apply tiles_middle in Ht as (Ht1 & Hlt & Ht2).
  pose proof (carve_tiles tg ns ne H1 H2 H3) as Hc.
  assert (tiles a (l1 ++ carve tg ns ne ++ l2) b) as Htm.
  { apply tiles_app. exists (start tg). split; [done|].
    apply tiles_app. by exists (stop tg). }
  destruct (merge_gap_step a (l1 ++ carve tg ns ne ++ l2) b
              (length l1 + length (left_part tg ns)) (gap_of tg ns ne)
              (start tg =? ns) (stop tg =? ne) Htm
              (carve_gap_lookup _ _ _ _ _) eq_refl)
    as (l' & k' & g' & -> & Ht' & Hn' & Hk' & Hu' & Hs' & He' & Hlen & Hex).
  exists l', k', g'. cbn [start stop gap_of] in *.
  assert (length (l1 ++ carve tg ns ne ++ l2)
          = (length l1 + length (left_part tg ns) + 1
             + length (right_part tg ne) + length l2)%nat) as Hlm.
  { unfold carve. rewrite !length_app. cbn [length]. lia. }
  rewrite Hlm in *. rewrite length_app in *. cbn [length] in *.
  split; [done|]. split; [done|]. split.
  { intros p. rewrite Hn'.
    rewrite (name_at_middle a l1 (start tg) (carve tg ns ne) (stop tg) l2 b)
      by done.
    change (l1 ++ tg :: l2) with (l1 ++ [tg] ++ l2).
    rewrite (name_at_middle a l1 (start tg) [tg] (stop tg) l2 b);
      [|done|by cbn|done].
    rewrite carve_names by done. zbool; done. }
  split; [done|]. split; [done|]. split; [done|]. split; [done|]. split.
  - intros Hlt'. destruct (Hex ltac:(zsolve)) as [-> Hl].
    split; [done|].
    destruct (right_part_cases tg ne) as [[_ E]|[? _]]; [|lia].
    rewrite E in *. cbn [length] in *. lia.
  - intros ->. destruct (right_part_cases tg (stop tg)) as [[? _]|[_ E]];
      [lia|]. rewrite E in *. cbn [length] in *. lia.
Qed.

Lemma tiles_lookup_last x l y (i : nat) g :
  tiles x l y → l !! i = Some g → l !! S i = None → stop g = y.
Proof.
  intros Ht Hi Hn. apply (tiles_last x l y g Ht).
  rewrite last_lookup. apply lookup_lt_Some in Hi as Hlt.
  apply lookup_ge_None in Hn. replace (pred (length l)) with i by lia. done.
Qed.

(** The loop of [__remove]: it ends, and what it leaves has no name from
    the start of the target (or from [a], if the target begins before it)
    up to [b]. *)
Lemma remove_loop_spec x y a b :
  a < b → b ≤ y →
  ∀ fuel l idx,
    tiles x l y →
    (∀ tg, l !! idx = Some tg → a < stop tg) →
    (length l - idx < fuel)%nat
    ∨ (0 < fuel)%nat ∧ (∀ tg, l !! idx = Some tg → b ≤ start tg) →
    ∃ l',
      remove_loop fuel l idx a b = Ok l' ∧ tiles x l' y ∧
      ∀ p, name_at l' p
           = if (match l !! idx with
                 | Some tg => Z.max a (start tg)
                 | None => y
                 end <=? p) && (p <? b)
             then None else name_at l p.
Proof.
  intros Hab Hby. induction fuel as [|fuel IH]; intros l idx Ht Hidx Hfuel.
  { destruct Hfuel as [?|[? _]]; lia. }
  cbn [remove_loop]. destruct (idx <? length l)%nat eqn:E.
  2:{ apply Nat.ltb_ge in E. exists l. split; [done|]. split; [done|].
      intros p. rewrite (proj2 (lookup_ge_None l idx)) by done.
      zbool; done. }
  apply Nat.ltb_lt in E.
  destruct (lookup_lt_is_Some_2 l idx E) as [tg Htg].
  rewrite (getitem_lookup _ _ _ Htg). cbn [mbind res_bind]. rewrite Htg.
  pose proof (tiles_elem _ _ _ _ Ht (list_elem_of_lookup_2 _ _ _ Htg))
    as (Hxs & Hpos & Hsy).
  pose proof (Hidx _ Htg) as Ha.
  destruct (Z.ltb_spec (start tg) b) as [Hsb|Hsb].
  2:{ exists l. split; [done|]. split; [done|]. intros p. zbool; done. }
  destruct Hfuel as [Hfuel|[_ Hex]]; [|specialize (Hex _ Htg); lia].
  destruct (remove_slice_step x l y idx tg (Z.max a (start tg))
              (Z.min b (stop tg)) Ht Htg)
    as (l1 & idx1 & g & -> & Ht1 & Hn1 & Hg & Hu & Hgs & Hge & Hcut & Hend);
    [lia..|].
  cbn [mbind res_bind]. rewrite Nat.add_1_r.
  assert (match l1 !! S idx1 with
          | Some n => Z.max a (start n)
          | None => y
          end = stop g) as Hc.
  { destruct (l1 !! S idx1) as [n|] eqn:En.
    - pose proof (tiles_contiguous _ _ _ Ht1 idx1 g n Hg En). lia.
    - by rewrite (tiles_lookup_last _ _ _ _ _ Ht1 Hg En). }
  destruct (IH l1 (S idx1) Ht1) as (l' & -> & Ht' & Hn').
  { intros n En.
    pose proof (tiles_contiguous _ _ _ Ht1 idx1 g n Hg En).
    pose proof (tiles_elem _ _ _ _ Ht1 (list_elem_of_lookup_2 _ _ _ En)).
    lia. }
  { destruct (decide (Z.min b (stop tg) < stop tg)) as [Hlt|Hge'].
    - right. split; [lia|]. intros n En. destruct (Hcut Hlt) as [Hs _].
      pose proof (tiles_contiguous _ _ _ Ht1 idx1 g n Hg En). lia.
    - left. apply lookup_lt_Some in Hg.
      assert (Z.min b (stop tg) = stop tg) as Heq by lia.
      specialize (Hend Heq). lia. }
  exists l'. split; [done|]. split; [done|].
  intros p. rewrite Hn', Hc, Hn1.
  assert (start g ≤ p < stop g → name_at l1 p = None) as Hin.
  { intros Hp. rewrite (name_at_elem _ _ _ g p Ht1); [|by eapply list_elem_of_lookup_2|done].
    by apply has_name_false. }
  rewrite Hn1 in Hin.
  destruct (decide (start g ≤ p < stop g)) as [Hp|Hp].
  - rewrite <- (Hin Hp). repeat (zbool; try done).
    all: try (rewrite (Hin Hp); done).
  - zbool; done.
Qed.

(** X3: on a table whose slices tile its range, [remove(a, b)] succeeds
    whenever the range, cut down to the table, is not empty.  It leaves a
    table that tiles the same range, in which no address of [a .. b) has a
    name and every other address has the name it had. *)
Theorem remove_names t a b :
  tiling t → Z.max a (table_start t) < Z.min b (table_stop t) →
  ∃ t',
    remove t a b = Ok t' ∧ tiling t' ∧
    table_start t' = table_start t ∧ table_stop t' = table_stop t ∧
    ∀ p, name_at (slices t') p
         = if (a <=? p) && (p <? b) then None else name_at (slices t) p.
Proof.
  intros Ht Hab. pose proof Ht as [Htl Hne]%tiling_tiles.
  unfold remove, __remove.
  destruct (tiles_decompose t (Z.max a (table_start t)) Ht)
    as (l1 & tg & l2 & Hl & Hc & Hf); [lia|].
  rewrite Hf.
  assert (slices t !! length l1 = Some tg) as Htg.
  { rewrite Hl. by apply list_lookup_middle. }
  unfold contains_addr in Hc.
  destruct (remove_loop_spec (table_start t) (table_stop t)
              (Z.max a (table_start t)) (Z.min b (table_stop t))
              Hab ltac:(lia) (length (slices t) + 2) (slices t) (length l1)
              Htl)
    as (l' & -> & Ht' & Hn').
  { intros tg' Htg'. rewrite Htg in Htg'. injection Htg' as <-.
    revert Hc. zsolve. }
  { left. lia. }
  cbn [mbind res_bind]. eexists. split; [done|]. cbn [slices with_slices
    table_start table_stop]. split; [|split; [done|split; [done|]]].
  - apply tiling_tiles. cbn [slices with_slices table_start table_stop].
    split; [done|]. eapply tiles_nonempty; [done|lia].
  - intros p. rewrite Hn', Htg.
    destruct (decide (table_start t ≤ p < table_stop t)) as [Hp|Hp].
    + revert Hc. zbool; done.
    + assert (name_at (slices t) p = None) as ->.
      { destruct (decide (p < table_start t)).
        - by eapply name_at_before.
        - eapply name_at_after; [done|lia]. }
      by repeat case_match.
Qed.

Lemma remove_names_witness :
  let t := mkTable [mkSlice 0 4 (Some "foo"%string) None ∅;
                    mkSlice 4 6 None None ∅;
                    mkSlice 6 9 (Some "bar"%string) None ∅;
                    mkSlice 9 16 None None ∅] 0 16 in
  ∃ t',
    remove t 2 7 = Ok t' ∧ tiling t' ∧
    table_start t' = 0 ∧ table_stop t' = 16 ∧
    ∀ p, name_at (slices t') p
         = if (2 <=? p) && (p <? 7) then None else name_at (slices t) p.
Proof.
  apply (remove_names
           (mkTable [mkSlice 0 4 (Some "foo"%string) None ∅;
                     mkSlice 4 6 None None ∅;
                     mkSlice 6 9 (Some "bar"%string) None ∅;
                     mkSlice 9 16 None None ∅] 0 16) 2 7).
  - apply partition_invb_sound. vm_compute. reflexivity.
  - cbn. lia.
Defined.

(** X4: [remove] of a range that begins at or after the end of the table
    raises a [TypeError]: [find] gives no index, and the loop compares
    [None] with a length. *)
Theorem remove_beyond_end t a b :
  tiling t → table_stop t ≤ a → remove t a b = Err TypeError.
Proof.
  intros [Ht _]%tiling_tiles Ha. unfold remove, __remove.
  assert (find t (Z.max a (table_start t)) = None) as ->; [|done].
  apply (find_tiles_None _ _ _ _ Ht). lia.
Qed.

Lemma remove_beyond_end_witness : remove table_c2 16 20 = Err TypeError.
Proof.
  apply remove_beyond_end; [|cbn; lia].
  apply partition_invb_sound. vm_compute. reflexivity.
Defined.

(** X5: [remove] of a range that is empty once cut down to the table, and
    begins inside the table: the table stays as it is when the slice that
    holds the beginning starts at or after the end of the range, and
    otherwise an assertion of [__remove_slice] fails.  So [remove(x, x)]
    does nothing when a slice starts at [x], and fails for every other
    [x]. *)
Theorem remove_empty_range t a b tg i :
  tiling t → find t (Z.max a (table_start t)) = Some (tg, i) →
  Z.min b (table_stop t) ≤ Z.max a (table_start t) →
  remove t a b
  = if start tg <? Z.min b (table_stop t) then Err AssertionError
    else Ok t.
Proof.
  intros Ht Hf Hba. unfold remove, __remove. rewrite Hf.
  pose proof Ht as [Htl _]%tiling_tiles.
  pose proof Hf as (Hi & Hp)%(find_tiles _ _ _ _ _ _ Htl).
  replace (length (slices t) + 2)%nat with (S (S (length (slices t))))
    by lia.
  cbn [remove_loop]. apply lookup_lt_Some in Hi as Hlt.
  rewrite (proj2 (Nat.ltb_lt _ _) Hlt).
  rewrite (getitem_lookup _ _ _ Hi). cbn [mbind res_bind].
  destruct (Z.ltb_spec (start tg) (Z.min b (table_stop t))) as [Hs|Hs].
  - unfold __remove_slice. rewrite (getitem_lookup _ _ _ Hi).
    cbn [mbind res_bind].
    assert (Z.max (Z.max a (table_start t)) (start tg) <?
            Z.min (Z.min b (table_stop t)) (stop tg) = false) as ->
      by (apply Z.ltb_ge; lia).
    done.
  - cbn [mbind res_bind]. by destruct t.
Qed.

Lemma remove_empty_range_witness :
  remove table_c2 6 6 = Err AssertionError ∧ remove table_c2 4 4 = Ok table_c2.
Proof.
  assert (tiling table_c2) as Ht
    by (apply partition_invb_sound; vm_compute; reflexivity).
  split.
  - apply (remove_empty_range table_c2 6 6 (mkSlice 4 16 None None ∅) 1 Ht);
      [reflexivity|cbn; lia].
  - apply (remove_empty_range table_c2 4 4 (mkSlice 4 16 None None ∅) 1 Ht);
      [reflexivity|cbn; lia].
Defined.

(** ** [Slice.split] *)






Lemma split_loop_empty s : stop s ≤ start s →
  ∀ addrs, split_loop s (start s) addrs = Ok [].
Proof.
  intros Hs. induction addrs as [|addr addrs IH]; [done|].
  cbn [split_loop].
  destruct ((addr <? start s) || (addr >? stop s)) eqn:E; [done|].
  assert (addr = start s ∧ start s = stop s) as [-> Heq]
    by (revert E; zsolve).
  rewrite copy_Ok by lia. cbn [mbind res_bind].
  unfold contains_slice, len. cbn [start stop set_start set_stop].
  rewrite Z.leb_refl. rewrite Z.geb_leb.
  rewrite (proj2 (Z.leb_le _ _)) by lia. cbn [andb assert mbind res_bind].
  rewrite Z.sub_diag. cbn [Z.gtb Z.compare mbind res_bind].
  rewrite IH. done.
Qed.



(** X7: [split] yields nothing for a slice that is empty or that ends
    before it starts, whatever the split addresses are. *)
Theorem split_empty s split_addrs :
  stop s ≤ start s → split s split_addrs = Ok [].
Proof. intros Hs. by apply split_loop_empty. Qed.

Lemma split_empty_witness :
  split (mkSlice 5 5 (Some "foo"%string) None ∅) [5; 6] = Ok [].
Proof. apply split_empty. cbn. lia. Defined.

(** ** [SliceTable.__copy__] and [SliceTable.filter] *)

Lemma copy_all_Ok l l' :
  copy_all l = Ok l' ↔ l' = l ∧ Forall (fun s => start s ≤ stop s) l.
Proof.
  revert l'. induction l as [|s l IH]; intros l'; cbn [copy_all].
  - split; [by intros [= <-]|by intros [-> _]].
  - split.
    + intros (c & [-> Hs]%copy_inv & (cs & [-> Hl]%IH & [= <-])%bind_Ok)%bind_Ok.
      split; [done|by constructor].
    + intros [-> [Hs Hl]%Forall_cons]. rewrite copy_Ok by done.
      cbn [mbind res_bind]. rewrite (proj2 (IH l)) by done. done.
Qed.

Lemma copy_all_Err l e : copy_all l = Err e → e = AssertionError.
Proof.
  induction l as [|s l IH]; cbn [copy_all]; [done|].
  unfold copy, Slice_init, assert.
  destruct (start s <=? stop s); cbn [mbind res_bind]; [|by intros [= <-]].
  destruct (copy_all l); cbn [mbind res_bind]; [done|]. intros [= <-].
  by apply IH.
Qed.

(** X8: [copy(table)] gives a table with the same range and the same
    slices.  It fails, with an assertion of a constructor, exactly when the
    range of the table is empty or one of its slices ends before it
    starts. *)
Theorem table_copy_characterised t :
  (∀ t', table_copy t = Ok t'
         ↔ t' = t ∧ table_start t < table_stop t
           ∧ Forall (fun s => start s ≤ stop s) (slices t)) ∧
  (∀ e, table_copy t = Err e → e = AssertionError).
Proof.
  unfold table_copy, SliceTable_init, Slice_gap, Slice_init, assert. split.
  - intros t'. destruct (Z.ltb_spec (table_start t) (table_stop t)) as [H|H];
      cbn [mbind res_bind].
    2:{ split; [done|]. intros (_ & ? & _). lia. }
    rewrite (proj2 (Z.leb_le _ _)) by lia. cbn [mbind res_bind].
    split.
    + intros (l & [-> Hl]%copy_all_Ok & [= <-])%bind_Ok.
      split; [by destruct t|done].
    + intros (-> & _ & Hl). rewrite (proj2 (copy_all_Ok _ _)) by done.
      cbn [mbind res_bind]. by destruct t.
  - intros e. destruct (Z.ltb_spec (table_start t) (table_stop t)) as [H|H];
      cbn [mbind res_bind]; [|by intros [= <-]].
    rewrite (proj2 (Z.leb_le _ _)) by lia. cbn [mbind res_bind].
    destruct (copy_all (slices t)) eqn:E; cbn [mbind res_bind]; [done|].
    intros [= <-]. by eapply copy_all_Err.
Qed.








(** ** [slice] of the whole range, and of a slice *)









(** ** More on [object_slices] *)

(** X12: every object that [object_slices] returns has a name and at
    least one slice; its slices are slices of the table that bear this
    name, and they lie in sections of the order, no two of them in the
    same section. *)
Theorem object_slices_sound t order objects :
  object_slices t order = Ok objects →
  Forall (object_ok order t) objects.
Proof. apply object_slices_ok. Qed.

Lemma object_slices_sound_witness :
  Forall (object_ok ["text"; "data"]%string table_c6) objects_c6.
Proof.
  apply (object_slices_sound table_c6 ["text"; "data"]%string objects_c6).
  vm_compute. reflexivity.
Defined.

Lemma index_from_Err order x : ∀ i e,
  index_from order i x = Err e → e = ValueError ∧ x ∉ order.
Proof.
  induction order as [|y order IH]; intros i e H; cbn [index_from] in H.
  - injection H as <-. split; [done|]. apply not_elem_of_nil.
  - destruct (decide (y = x)) as [->|Hne]; [done|].
    destruct (IH _ _ H) as [-> Hx]. split; [done|].
    intros [->|?]%elem_of_cons; done.
Qed.

Lemma index_from_not_elem order x i :
  x ∉ order → index_from order i x = Err ValueError.
Proof.
  intros Hx. destruct (index_from order i x) as [k|e] eqn:E.
  - by apply index_from_elem in E.
  - by apply index_from_Err in E as [-> _].
Qed.

Lemma collect_unknown_section order l : ∀ bs os s,
  length bs = length order → s ∈ l → has_name s = true →
  (∀ sec, section s = Some sec → sec ∉ order) →
  collect order (bs, os) l = Err ValueError.
Proof.
  induction l as [|s0 l IH]; intros bs os s Hlen Hs Hn Hsec.
  { by apply elem_of_nil in Hs. }
  cbn [collect]. unfold collect_step.
  destruct (name s0) as [n|] eqn:En.
  2:{ cbn [mbind res_bind]. apply elem_of_cons in Hs as [->|Hs].
      - apply has_name_true in Hn. done.
      - by eapply IH. }
  destruct (index_of order (section s0)) as [k|e] eqn:Ek.
  - cbn [mbind res_bind fst snd].
    assert (k < length bs)%nat as Hk.
    { destruct (section s0) as [sec|]; [|done]. cbn in Ek.
      apply index_from_lt in Ek. lia. }
    destruct (lookup_lt_is_Some_2 bs k Hk) as [b Hb].
    rewrite (getitem_lookup _ _ _ Hb). cbn [mbind res_bind].
    apply elem_of_cons in Hs as [->|Hs].
    + destruct (section s0) as [sec|]; [|done]. cbn in Ek.
      apply index_from_elem in Ek. by destruct (Hsec sec).
    + eapply IH; [|done..]. by rewrite length_insert.
  - cbn [mbind res_bind]. destruct (section s0) as [sec|]; cbn in Ek.
    + by apply index_from_Err in Ek as [-> _].
    + by injection Ek as <-.
Qed.

(** X13: when a named slice of the table has no section, or a section
    that is not in the order, [object_slices] raises a [ValueError]. *)
Theorem object_slices_unknown_section t order s :
  s ∈ slices t → has_name s = true →
  (∀ sec, section s = Some sec → sec ∉ order) →
  object_slices t order = Err ValueError.
Proof.
  intros Hs Hn Hsec. unfold object_slices.
  rewrite (collect_unknown_section order (slices t) _ _ s); try done.
  by rewrite length_replicate.
Qed.

Lemma object_slices_unknown_section_witness :
  object_slices table_c2 SECTION_ORDER = Err ValueError.
Proof.
  apply (object_slices_unknown_section table_c2 SECTION_ORDER
           (mkSlice 0 4 (Some "foo"%string) None ∅)).
  - by left.
  - done.
  - done.
Defined.

(** *** The merge loop ends *)

Lemma scan_bucket_Ok rest : ∀ j sec j',
  scan_bucket rest j sec = Ok j' →
  (j ≤ j')%nat ∧ ∃ x b, rest !! (j' - j)%nat = Some (x :: b).
Proof.
  induction rest as [|bucket rest IH]; intros j sec j' H; [done|].
  cbn [scan_bucket] in H. destruct bucket as [|x b].
  - apply IH in H as (Hj & x & b & Hl). split; [lia|]. exists x, b.
    replace (j' - j)%nat with (S (j' - S j)) by lia. done.
  - destruct (decide (section x = sec)).
    + injection H as <-. split; [lia|]. exists x, b.
      by rewrite Nat.sub_diag.
    + apply IH in H as (Hj & x' & b' & Hl). split; [lia|]. exists x', b'.
      replace (j' - j)%nat with (S (j' - S j)) by lia. done.
Qed.

Lemma total_len_insert buckets : ∀ (j : nat) b b',
  buckets !! j = Some b →
  (total_len (<[j := b']> buckets) + length b
   = total_len buckets + length b')%nat.
Proof.
  induction buckets as [|b0 buckets IH]; intros j b b' Hj; [done|].
  destruct j as [|j]; cbn in Hj.
  - injection Hj as ->. unfold total_len. cbn. lia.
  - specialize (IH j b b' Hj).
    change (<[S j := b']> (b0 :: buckets)) with (b0 :: <[j := b']> buckets).
    unfold total_len in *. cbn [foldr]. lia.
Qed.

Lemma pop_slices_len ss : ∀ buckets j buckets',
  pop_slices buckets j ss = Ok buckets' →
  (total_len buckets' + length ss = total_len buckets)%nat.
Proof.
  induction ss as [|s ss IH]; intros buckets j buckets' H.
  - injection H as <-. cbn. lia.
  - cbn [pop_slices] in H.
    apply bind_Ok in H as (j' & Hscan & H).
    apply bind_Ok in H as (bucket & Hb%getitem_Ok & H).
    apply scan_bucket_Ok in Hscan as (Hj & x & b & Hl).
    rewrite lookup_drop in Hl.
    replace (j + (j' - j))%nat with j' in Hl by lia.
    rewrite Hb in Hl. injection Hl as ->.
    apply IH in H.
    pose proof (total_len_insert buckets j' (x :: b) b Hb).
    cbn [length tail] in *. lia.
Qed.

Lemma deps_loop_prefix order os nm i : ∀ rest j acc ss,
  deps_loop order os nm i j rest acc = Ok (Some ss) →
  ∃ more, ss = acc ++ more.
Proof.
  induction rest as [|dep rest IH]; intros j acc ss H.
  { injection H as <-. exists []. by rewrite app_nil_r. }
  cbn [deps_loop] in H. destruct (decide (i = j)); [by eapply IH|].
  apply bind_Ok in H as (oj & _ & H). apply bind_Ok in H as (secs & _ & H).
  destruct (decide (Some oj ∈ secs)); [|by eapply IH].
  apply bind_Ok in H as (d & _ & H).
  destruct (decide (name d = nm)); [|done].
  apply IH in H as [more ->]. exists (d :: more). by rewrite <- app_assoc.
Qed.

Lemma select_loop_pops order os buckets : ∀ rest i nm ss buckets',
  select_loop order os buckets i rest = Ok (Some (nm, ss, buckets')) →
  (total_len buckets' < total_len buckets)%nat.
Proof.
  induction rest as [|bucket rest IH]; intros i nm ss buckets' H; [done|].
  cbn [select_loop] in H. destruct bucket as [|x bucket]; [by eapply IH|].
  apply bind_Ok in H as (r & Hdeps & H).
  destruct r as [ss'|]; [|by eapply IH].
  apply bind_Ok in H as (bs & Hpop & [= <- <- <-]).
  apply deps_loop_prefix in Hdeps as [more ->].
  apply pop_slices_len in Hpop. cbn [app length] in Hpop. lia.
Qed.

Lemma bind_Err {A B} (m : res A) (f : A → res B) e :
  m ≫= f = Err e → m = Err e ∨ ∃ a, m = Ok a ∧ f a = Err e.
Proof. destruct m as [a|e']; cbn; [eauto|]. intros [= ->]. by left. Qed.

Lemma getitem_Err {A} (l : list A) i e : getitem l i = Err e → e = IndexError.
Proof. unfold getitem. destruct (l !! i); congruence. Qed.

Lemma object_sections_get_Err os nm e :
  object_sections_get os nm = Err e → e = KeyError.
Proof.
  unfold object_sections_get. destruct nm as [n|]; [|congruence].
  destruct (os !! n); congruence.
Qed.

Lemma deps_loop_Err order os nm i : ∀ rest j acc e,
  deps_loop order os nm i j rest acc = Err e → e ≠ OutOfFuel.
Proof.
  induction rest as [|dep rest IH]; intros j acc e H; [done|].
  cbn [deps_loop] in H. destruct (decide (i = j)); [by eapply IH|].
  apply bind_Err in H as [->%getitem_Err|(oj & _ & H)]; [done|].
  apply bind_Err in H as [->%object_sections_get_Err|(secs & _ & H)]; [done|].
  destruct (decide (Some oj ∈ secs)); [|by eapply IH].
  apply bind_Err in H as [->%getitem_Err|(d & _ & H)]; [done|].
  destruct (decide (name d = nm)); [by eapply IH|done].
Qed.

Lemma scan_bucket_Err rest : ∀ j sec e,
  scan_bucket rest j sec = Err e → e = IndexError.
Proof.
  induction rest as [|bucket rest IH]; intros j sec e H; cbn in H;
    [congruence|].
  destruct bucket as [|x b]; [by eapply IH|].
  destruct (decide (section x = sec)); [done|by eapply IH].
Qed.

Lemma pop_slices_Err ss : ∀ buckets j e,
  pop_slices buckets j ss = Err e → e = IndexError.
Proof.
  induction ss as [|s ss IH]; intros buckets j e H; [done|].
  cbn [pop_slices] in H.
  apply bind_Err in H as [->%scan_bucket_Err|(j' & _ & H)]; [done|].
  apply bind_Err in H as [->%getitem_Err|(b & _ & H)]; [done|].
  by eapply IH.
Qed.

Lemma select_loop_Err order os buckets : ∀ rest i e,
  select_loop order os buckets i rest = Err e → e ≠ OutOfFuel.
Proof.
  induction rest as [|bucket rest IH]; intros i e H; [done|].
  cbn [select_loop] in H. destruct bucket as [|x bucket]; [by eapply IH|].
  apply bind_Err in H as [H|(r & _ & H)]; [by eapply deps_loop_Err|].
  destruct r as [ss|]; [|by eapply IH].
  apply bind_Err in H as [->%pop_slices_Err|(b & _ & H)]; done.
Qed.

Lemma merge_loop_fuel order os : ∀ fuel buckets objects,
  (total_len buckets < fuel)%nat →
  merge_loop fuel order os buckets objects ≠ Err OutOfFuel.
Proof.
  induction fuel as [|fuel IH]; intros buckets objects Hf; [lia|].
  cbn [merge_loop]. destruct (0 <? total_len buckets)%nat; [|done].
  destruct (select_loop order os buckets 0 buckets) as [r|e] eqn:E;
    cbn [mbind res_bind].
  - destruct r as [[[nm ss] buckets']|]; [|done].
    apply IH. apply select_loop_pops in E. lia.
  - intros [= ->]. by eapply select_loop_Err.
Qed.

Lemma collect_Err order l : ∀ st e,
  collect order st l = Err e → e ≠ OutOfFuel.
Proof.
  induction l as [|s l IH]; intros st e H; [done|].
  cbn [collect] in H. apply bind_Err in H as [H|(st' & _ & H)];
    [|by eapply IH].
  unfold collect_step in H. destruct (name s); [|done].
  apply bind_Err in H as [H|(k & _ & H)].
  - destruct (section s) as [sec|]; cbn in H.
    + by apply index_from_Err in H as [-> _].
    + by injection H as <-.
  - apply bind_Err in H as [->%getitem_Err|(b & _ & H)]; done.
Qed.

(** X14: the merge loop of [object_slices] ends: every pass that finds an
    object pops at least one slice from the buckets, so that the loop
    makes at most as many passes as there are named slices; the function
    returns or raises an exception of Python. *)
Theorem object_slices_terminates t order :
  object_slices t order ≠ Err OutOfFuel.
Proof.
  unfold object_slices.
  destruct (collect order _ (slices t)) as [[bs os]|e] eqn:E;
    cbn [mbind res_bind].
  - apply merge_loop_fuel. lia.
  - intros [= ->]. by eapply collect_Err.
Qed.

(** ** More on the CSV reader and writer *)

(** X15: the reader finds the sections of the writer in the header that
    the writer writes, with the two tag columns in front of the name.  A
    writer without sections writes a header that the reader rejects. *)
Theorem writer_header_read secs :
  SlicesCSVReader_init (writer_cols secs)
  = if decide (secs = []) then Err AssertionError
    else Ok (mkReader (3 + 2 * length secs)
               ["enabled"%string; "strip"%string] secs).
Proof.
  destruct (decide (secs = [])) as [->|Hne]; [done|].
  rewrite reader_init_cols by done. do 2 f_equal.
  unfold writer_cols. rewrite length_app, length_section_cols. done.
Qed.

Lemma row_flags_subset row : ∀ tgs i flags f,
  row_flags row i tgs flags = Ok f → f ⊆ flags ∪ list_to_set tgs.
Proof.
  induction tgs as [|tag tgs IH]; intros i flags f H; cbn [row_flags] in H.
  - injection H as <-. set_solver.
  - apply bind_Ok in H as (x & _ & H). apply IH in H.
    destruct (decide (x = "1"%string)); set_solver.
Qed.

Lemma row_ranges_elem ranges nm flags : ∀ secs i l,
  row_ranges ranges i secs nm flags = Ok l →
  ∀ s, s ∈ l →
    name s = Some nm ∧ (∃ sec, section s = Some sec ∧ sec ∈ secs) ∧
    tags s = flags ∧ start s ≤ stop s.
Proof.
  induction secs as [|sec secs IH]; intros i l H s Hs; cbn [row_ranges] in H.
  { injection H as <-. by apply elem_of_nil in Hs. }
  destruct (take 2 (drop (2 * i) ranges)) as [|a [|b [|? ?]]]; try done.
  destruct (decide (strip a = ""%string)).
  { destruct (IH _ _ H s Hs) as (? & (sec' & ? & ?) & ? & ?).
    repeat split; try done. exists sec'. split; [done|by right]. }
  apply bind_Ok in H as (_ & _ & H). apply bind_Ok in H as (x & _ & H).
  apply bind_Ok in H as (y & _ & H). apply bind_Ok in H as (r & Hr & H).
  apply bind_Ok in H as (rest & Hrest & [= <-]).
  apply elem_of_cons in Hs as [->|Hs].
  - unfold Slice_init in Hr. apply bind_Ok in Hr as ([] & Hxy & Hr).
    apply assert_Ok, Z.leb_le in Hxy. injection Hr as <-.
    cbn. repeat split; try done.
    exists sec. split; [done|by left].
  - destruct (IH _ _ Hrest s Hs) as (? & (sec' & ? & ?) & ? & ?).
    repeat split; try done. exists sec'. split; [done|by right].
Qed.

Lemma parse_row_elem rd row l :
  parse_row rd row = Ok l →
  ∀ s, s ∈ l →
    has_name s = true ∧ (∃ sec, section s = Some sec ∧ sec ∈ sections rd) ∧
    tags s ⊆ list_to_set (tag_idx rd) ∧ start s ≤ stop s.
Proof.
  unfold parse_row. intros H s Hs.
  destruct (length row =? 0)%nat.
  { injection H as <-. by apply elem_of_nil in Hs. }
  apply bind_Ok in H as (_ & _ & H).
  apply bind_Ok in H as (flags & Hf%row_flags_subset & H).
  apply bind_Ok in H as (nm & _ & H).
  destruct (row_ranges_elem _ _ _ _ _ _ H s Hs) as (Hn & Hsec & Ht & Hle).
  split; [by apply has_name_true; rewrite Hn|]. split; [done|].
  split; [|done]. rewrite Ht. set_solver.
Qed.

Lemma parse_rows_elem rd rows : ∀ l,
  parse_rows rd rows = Ok l →
  ∀ s, s ∈ l →
    has_name s = true ∧ (∃ sec, section s = Some sec ∧ sec ∈ sections rd) ∧
    tags s ⊆ list_to_set (tag_idx rd) ∧ start s ≤ stop s.
Proof.
  induction rows as [|row rows IH]; intros l H s Hs; cbn [parse_rows] in H.
  { injection H as <-. by apply elem_of_nil in Hs. }
  apply bind_Ok in H as (l1 & H1 & H). apply bind_Ok in H as (l2 & H2 & [= <-]).
  apply elem_of_app in Hs as [Hs|Hs].
  - by eapply parse_row_elem.
  - by eapply IH.
Qed.

Lemma read_slices_elem file l :
  read_slices file = Ok l →
  ∃ header rows rd,
    file = header :: rows ∧ SlicesCSVReader_init header = Ok rd ∧
    ∀ s, s ∈ l →
      has_name s = true ∧
      (∃ sec, section s = Some sec ∧ sec ∈ sections rd) ∧
      tags s ⊆ list_to_set (tag_idx rd) ∧ start s ≤ stop s.
Proof.
  destruct file as [|header rows]; [done|]. cbn [read_slices]. intros H.
  apply bind_Ok in H as (rd & Hrd & H). exists header, rows, rd.
  split; [done|]. split; [done|]. by eapply parse_rows_elem.
Qed.

(** X16: every slice that the reader yields from a file has a name and a
    section, which is one of the sections of the header; its tags are
    among the columns in front of the name column, and it does not end
    before it starts.  The reader yields no gap. *)
Theorem reader_yields_named file l :
  read_slices file = Ok l →
  ∃ header rows rd,
    file = header :: rows ∧ SlicesCSVReader_init header = Ok rd ∧
    ∀ s, s ∈ l →
      has_name s = true ∧
      (∃ sec, section s = Some sec ∧ sec ∈ sections rd) ∧
      tags s ⊆ list_to_set (tag_idx rd) ∧ start s ≤ stop s.
Proof. apply read_slices_elem. Qed.

Lemma reader_yields_named_witness :
  ∃ header rows rd,
    [["enabled"; "strip"; "name"; "textStart"; "textEnd"];
     ["1"; ""; "A"; "0x0"; "0xa"]; []; [""; "1"; "B"; " "; ""]]%string
    = header :: rows ∧
    SlicesCSVReader_init header = Ok rd ∧
    ∀ s, s ∈ [mkSlice 0 10 (Some "A"%string) (Some "text"%string)
                {["enabled"%string]}] →
      has_name s = true ∧
      (∃ sec, section s = Some sec ∧ sec ∈ sections rd) ∧
      tags s ⊆ list_to_set (tag_idx rd) ∧ start s ≤ stop s.
Proof.
  apply (reader_yields_named
           [["enabled"; "strip"; "name"; "textStart"; "textEnd"];
            ["1"; ""; "A"; "0x0"; "0xa"]; []; [""; "1"; "B"; " "; ""]]%string).
  vm_compute. reflexivity.
Defined.

(** *** Keys that are no columns *)

Lemma entry_step_keeps e s k :
  is_Some (e !! k) → is_Some (entry_step e s !! k).
Proof.
  intros He. unfold entry_step.
  destruct (decide (k = fmt (section s) +:+ "End")) as [->|H1].
  { rewrite lookup_insert_eq. eauto. }
  rewrite lookup_insert_ne by done.
  destruct (decide (k = fmt (section s) +:+ "Start")) as [->|H2].
  { rewrite lookup_insert_eq. eauto. }
  by rewrite lookup_insert_ne.
Qed.

Lemma entry_fold_keeps l : ∀ e k,
  is_Some (e !! k) → is_Some (foldl entry_step e l !! k).
Proof.
  induction l as [|s l IH]; intros e k He; [done|].
  cbn [foldl]. by apply IH, entry_step_keeps.
Qed.

Lemma entry_fold_start l : ∀ e s,
  s ∈ l → is_Some (foldl entry_step e l !! (fmt (section s) +:+ "Start")).
Proof.
  induction l as [|x l IH]; intros e s Hs.
  { by apply elem_of_nil in Hs. }
  cbn [foldl]. apply elem_of_cons in Hs as [->|Hs]; [|by apply IH].
  apply entry_fold_keeps. unfold entry_step.
  rewrite lookup_insert_ne by (symmetry; apply Start_not_End).
  rewrite lookup_insert_eq. eauto.
Qed.

Lemma section_col_elem sec secs :
  (sec +:+ "Start")%string ∈ writer_cols secs → sec ∈ secs.
Proof.
  unfold writer_cols. intros [H|H]%elem_of_app.
  - apply elem_of_cons in H as [H|H];
      [symmetry in H; by apply enabled_not_Start in H|].
    apply elem_of_cons in H as [H|H];
      [symmetry in H; by apply strip_not_Start in H|].
    apply list_elem_of_singleton in H. symmetry in H.
    by apply name_not_Start in H.
  - apply elem_of_flat_map in H as (x & Hx & H). unfold section_cols in H.
    apply elem_of_cons in H as [H|H].
    + by apply string_app_inj_r in H as ->.
    + apply list_elem_of_singleton in H. by apply Start_not_End in H.
Qed.

(** X17: the writer raises a [ValueError] for an object whose first slice
    has a tag that is no column, or one of whose slices lies in a section
    that the writer was not given (a slice without a section counts as in
    the section [None]). *)
Theorem write_unknown_column secs nm l s0 :
  head l = Some s0 →
  (∃ tag, tag ∈ tags s0 ∧ tag ∉ writer_cols secs) ∨
  (∃ s, s ∈ l ∧ fmt (section s) ∉ secs) →
  write secs nm l = Err ValueError.
Proof.
  intros Hh Hbad. destruct l as [|x l]; [done|]. injection Hh as ->.
  unfold write, dict_to_row.
  rewrite decide_False; [done|]. rewrite entry_of_fold.
  intros Hsub. destruct Hbad as [(tag & Ht & Hc)|(s & Hs & Hc)].
  - apply Hc. apply (elem_of_list_to_set (C := gset string)).
    apply Hsub, elem_of_dom. apply entry_fold_keeps.
    rewrite set_fold_tags_lookup, decide_True by done. eauto.
  - apply Hc, section_col_elem.
    apply (elem_of_list_to_set (C := gset string)).
    apply Hsub, elem_of_dom. by apply entry_fold_start.
Qed.

Lemma write_unknown_column_witness :
  write ["text"]%string (Some "A"%string)
    [mkSlice 0 10 (Some "A"%string) (Some "data"%string) ∅]
  = Err ValueError.
Proof.
  apply (write_unknown_column ["text"]%string (Some "A"%string) _
           (mkSlice 0 10 (Some "A"%string) (Some "data"%string) ∅));
    [done|].
  right. eexists. split; [by left|]. cbn.
  intros [?|?%elem_of_nil]%elem_of_cons; done.
Defined.

(** ** [read_from] *)

Lemma foldl_add_Err e (l : list Slice) :
  foldl (fun acc s => t' ← acc; add t' s) (Err e) l = Err e.
Proof. induction l as [|s l IH]; [done|]. cbn [foldl]. exact IH. Qed.

Lemma add_all_elems (l : list Slice) : ∀ t t',
  tiling t → Forall (fun s => has_name s = true) l →
  foldl (fun acc s => t' ← acc; add t' s) (Ok t) l = Ok t' →
  tiling t' ∧ table_start t' = table_start t ∧
  table_stop t' = table_stop t ∧
  (∀ s, s ∈ l → s ∈ slices t') ∧
  (∀ s, s ∈ slices t → has_name s = true → s ∈ slices t').
Proof.
  induction l as [|r l IH]; intros t t' Ht Hl H.
  { injection H as <-. split; [done|]. split; [done|]. split; [done|].
    split; [|done]. intros s Hs. by apply elem_of_nil in Hs. }
  apply Forall_cons in Hl as [Hr Hl]. cbn [foldl mbind res_bind] in H.
  destruct (add t r) as [t1|e] eqn:Hadd; [|by rewrite foldl_add_Err in H].
  destruct (add_keeps_tiling _ _ _ Ht Hadd) as (Ht1 & Ha & Hb).
  destruct (add_elems _ _ _ Ht Hadd) as [Hin Hkeep].
  destruct (IH t1 t' Ht1 Hl H) as (Ht' & Ha' & Hb' & Hnew & Hold).
  split; [done|]. split; [congruence|]. split; [congruence|]. split.
  - intros s [->|Hs]%elem_of_cons; [by apply Hold|by apply Hnew].
  - intros s Hs Hn. apply Hold; [|done]. by apply Hkeep.
Qed.

(** X18: when [read_from] succeeds on a table whose slices tile its
    range, the table still tiles the same range; every slice that the
    reader yields from the file is a slice of the table, and so is every
    named slice that the table had before. *)
Theorem read_from_adds t file t' :
  tiling t → read_from t file = Ok t' →
  tiling t' ∧ table_start t' = table_start t ∧
  table_stop t' = table_stop t ∧
  ∃ l, read_slices file = Ok l ∧
    (∀ s, s ∈ l → s ∈ slices t') ∧
    (∀ s, s ∈ slices t → has_name s = true → s ∈ slices t').
Proof.
  intros Ht H. unfold read_from in H.
  apply bind_Ok in H as (l & Hl & H).
  destruct (read_slices_elem _ _ Hl) as (header & rows & rd & _ & _ & Hn).
  destruct (add_all_elems l t t' Ht) as (Ht' & Ha & Hb & Hnew & Hold);
    [|done|].
  { apply Forall_forall. intros s Hs. by destruct (Hn s Hs). }
  split; [done|]. split; [done|]. split; [done|]. by exists l.
Qed.

Lemma read_from_adds_witness :
  let t := mkTable [mkSlice 0 4 (Some "foo"%string) None ∅;
                    mkSlice 4 40 None None ∅] 0 40 in
  let file := [["enabled"; "strip"; "name"; "textStart"; "textEnd";
                "dataStart"; "dataEnd"];
               ["1"; ""; "A"; "0x8"; "0xa"; "0x14"; "0x1e"];
               [""; ""; "B"; "0xa"; "0x14"; "0x1e"; "0x28"]]%string in
  let t' := mkTable
              [mkSlice 0 4 (Some "foo"%string) None ∅;
               mkSlice 4 8 None None ∅;
               mkSlice 8 10 (Some "A"%string) (Some "text"%string)
                 {["enabled"%string]};
               mkSlice 10 20 (Some "B"%string) (Some "text"%string) ∅;
               mkSlice 20 30 (Some "A"%string) (Some "data"%string)
                 {["enabled"%string]};
               mkSlice 30 40 (Some "B"%string) (Some "data"%string) ∅]
              0 40 in
  tiling t' ∧ table_start t' = table_start t ∧
  table_stop t' = table_stop t ∧
  ∃ l, read_slices file = Ok l ∧
    (∀ s, s ∈ l → s ∈ slices t') ∧
    (∀ s, s ∈ slices t → has_name s = true → s ∈ slices t').
Proof.
  apply (read_from_adds
           (mkTable [mkSlice 0 4 (Some "foo"%string) None ∅;
                     mkSlice 4 40 None None ∅] 0 40)).
  - apply partition_invb_sound. vm_compute. reflexivity.
  - vm_compute. reflexivity.
Defined.

(** ** [object_slices] groups every named slice *)

Lemma chain_impl {A} (R1 R2 : A → A → Prop) (l : list A) :
  (∀ x y, x ∈ l → y ∈ l → R1 x y → R2 x y) → chain R1 l → chain R2 l.
Proof.
  induction l as [|x l IH]; intros Himp Hc; [done|].
  destruct Hc as [Hx Hc]. split.
  - apply Forall_forall. intros y Hy. apply Himp; [by left|by right|].
    by eapply (proj1 (Forall_forall _ _)) in Hx.
  - apply IH; [|done]. intros a b Ha Hb. apply Himp; by right.
Qed.

Lemma chain_filter {A} (R : A → A → Prop) (P : A → Prop)
    `{!∀ x, Decision (P x)} (l : list A) :
  chain R l → chain R (filter P l).
Proof.
  induction l as [|x l IH]; intros Hc; [done|].
  destruct Hc as [Hx Hc]. rewrite filter_cons.
  destruct (decide (P x)); [|by apply IH]. split; [|by apply IH].
  apply Forall_forall. intros y [_ Hy]%list_elem_of_filter.
  by eapply (proj1 (Forall_forall _ _)) in Hx.
Qed.

Lemma chain_tail {A} (R : A → A → Prop) (l : list A) :
  chain R l → chain R (tail l).
Proof. destruct l; [done|]. by intros [_ ?]. Qed.

Lemma tiles_chain a l b :
  tiles a l b → chain (fun x y => start x < start y) l.
Proof.
  revert a. induction l as [|s l IH]; intros a Ht; [done|].
  destruct Ht as (Hs & Hlt & Ht). split; [|by eapply IH].
  apply Forall_forall. intros y Hy.
  pose proof (tiles_elem _ _ _ _ Ht Hy). lia.
Qed.

Lemma sort_by_start_chain l :
  chain (fun x y => start x < start y) l → sort_by_start l = l.
Proof.
  unfold sort_by_start. induction l as [|x l IH]; intros Hc; [done|].
  destruct Hc as [Hx Hc]. cbn [foldr]. rewrite IH by done.
  destruct l as [|y l]; [done|]. cbn [insert_by_start].
  apply Forall_cons in Hx as [Hxy _].
  by rewrite (proj2 (Z.leb_le _ _)) by lia.
Qed.

Lemma index_from_lookup order : ∀ i x k,
  index_from order i x = Ok k → order !! (k - i)%nat = Some x.
Proof.
  induction order as [|y order IH]; intros i x k H; [done|].
  cbn [index_from] in H. destruct (decide (y = x)) as [->|Hne].
  - injection H as <-. by rewrite Nat.sub_diag.
  - pose proof (index_from_lt _ _ _ _ H). apply IH in H.
    replace (k - i)%nat with (S (k - S i)) by lia. done.
Qed.

Lemma index_from_NoDup order : ∀ i (j : nat) x,
  NoDup order → order !! j = Some x → index_from order i x = Ok (i + j)%nat.
Proof.
  induction order as [|y order IH]; intros i j x Hnd Hj; [done|].
  apply NoDup_cons in Hnd as [Hy Hnd]. cbn [index_from].
  destruct j as [|j]; cbn in Hj.
  - injection Hj as ->. rewrite decide_True by done. f_equal. lia.
  - rewrite decide_False.
    + rewrite (IH (S i) j x Hnd Hj). f_equal. lia.
    + intros ->. apply Hy. by eapply list_elem_of_lookup_2.
Qed.

(** The slices of one bucket lie in one section. *)
Lemma in_bucket_section order t k s s' :
  in_bucket order t k s → in_bucket order t k s' → section s = section s'.
Proof.
  intros (_ & Hs & _) (_ & Hs' & _).
  destruct (section s) as [a|], (section s') as [b|]; try done.
  cbn in Hs, Hs'. apply index_from_lookup in Hs, Hs'. congruence.
Qed.

Lemma in_bucket_index order t k k' s :
  in_bucket order t k s → in_bucket order t k' s → k = k'.
Proof. intros (_ & Hs & _) (_ & Hs' & _). congruence. Qed.

Lemma in_bucket_order order t k s :
  in_bucket order t k s → ∃ sec, section s = Some sec ∧ order !! k = Some sec.
Proof.
  intros (_ & Hs & _). destruct (section s) as [sec|]; [|done].
  exists sec. split; [done|]. cbn in Hs. apply index_from_lookup in Hs.
  by rewrite Nat.sub_0_r in Hs.
Qed.

(** In a bucket that goes up in rank, a name occurs once. *)
Lemma rank_sorted_same_name rank b x y :
  rank_sorted rank b → x ∈ b → y ∈ b → name x = name y → x = y.
Proof.
  unfold rank_sorted. induction b as [|z b IH]; intros Hc Hx Hy Hn.
  { by apply elem_of_nil in Hx. }
  destruct Hc as [Hz Hc]. rewrite Forall_forall in Hz.
  apply elem_of_cons in Hx as [->|Hx], Hy as [->|Hy]; [done| | |by apply IH].
  - specialize (Hz y Hy). rewrite Hn in Hz. lia.
  - specialize (Hz x Hx). rewrite Hn in Hz. lia.
Qed.

Lemma rank_sorted_head rank x b y :
  rank_sorted rank (x :: b) → y ∈ x :: b →
  (rank (name x) ≤ rank (name y))%nat.
Proof.
  intros [Hx _] [->|Hy]%elem_of_cons; [done|].
  rewrite Forall_forall in Hx. specialize (Hx y Hy). lia.
Qed.

Lemma drop_cons_lookup {A} (l : list A) (j : nat) x rest :
  drop j l = x :: rest → l !! j = Some x ∧ drop (S j) l = rest.
Proof.
  intros H. assert (l !! j = Some x) as Hj.
  { rewrite <- (Nat.add_0_r j), <- lookup_drop, H. done. }
  split; [done|]. rewrite (drop_S _ _ _ Hj) in H. by injection H.
Qed.

Lemma drop_nil_lookup {A} (l : list A) (j k : nat) :
  drop j l = [] → (j ≤ k)%nat → l !! k = None.
Proof.
  intros H Hjk. apply lookup_ge_None.
  apply (f_equal length) in H. rewrite length_drop in H. cbn in H. lia.
Qed.

Lemma pop_at_lookup ks buckets (m : nat) :
  pop_at ks buckets !! m
  = (fun b => if decide (m ∈ ks) then tail b else b) <$> buckets !! m.
Proof. unfold pop_at. by rewrite list_lookup_imap. Qed.

Lemma pop_at_length ks buckets : length (pop_at ks buckets) = length buckets.
Proof. unfold pop_at. by rewrite length_imap. Qed.

Lemma Forall2_elem_r {A B} (P : A → B → Prop) l k y :
  Forall2 P l k → y ∈ k → ∃ x, x ∈ l ∧ P x y.
Proof.
  intros HF [i Hi]%list_elem_of_lookup.
  destruct (Forall2_lookup_r _ _ _ _ _ HF Hi) as (x & Hx & HP).
  exists x. split; [by eapply list_elem_of_lookup_2|done].
Qed.

Lemma Forall2_elem_l {A B} (P : A → B → Prop) l k x :
  Forall2 P l k → x ∈ l → ∃ y, y ∈ k ∧ P x y.
Proof.
  intros HF [i Hi]%list_elem_of_lookup.
  destruct (Forall2_lookup_l _ _ _ _ _ HF Hi) as (y & Hy & HP).
  exists y. split; [by eapply list_elem_of_lookup_2|done].
Qed.

Lemma Forall2_and_Forall_r {A B} (P : A → B → Prop) (Q : B → Prop) l k :
  Forall2 P l k → Forall Q k → Forall2 (fun x y => P x y ∧ Q y) l k.
Proof.
  induction 1 as [|x y l k HP HF IH]; intros HQ; [constructor|].
  apply Forall_cons in HQ as [Hy HQ]. constructor; [done|by apply IH].
Qed.

(** The search of [pop_slices] for the bucket of a slice that is in front
    of its bucket. *)
Lemma scan_bucket_finds order t buckets :
  buckets_ok order t buckets →
  ∀ rest (j k : nat) s bk,
    drop j buckets = rest → (j ≤ k)%nat → buckets !! k = Some (s :: bk) →
    scan_bucket rest j (section s) = Ok k.
Proof.
  intros Hok. induction rest as [|bucket rest IH]; intros j k s bk Hd Hjk Hk.
  { by rewrite (drop_nil_lookup _ _ _ Hd Hjk) in Hk. }
  apply drop_cons_lookup in Hd as [Hj Hd]. cbn [scan_bucket].
  destruct (decide (j = k)) as [->|Hne].
  { rewrite Hk in Hj. injection Hj as <-. by rewrite decide_True. }
  assert (scan_bucket rest (S j) (section s) = Ok k) as Hrec.
  { eapply IH; [done|lia|done]. }
  destruct bucket as [|x bx]; [done|].
  rewrite decide_False; [done|]. intros Hsec.
  assert (in_bucket order t j x) as Hx by (eapply Hok; [done|by left]).
  assert (in_bucket order t k s) as Hs by (eapply Hok; [done|by left]).
  destruct Hx as (_ & Hx & _), Hs as (_ & Hs & _). congruence.
Qed.

Lemma pop_slices_at order t ss : ∀ buckets ks j,
  buckets_ok order t buckets →
  Forall2 (fun s (k : nat) => ∃ bk, buckets !! k = Some (s :: bk)) ss ks →
  chain lt ks → Forall (fun k => (j ≤ k)%nat) ks →
  pop_slices buckets j ss = Ok (pop_at ks buckets).
Proof.
  induction ss as [|s ss IH]; intros buckets ks j Hok HF Hc Hj.
  { apply Forall2_nil_inv_l in HF as ->. cbn [pop_slices]. f_equal.
    apply list_eq. intros m.
    rewrite pop_at_lookup. destruct (buckets !! m); [|done]. cbn.
    rewrite decide_False; [done|]. apply not_elem_of_nil. }
  apply Forall2_cons_inv_l in HF as (k & ks' & [bk Hk] & HF & ->).
  destruct Hc as [Hlt Hc]. apply Forall_cons in Hj as [Hjk Hj].
  cbn [pop_slices].
  rewrite (scan_bucket_finds order t buckets Hok _ j k s bk eq_refl Hjk Hk).
  cbn [mbind res_bind]. rewrite (getitem_lookup _ _ _ Hk).
  cbn [mbind res_bind tail].
  rewrite (IH (<[k := bk]> buckets) ks' k).
  - f_equal. apply list_eq. intros m. rewrite !pop_at_lookup.
    destruct (decide (m = k)) as [->|Hne].
    + rewrite list_lookup_insert_eq by (by eapply lookup_lt_Some).
      rewrite Hk. cbn.
      destruct (decide (k ∈ ks')) as [Hin|_].
      { rewrite Forall_forall in Hlt. specialize (Hlt k Hin). lia. }
      destruct (decide (k ∈ k :: ks')) as [_|Hn]; [done|].
      exfalso. apply Hn. by left.
    + rewrite list_lookup_insert_ne by done.
      destruct (buckets !! m); [|done]. cbn.
      destruct (decide (m ∈ ks')), (decide (m ∈ k :: ks')); try done.
      * exfalso. apply n. by right.
      * exfalso. apply elem_of_cons in e as [?|?]; done.
  - intros m b x Hm Hx. destruct (decide (m = k)) as [->|Hne].
    + rewrite list_lookup_insert_eq in Hm by (by eapply lookup_lt_Some).
      injection Hm as <-. apply (Hok k (s :: bk) x Hk). by right.
    + rewrite list_lookup_insert_ne in Hm by done. by eapply Hok.
  - eapply Forall2_impl; [exact (Forall2_and_Forall_r _ _ _ _ HF Hlt)|].
    intros x m [[bm Hm] Hkm]. exists bm.
    rewrite list_lookup_insert_ne by lia. done.
  - done.
  - rewrite Forall_forall in Hlt |- *. intros m Hm. specialize (Hlt m Hm). lia.
Qed.

Section merge_step.
Variables (order : list string) (t : SliceTable).
Variables (rank : option string → nat).
Variables (os : gmap string (gset (option string))).
Variables (buckets : list (list Slice)).
Hypothesis Hnd : NoDup order.
Hypothesis Hos :
  ∀ n s, s ∈ slices t → name s = Some n →
         os !! n = Some (sections_of n (slices t)).
Hypothesis Hlen : length buckets = length order.
Hypothesis Hok : buckets_ok order t buckets.
Hypothesis Hsorted :
  ∀ (k : nat) b, buckets !! k = Some b → rank_sorted rank b.
Hypothesis Hwhole :
  ∀ s s', s ∈ slices t → s' ∈ slices t → has_name s' = true →
          name s = name s' → in_buckets buckets s → in_buckets buckets s'.

(** The section of bucket [k] is one of the sections of an object that
    is in the buckets exactly when a slice of the object is in bucket
    [k]. *)
Local Lemma section_wanted (k : nat) oj n x :
  order !! k = Some oj → in_buckets buckets x → name x = Some n →
  Some oj ∈ sections_of n (slices t)
  ↔ ∃ b s', buckets !! k = Some b ∧ s' ∈ b ∧ name s' = Some n.
Proof.
  intros Hk Hx Hn. unfold sections_of.
  rewrite elem_of_list_to_set, list_elem_of_fmap. split.
  - intros (s' & Hsec & [Hn' Hs']%list_elem_of_filter).
    destruct Hx as (kx & bx & Hbx & Hxin).
    assert (x ∈ slices t) as Hxt by (by destruct (Hok kx bx x Hbx Hxin) as (_ & _ & ?)).
    destruct (Hwhole x s' Hxt Hs') as (k' & b' & Hb' & Hin');
      [by apply has_name_true; rewrite Hn'|congruence|by exists kx, bx|].
    destruct (Hok k' b' s' Hb' Hin') as (_ & Hidx & _).
    rewrite <- Hsec in Hidx. cbn in Hidx.
    rewrite (index_from_NoDup order 0 k oj Hnd Hk) in Hidx.
    injection Hidx as <-. by exists b', s'.
  - intros (b & s' & Hb & Hs' & Hn').
    pose proof (Hok k b s' Hb Hs') as Hin.
    destruct (in_bucket_order _ _ _ _ Hin) as (sec & Hsec & Hsk).
    exists s'. split; [congruence|]. apply list_elem_of_filter.
    split; [done|]. by destruct Hin as (_ & _ & ?).
Qed.

(** The loop that gathers the slices of the object of the front slice
    [x] of bucket [i]: it fails nowhere; it gives up when a bucket holds a
    slice of the object behind a slice of another one, and otherwise
    gathers the front slices of all the buckets that hold a slice of the
    object. *)
Local Lemma deps_loop_fronts (i : nat) x bx n :
  buckets !! i = Some (x :: bx) → name x = Some n →
  ∀ rest (j : nat) acc,
    drop j buckets = rest →
    ∃ r,
      deps_loop order os (Some n) i j rest acc = Ok r ∧
      match r with
      | None => blocked buckets i n
      | Some ss =>
          ∃ more ks,
            ss = acc ++ more ∧
            Forall2 (fun s (k : nat) =>
                       (∃ bk, buckets !! k = Some (s :: bk)) ∧
                       name s = Some n ∧ k ≠ i) more ks ∧
            chain lt ks ∧ Forall (fun k => (j ≤ k)%nat) ks ∧
            ∀ (k : nat) b s',
              (j ≤ k)%nat → k ≠ i → buckets !! k = Some b → s' ∈ b →
              name s' = Some n → k ∈ ks
      end.
Proof.
  intros Hi Hn.
  assert (in_buckets buckets x) as Hx by (exists i, (x :: bx); split; [done|by left]).
  assert (x ∈ slices t) as Hxt
    by (by destruct (Hok i (x :: bx) x Hi ltac:(by left)) as (_ & _ & ?)).
  induction rest as [|dep rest IH]; intros j acc Hd.
  { exists (Some acc). split; [done|]. exists [], [].
    rewrite app_nil_r. split; [done|]. split; [constructor|].
    split; [done|]. split; [constructor|].
    intros k b s' Hjk _ Hb. by rewrite (drop_nil_lookup _ _ _ Hd Hjk) in Hb. }
  apply drop_cons_lookup in Hd as [Hj Hd]. cbn [deps_loop].
  destruct (decide (i = j)) as [<-|Hij].
  { destruct (IH (S i) acc Hd) as (r & -> & Hr). exists r. split; [done|].
    destruct r as [ss|]; [|done].
    destruct Hr as (more & ks & -> & HF & Hc & Hge & Hall).
    exists more, ks. split; [done|]. split; [done|]. split; [done|]. split.
    - eapply Forall_impl; [exact Hge|]. intros k ?. cbn in *. lia.
    - intros k b s' Hk Hki. apply Hall; [lia|done]. }
  destruct (lookup_lt_is_Some_2 order j) as [oj Hoj].
  { rewrite <- Hlen. by eapply lookup_lt_Some. }
  rewrite (getitem_lookup _ _ _ Hoj). cbn [mbind res_bind].
  unfold object_sections_get. rewrite (Hos n x Hxt Hn). cbn [mbind res_bind].
  pose proof (section_wanted j oj n x Hoj Hx Hn) as Hw.
  destruct (decide (Some oj ∈ sections_of n (slices t))) as [Hin|Hnin].
  - apply (proj1 Hw) in Hin as (b & s' & Hb & Hs' & Hn').
    rewrite Hj in Hb. injection Hb as <-.
    destruct dep as [|d bk]; [by apply elem_of_nil in Hs'|].
    cbn [getitem lookup list_lookup mbind res_bind].
    destruct (decide (name d = Some n)) as [Hdn|Hdn].
    + destruct (IH (S j) (acc ++ [d]) Hd) as (r & -> & Hr).
      exists r. split; [done|]. destruct r as [ss|]; [|done].
      destruct Hr as (more & ks & -> & HF & Hc & Hge & Hall).
      exists (d :: more), (j :: ks). split; [by rewrite <- app_assoc|].
      split; [constructor; [|done]; split; [by exists bk|split; [done|congruence]]|].
      split.
      { split; [|done]. eapply Forall_impl; [exact Hge|].
        intros k ?. cbn in *. lia. }
      split.
      { constructor; [lia|]. eapply Forall_impl; [exact Hge|].
        intros k ?. cbn in *. lia. }
      intros k b s'' Hk Hki Hb Hs'' Hn''.
      destruct (decide (k = j)) as [->|Hne]; [by left|].
      right. eapply Hall; [lia|done..].
    + exists None. split; [done|]. exists j, d, bk, s'.
      split; [congruence|]. split; [done|]. split; [done|]. split; [|done].
      apply elem_of_cons in Hs' as [->|?]; [done|done].
  - destruct (IH (S j) acc Hd) as (r & -> & Hr). exists r. split; [done|].
    destruct r as [ss|]; [|done].
    destruct Hr as (more & ks & -> & HF & Hc & Hge & Hall).
    exists more, ks. split; [done|]. split; [done|]. split; [done|]. split.
    + eapply Forall_impl; [exact Hge|]. intros k ?. cbn in *. lia.
    + intros k b s' Hk Hki Hb Hs' Hn'.
      destruct (decide (k = j)) as [->|Hne].
      * exfalso. apply Hnin, Hw. by exists b, s'.
      * eapply Hall; [lia|done..].
Qed.

(** The loop that selects the next object: it takes the first front slice
    that is not blocked, and pops the front slices of all the buckets
    that hold a slice of its object. *)
Local Lemma select_loop_first :
  ∀ rest (i : nat),
    drop i buckets = rest →
    (∀ (i' : nat) x' bx' n',
       (i' < i)%nat → buckets !! i' = Some (x' :: bx') → name x' = Some n' →
       blocked buckets i' n') →
    (∃ (i0 : nat) x0 b0 n0,
       (i ≤ i0)%nat ∧ buckets !! i0 = Some (x0 :: b0) ∧ name x0 = Some n0 ∧
       ¬ blocked buckets i0 n0) →
    ∃ (i1 : nat) x bx n more ks,
      buckets !! i1 = Some (x :: bx) ∧ name x = Some n ∧
      select_loop order os buckets i rest
      = Ok (Some (Some n, x :: more, pop_at (i1 :: ks) buckets)) ∧
      Forall2 (fun s (k : nat) =>
                 (∃ bk, buckets !! k = Some (s :: bk)) ∧
                 name s = Some n ∧ k ≠ i1) more ks ∧
      chain lt (i1 :: ks) ∧
      ∀ (k : nat) b s',
        k ≠ i1 → buckets !! k = Some b → s' ∈ b → name s' = Some n →
        k ∈ ks.
Proof.
  induction rest as [|bucket rest IH]; intros i Hd Hprev Hgood.
  { destruct Hgood as (i0 & x0 & b0 & n0 & Hi0 & Hb0 & _).
    by rewrite (drop_nil_lookup _ _ _ Hd Hi0) in Hb0. }
  apply drop_cons_lookup in Hd as [Hi Hd]. cbn [select_loop].
  destruct bucket as [|x bx].
  { apply (IH (S i) Hd).
    - intros i' x' bx' n' Hlt Hb' Hn'.
      destruct (decide (i' = i)) as [->|Hne]; [congruence|].
      eapply Hprev; [lia|done..].
    - destruct Hgood as (i0 & x0 & b0 & n0 & Hi0 & Hb0 & Hn0 & Hg).
      exists i0, x0, b0, n0. split; [|done].
      destruct (decide (i0 = i)) as [->|Hne]; [congruence|lia]. }
  assert (∃ n, name x = Some n) as [n Hn].
  { destruct (Hok i (x :: bx) x Hi ltac:(by left)) as (Hname & _).
    unfold has_name in Hname. destruct (name x); [eauto|done]. }
  destruct (deps_loop_fronts i x bx n Hi Hn buckets 0 [x] eq_refl)
    as (r & Hr & Hpost).
  rewrite Hn, Hr. cbn [mbind res_bind]. destruct r as [ss|].
  2:{ apply (IH (S i) Hd).
      - intros i' x' bx' n' Hlt Hb' Hn'.
        destruct (decide (i' = i)) as [->|Hne].
        + rewrite Hi in Hb'. injection Hb' as <- <-. congruence.
        + eapply Hprev; [lia|done..].
      - destruct Hgood as (i0 & x0 & b0 & n0 & Hi0 & Hb0 & Hn0 & Hg).
        exists i0, x0, b0, n0. split; [|done].
        destruct (decide (i0 = i)) as [->|Hne]; [|lia].
        rewrite Hi in Hb0. injection Hb0 as <- <-.
        exfalso. apply Hg. congruence. }
  destruct Hpost as (more & ks & -> & HF & Hc & _ & Hall).
  assert (Forall (lt i) ks) as Hlt.
  { apply Forall_forall. intros k Hk.
    destruct (Forall2_elem_r _ _ _ _ HF Hk)
      as (s & _ & [bk Hbk] & Hsn & Hki).
    destruct (decide (k < i)%nat) as [Hlt|?]; [|lia]. exfalso.
    destruct (Hprev k s bk n Hlt Hbk Hsn)
      as (k' & d & bk' & s' & Hk' & Hb' & Hdn & Hs' & Hn').
    destruct (decide (k' = i)) as [->|Hne].
    { rewrite Hi in Hb'. injection Hb' as <- <-. done. }
    assert (k' ∈ ks) as Hin.
    { eapply (Hall k' (d :: bk') s'); [lia|done|done|by right|done]. }
    destruct (Forall2_elem_r _ _ _ _ HF Hin)
      as (s'' & _ & [bk'' Hbk''] & Hsn'' & _).
    rewrite Hb' in Hbk''. injection Hbk'' as <- <-. done. }
  rewrite (pop_slices_at order t ([x] ++ more) buckets (i :: ks) 0 Hok).
  - cbn [mbind res_bind app].
    exists i, x, bx, n, more, ks. split; [done|]. split; [done|].
    split; [done|]. split; [done|]. split; [done|].
    intros k b s' Hki. apply Hall. lia. done.
  - cbn [app]. constructor; [by exists bx|].
    eapply Forall2_impl; [exact HF|]. by intros s k [? _].
  - done.
  - apply Forall_forall. intros k _. lia.
Qed.

Lemma list_min_elem (f : Slice → nat) (l : list Slice) s0 :
  s0 ∈ l → ∃ s, s ∈ l ∧ ∀ s', s' ∈ l → (f s ≤ f s')%nat.
Proof.
  revert s0. induction l as [|x l IH]; intros s0 Hs0.
  { by apply elem_of_nil in Hs0. }
  destruct l as [|y l].
  { exists x. split; [by left|]. by intros s' ->%list_elem_of_singleton. }
  destruct (IH y ltac:(by left)) as (m & Hm & Hmin).
  destruct (decide (f x ≤ f m)%nat).
  - exists x. split; [by left|].
    intros s' [->|Hs']%elem_of_cons; [done|]. specialize (Hmin s' Hs'). lia.
  - exists m. split; [by right|].
    intros s' [->|Hs']%elem_of_cons; [lia|by apply Hmin].
Qed.

Lemma total_len_pos (bs : list (list Slice)) :
  (0 < total_len bs)%nat → ∃ s, s ∈ mjoin bs.
Proof.
  induction bs as [|b bs IH]; cbn; [lia|].
  destruct b as [|s b]; [|exists s; by left].
  cbn. intros H. destruct (IH H) as [s Hs]. by exists s.
Qed.

(** While a bucket is not empty, a front slice is not blocked: a front
    slice of the least rank. *)
Local Lemma front_not_blocked :
  (0 < total_len buckets)%nat →
  ∃ (i0 : nat) x0 b0 n0,
    (0 ≤ i0)%nat ∧ buckets !! i0 = Some (x0 :: b0) ∧ name x0 = Some n0 ∧
    ¬ blocked buckets i0 n0.
Proof.
  intros [s0 Hs0]%total_len_pos.
  destruct (list_min_elem (fun s => rank (name s)) _ s0 Hs0)
    as (m & Hm & Hmin).
  apply list_elem_of_join in Hm as (b & Hmb & [i0 Hb]%list_elem_of_lookup).
  destruct b as [|x0 b0]; [by apply elem_of_nil in Hmb|].
  assert (∃ n0, name x0 = Some n0) as [n0 Hn0].
  { destruct (Hok i0 (x0 :: b0) x0 Hb ltac:(by left)) as (Hname & _).
    unfold has_name in Hname. destruct (name x0); [eauto|done]. }
  exists i0, x0, b0, n0. split; [lia|]. split; [done|]. split; [done|].
  intros (k & d & bk & s' & Hk & Hbk & Hdn & Hs' & Hn').
  pose proof (rank_sorted_head rank x0 b0 m (Hsorted _ _ Hb) Hmb) as H1.
  assert (rank (name m) ≤ rank (name d))%nat as H2.
  { apply Hmin, list_elem_of_join. exists (d :: bk).
    split; [by left|by eapply list_elem_of_lookup_2]. }
  destruct (Hsorted _ _ Hbk) as [Hd _]. rewrite Forall_forall in Hd.
  specialize (Hd s' Hs'). cbn in Hd. rewrite Hn', <- Hn0 in Hd. lia.
Qed.

(** One pass of the merge loop. *)
Lemma merge_pass :
  (0 < total_len buckets)%nat →
  ∃ (i1 : nat) x bx n more ks,
    buckets !! i1 = Some (x :: bx) ∧ name x = Some n ∧
    select_loop order os buckets 0 buckets
    = Ok (Some (Some n, x :: more, pop_at (i1 :: ks) buckets)) ∧
    Forall2 (fun s (k : nat) =>
               (∃ bk, buckets !! k = Some (s :: bk)) ∧
               name s = Some n ∧ k ≠ i1) more ks ∧
    chain lt (i1 :: ks) ∧
    ∀ (k : nat) b s',
      k ≠ i1 → buckets !! k = Some b → s' ∈ b → name s' = Some n → k ∈ ks.
Proof.
  intros Hpos. apply (select_loop_first buckets 0 eq_refl).
  - intros i' ? ? ? Hlt. lia.
  - by apply front_not_blocked.
Qed.
End merge_step.

Lemma dict_set_elem {V} (d : list (option string * V)) k v g :
  g ∈ dict_set d k v → g = (k, v) ∨ g ∈ d.
Proof.
  induction d as [|[k' v'] d IH]; cbn [dict_set].
  - intros ->%list_elem_of_singleton. by left.
  - destruct (decide (k' = k)) as [->|Hne].
    + intros [->|Hg]%elem_of_cons; [by left|right; by right].
    + intros [->|Hg]%elem_of_cons; [right; by left|].
      destruct (IH Hg); [by left|right; by right].
Qed.

Lemma dict_set_new {V} (d : list (option string * V)) k v :
  (k, v) ∈ dict_set d k v.
Proof.
  induction d as [|[k' v'] d IH]; cbn [dict_set]; [by left|].
  destruct (decide (k' = k)); [by left|by right].
Qed.

Lemma dict_set_keep {V} (d : list (option string * V)) k v k' v' :
  (k', v') ∈ d → k' ≠ k → (k', v') ∈ dict_set d k v.
Proof.
  induction d as [|[k0 v0] d IH]; intros Hin Hne; cbn [dict_set].
  { by apply elem_of_nil in Hin. }
  apply elem_of_cons in Hin as [[= -> ->]|Hin].
  - rewrite decide_False by done. by left.
  - destruct (decide (k0 = k)); right; [done|by apply IH].
Qed.

Lemma dict_set_keys {V} (d : list (option string * V)) k v :
  (dict_set d k v).*1 = if decide (k ∈ d.*1) then d.*1 else d.*1 ++ [k].
Proof.
  induction d as [|[k' v'] d IH]; cbn [dict_set fmap list_fmap fst].
  { rewrite decide_False; [done|]. apply not_elem_of_nil. }
  destruct (decide (k' = k)) as [->|Hne]; cbn [fmap list_fmap fst].
  - rewrite decide_True; [done|by left].
  - rewrite IH. destruct (decide (k ∈ d.*1)).
    + rewrite decide_True; [done|by right].
    + rewrite decide_False; [done|]. intros [?|?]%elem_of_cons; done.
Qed.

Lemma dict_set_keys_NoDup {V} (d : list (option string * V)) k v :
  NoDup d.*1 → NoDup (dict_set d k v).*1.
Proof.
  intros Hd. rewrite dict_set_keys. destruct (decide (k ∈ d.*1)); [done|].
  apply NoDup_app. split; [done|]. split; [|apply NoDup_singleton].
  intros x Hx ->%list_elem_of_singleton. done.
Qed.

(** A pass of the merge loop keeps what holds of the buckets and the
    objects. *)
Lemma merge_pass_inv order t rank os buckets objects :
  NoDup order →
  (∀ n s, s ∈ slices t → name s = Some n →
          os !! n = Some (sections_of n (slices t))) →
  merge_inv order t rank buckets objects →
  (0 < total_len buckets)%nat →
  ∃ nm ss buckets',
    select_loop order os buckets 0 buckets = Ok (Some (nm, ss, buckets')) ∧
    merge_inv order t rank buckets' (dict_set objects nm ss).
Proof.
  intros Hnd Hos [Hlen Hok Hsorted Hwhole Hdone Hfresh Hkeys] Hpos.
  destruct (merge_pass order t rank os buckets Hnd Hos Hlen Hok Hsorted
              Hwhole Hpos)
    as (i1 & x & bx & n & more & ks & Hi1 & Hn & Hsel & HF & Hc & Hall).
  exists (Some n), (x :: more), (pop_at (i1 :: ks) buckets).
  split; [done|].
  (* the buckets that are popped *)
  assert (∀ k, k ∈ i1 :: ks →
               ∃ h bk, buckets !! k = Some (h :: bk) ∧ name h = Some n
                       ∧ h ∈ x :: more) as Hheads.
  { intros k [->|Hk]%elem_of_cons.
    - exists x, bx. split; [done|]. split; [done|by left].
    - destruct (Forall2_elem_r _ _ _ _ HF Hk)
        as (s & Hs & [bk Hbk] & Hsn & _).
      exists s, bk. split; [done|]. split; [done|by right]. }
  assert (∀ (k : nat) b s', buckets !! k = Some b → s' ∈ b →
                            name s' = Some n → k ∈ i1 :: ks) as Hall'.
  { intros k b s' Hb Hs' Hn'. destruct (decide (k = i1)) as [->|Hne];
      [by left|]. right. by eapply Hall. }
  assert (∀ s, in_buckets (pop_at (i1 :: ks) buckets) s
               ↔ in_buckets buckets s ∧ name s ≠ Some n) as Hpop.
  { intros s. split.
    - intros (k & b' & Hb' & Hs). rewrite pop_at_lookup in Hb'.
      destruct (buckets !! k) as [b|] eqn:Hb; [|done].
      cbn in Hb'. injection Hb' as <-.
      destruct (decide (k ∈ i1 :: ks)) as [Hk|Hk].
      + destruct (Hheads k Hk) as (h & bk & Hbk & Hhn & _).
        rewrite Hb in Hbk. injection Hbk as ->. cbn [tail] in Hs.
        split; [exists k, (h :: bk); split; [done|by right]|].
        intros Hsn. destruct (Hsorted _ _ Hb) as [Hh _].
        rewrite Forall_forall in Hh. specialize (Hh s Hs). cbn in Hh.
        rewrite Hsn, Hhn in Hh. lia.
      + split; [by exists k, b|]. intros Hsn. apply Hk. by eapply Hall'.
    - intros [(k & b & Hb & Hs) Hsn]. exists k.
      rewrite pop_at_lookup, Hb. cbn.
      destruct (decide (k ∈ i1 :: ks)) as [Hk|Hk]; [|by eexists].
      destruct (Hheads k Hk) as (h & bk & Hbk & Hhn & _).
      rewrite Hb in Hbk. injection Hbk as ->. exists bk. split; [done|].
      apply elem_of_cons in Hs as [->|Hs]; [congruence|done]. }
  assert (∀ s, in_buckets buckets s → name s = Some n → s ∈ x :: more)
    as Htaken.
  { intros s (k & b & Hb & Hs) Hsn.
    destruct (Hheads k (Hall' k b s Hb Hs Hsn)) as (h & bk & Hbk & Hhn & Hh).
    rewrite Hb in Hbk. injection Hbk as ->.
    rewrite (rank_sorted_same_name rank (h :: bk) s h (Hsorted _ _ Hb) Hs
               ltac:(by left) ltac:(congruence)). done. }
  split.
  - by rewrite pop_at_length.
  - intros k b' s Hb' Hs. rewrite pop_at_lookup in Hb'.
    destruct (buckets !! k) as [b|] eqn:Hb; [|done].
    cbn in Hb'. injection Hb' as <-. apply (Hok k b s Hb).
    destruct (decide (k ∈ i1 :: ks)); [|done].
    destruct b; [done|by right].
  - intros k b' Hb'. rewrite pop_at_lookup in Hb'.
    destruct (buckets !! k) as [b|] eqn:Hb; [|done].
    cbn in Hb'. injection Hb' as <-.
    destruct (decide (k ∈ i1 :: ks)); [|by eapply Hsorted].
    apply chain_tail. by eapply Hsorted.
  - intros s s' Hs Hs' Hn' Hnn [Hin Hne]%Hpop. apply Hpop.
    split; [exact (Hwhole s s' Hs Hs' Hn' Hnn Hin)|congruence].
  - intros s Hs Hnamed. destruct (Hdone s Hs Hnamed) as [Hin|(l & Hl & Hsl)].
    + destruct (decide (name s = Some n)) as [Hsn|Hsn].
      * right. exists (x :: more). rewrite Hsn.
        split; [apply dict_set_new|by apply Htaken].
      * left. by apply Hpop.
    + right. exists l. split; [|done]. apply dict_set_keep; [done|].
      assert (in_buckets buckets x) as Hx
        by (exists i1, (x :: bx); split; [done|by left]).
      pose proof (Hfresh (name s, l) x Hl Hx) as Hne. cbn in Hne. congruence.
  - intros g s [->|Hg]%dict_set_elem [Hin Hne]%Hpop; [done|].
    by eapply Hfresh.
  - by apply dict_set_keys_NoDup.
Qed.

Lemma merge_loop_complete order t rank os :
  NoDup order →
  (∀ n s, s ∈ slices t → name s = Some n →
          os !! n = Some (sections_of n (slices t))) →
  ∀ fuel buckets objects,
    merge_inv order t rank buckets objects →
    (total_len buckets < fuel)%nat →
    ∃ objects',
      merge_loop fuel order os buckets objects = Ok objects' ∧
      NoDup objects'.*1 ∧
      ∀ s, s ∈ slices t → has_name s = true →
           ∃ l, (name s, l) ∈ objects' ∧ s ∈ l.
Proof.
  intros Hnd Hos. induction fuel as [|fuel IH];
    intros buckets objects Hinv Hfuel; [lia|].
  cbn [merge_loop]. destruct (0 <? total_len buckets)%nat eqn:E.
  - apply Nat.ltb_lt in E.
    destruct (merge_pass_inv order t rank os buckets objects Hnd Hos Hinv E)
      as (nm & ss & buckets' & Hsel & Hinv').
    rewrite Hsel. cbn [mbind res_bind]. apply IH; [done|].
    apply select_loop_pops in Hsel. lia.
  - apply Nat.ltb_ge in E. exists objects. split; [done|].
    destruct Hinv as [_ _ _ _ Hdone _ Hkeys]. split; [done|].
    intros s Hs Hn. destruct (Hdone s Hs Hn) as [(k & b & Hb & Hin)|?];
      [|done].
    exfalso. assert (0 < total_len buckets)%nat; [|lia].
    clear -Hb Hin. revert k Hb. induction buckets as [|b0 bs IH]; intros k Hb;
      [done|].
    destruct k as [|k]; cbn in Hb.
    + injection Hb as ->. destruct b; [by apply elem_of_nil in Hin|].
      cbn. lia.
    + specialize (IH k Hb). unfold total_len in *. cbn. lia.
Qed.

Lemma index_from_elem_Ok order x i :
  x ∈ order → ∃ k, index_from order i x = Ok k.
Proof.
  intros Hx. destruct (index_from order i x) as [k|e] eqn:E; [eauto|].
  by apply index_from_Err in E as [_ ?].
Qed.

(** The buckets with which the merge loop starts. *)
Lemma initial_buckets order t bs os (k : nat) b :
  tiling t →
  collect order (replicate (length order) [], ∅) (slices t) = Ok (bs, os) →
  (sort_by_start <$> bs) !! k = Some b →
  b = bucket_of order k (slices t) ∧ (k < length order)%nat.
Proof.
  intros [Ht _]%tiling_tiles Hc Hb. rewrite list_lookup_fmap in Hb.
  rewrite (collect_buckets _ _ _ _ _ _ Hc k) in Hb.
  destruct (replicate (length order) [] !! k) as [b0|] eqn:E; [|done].
  apply lookup_replicate in E as [-> Hk]. cbn in Hb. injection Hb as <-.
  split; [|done]. apply sort_by_start_chain. unfold bucket_of.
  apply chain_filter. by eapply tiles_chain.
Qed.

Lemma initial_inv order t rank bs os :
  tiling t →
  (∀ s, s ∈ slices t → has_name s = true →
        ∃ sec, section s = Some sec ∧ sec ∈ order) →
  (∀ s1 s2, s1 ∈ slices t → s2 ∈ slices t →
            has_name s1 = true → has_name s2 = true →
            section s1 = section s2 → start s1 < start s2 →
            (rank (name s1) < rank (name s2))%nat) →
  collect order (replicate (length order) [], ∅) (slices t) = Ok (bs, os) →
  length bs = length order →
  merge_inv order t rank (sort_by_start <$> bs) [].
Proof.
  intros Ht Hsec Hrank Hc Hlen.
  pose proof (collect_buckets_ok order t bs os Hc) as Hok.
  assert (∀ s, s ∈ slices t → has_name s = true →
               in_buckets (sort_by_start <$> bs) s) as Hall.
  { intros s Hs Hn. destruct (Hsec s Hs Hn) as (sec & Hsc & Hin).
    destruct (index_from_elem_Ok order sec 0 Hin) as [k Hk].
    pose proof (index_from_lt _ _ _ _ Hk) as Hlt.
    destruct (lookup_lt_is_Some_2 (sort_by_start <$> bs) k) as [b Hb].
    { rewrite length_fmap. lia. }
    exists k, b. split; [done|].
    destruct (initial_buckets order t bs os k b Ht Hc Hb) as [-> _].
    unfold bucket_of. apply list_elem_of_filter. split; [|done].
    split; [by rewrite Hn|]. by rewrite Hsc. }
  split.
  - by rewrite length_fmap.
  - done.
  - intros k b Hb.
    destruct (initial_buckets order t bs os k b Ht Hc Hb) as [Hbk _].
    pose proof Ht as [Htl _]%tiling_tiles.
    apply (chain_impl (fun x y => start x < start y)).
    + intros x y Hx Hy Hxy.
      pose proof (Hok k b x Hb Hx) as Hbx.
      pose proof (Hok k b y Hb Hy) as Hby.
      apply Hrank; try done.
      * by destruct Hbx as (_ & _ & ?).
      * by destruct Hby as (_ & _ & ?).
      * by destruct Hbx.
      * by destruct Hby.
      * by eapply in_bucket_section.
    + rewrite Hbk. unfold bucket_of. apply chain_filter.
      by eapply tiles_chain.
  - intros s s' _ Hs' Hn' _ _. by apply Hall.
  - intros s Hs Hn. left. by apply Hall.
  - intros g s Hg. by apply elem_of_nil in Hg.
  - constructor.
Qed.

Lemma object_slices_all t order (rank : option string → nat) :
  tiling t → NoDup order →
  (∀ s, s ∈ slices t → has_name s = true →
        ∃ sec, section s = Some sec ∧ sec ∈ order) →
  (∀ s1 s2, s1 ∈ slices t → s2 ∈ slices t →
            has_name s1 = true → has_name s2 = true →
            section s1 = section s2 → start s1 < start s2 →
            (rank (name s1) < rank (name s2))%nat) →
  ∃ objects,
    object_slices t order = Ok objects ∧ NoDup objects.*1 ∧
    ∀ s, s ∈ slices t → has_name s = true →
         ∃ l, (name s, l) ∈ objects ∧ s ∈ l.
Proof.
  intros Ht Hnd Hsec Hrank. unfold object_slices.
  destruct (collect_Ok order (slices t) (replicate (length order) []) ∅)
    as (bs & os & Hc & Hlen).
  { intros s Hs Hn. destruct (Hsec s Hs Hn) as (sec & -> & Hin).
    destruct (index_from_elem_Ok order sec 0 Hin) as [k Hk].
    exists k. split; [done|]. apply index_from_lt in Hk.
    rewrite length_replicate. lia. }
  rewrite length_replicate in Hlen. rewrite Hc. cbn [mbind res_bind].
  apply (merge_loop_complete order t rank os Hnd).
  - intros n s Hs Hn.
    destruct (collect_sections _ _ _ _ _ _ Hc n s Hs Hn) as (secs & -> & ->).
    rewrite lookup_empty. cbn. by rewrite (left_id_L ∅ (∪)).
  - by apply (initial_inv order t rank bs os).
  - lia.
Qed.

Lemma NoDup_keys_eq {K V} (d : list (K * V)) k v v' :
  NoDup d.*1 → (k, v) ∈ d → (k, v') ∈ d → v = v'.
Proof.
  induction d as [|[k0 v0] d IH]; intros Hnd H1 H2.
  { by apply elem_of_nil in H1. }
  cbn in Hnd. apply NoDup_cons in Hnd as [Hk Hnd].
  apply elem_of_cons in H1 as [E1|H1], H2 as [E2|H2].
  - congruence.
  - injection E1 as -> ->. exfalso. apply Hk.
    apply list_elem_of_fmap. by exists (k0, v').
  - injection E2 as -> ->. exfalso. apply Hk.
    apply list_elem_of_fmap. by exists (k0, v).
  - by apply IH.
Qed.

(** X19: [object_slices] groups every named slice of a table whose
    objects lie in the same order in every section.  Let the slices of
    the table tile its range, let the section order have no section
    twice, let every named slice have a section of the order, and let
    there be a ranking of the names that goes up, within every section,
    from one named slice to the named slices at higher addresses.  Then
    [object_slices] succeeds; no two of its objects have the same name;
    and the slices of an object are exactly the slices of the table
    that bear its name. *)
Theorem object_slices_complete t order (rank : option string → nat) :
  tiling t → NoDup order →
  (∀ s, s ∈ slices t → has_name s = true →
        ∃ sec, section s = Some sec ∧ sec ∈ order) →
  (∀ s1 s2, s1 ∈ slices t → s2 ∈ slices t →
            has_name s1 = true → has_name s2 = true →
            section s1 = section s2 → start s1 < start s2 →
            (rank (name s1) < rank (name s2))%nat) →
  ∃ objects,
    object_slices t order = Ok objects ∧ NoDup objects.*1 ∧
    (∀ s, s ∈ slices t → has_name s = true →
          ∃ l, (name s, l) ∈ objects ∧ s ∈ l) ∧
    (∀ nm l, (nm, l) ∈ objects →
             ∀ s, s ∈ l ↔ s ∈ slices t ∧ name s = nm ∧ has_name s = true).
Proof.
  intros Ht Hnd Hsec Hrank.
  destruct (object_slices_all t order rank Ht Hnd Hsec Hrank)
    as (objects & Hobj & Hkeys & Hall).
  exists objects. split; [done|]. split; [done|]. split; [done|].
  intros nm l Hl s. pose proof (object_slices_ok _ _ _ Hobj) as Hok.
  rewrite Forall_forall in Hok.
  destruct (Hok _ Hl) as ([n Hn] & _ & Hs & _). cbn [fst snd] in *.
  split.
  - intros Hin. destruct (Hs s Hin) as (Hname & Ht' & _).
    split; [done|]. split; [done|]. apply has_name_true. congruence.
  - intros (Hin & Hname & Hnamed).
    destruct (Hall s Hin Hnamed) as (l' & Hl' & Hsl').
    rewrite Hname in Hl'.
    by rewrite (NoDup_keys_eq _ _ _ _ Hkeys Hl Hl').
Qed.


Lemma object_slices_complete_witness :
  ∃ objects,
    object_slices table_c6 ["text"; "data"]%string = Ok objects ∧
    NoDup objects.*1 ∧
    (∀ s, s ∈ slices table_c6 → has_name s = true →
          ∃ l, (name s, l) ∈ objects ∧ s ∈ l) ∧
    (∀ nm l, (nm, l) ∈ objects →
             ∀ s, s ∈ l ↔ s ∈ slices table_c6 ∧ name s = nm
                          ∧ has_name s = true).
Proof.
  apply (object_slices_complete table_c6 ["text"; "data"]%string
           (fun n => if decide (n = Some "A"%string) then 0%nat else 1%nat)).
  - apply partition_invb_sound. vm_compute. reflexivity.
  - repeat constructor; set_solver.
  - intros s Hs _. unfold table_c6 in Hs. cbn [slices] in Hs.
    repeat (apply elem_of_cons in Hs as [->|Hs];
            [eexists; split; [reflexivity|set_solver]|]).
    by apply elem_of_nil in Hs.
  - intros s1 s2 H1 H2 _ _. unfold table_c6 in H1, H2. cbn [slices] in H1, H2.
    repeat (apply elem_of_cons in H1 as [->|H1]);
      try (by apply elem_of_nil in H1);
      repeat (apply elem_of_cons in H2 as [->|H2]);
      try (by apply elem_of_nil in H2);
      cbn [section start name]; intros Hsec Hlt;
      first [discriminate Hsec | lia | (vm_compute; lia)].
Defined.

(** ** [ObjectSlices.get] and the sizes of a table *)

Lemma dict_get_Some {V} (d : list (option string * V)) k v :
  NoDup d.*1 → dict_get d k = Some v ↔ (k, v) ∈ d.
Proof.
  induction d as [|[k0 v0] d IH]; intros Hnd; cbn [dict_get].
  { split; [done|]. intros H. by apply elem_of_nil in H. }
  cbn in Hnd. apply NoDup_cons in Hnd as [Hk Hnd].
  destruct (decide (k0 = k)) as [->|Hne].
  - split.
    + intros [= ->]. by left.
    + intros [[= ->]|Hin]%elem_of_cons; [done|].
      exfalso. apply Hk. apply list_elem_of_fmap. by exists (k, v).
  - rewrite IH by done. split.
    + intros Hin. by right.
    + intros [[= -> ->]|Hin]%elem_of_cons; done.
Qed.

Lemma dict_get_None {V} (d : list (option string * V)) k :
  dict_get d k = None ↔ ∀ v, (k, v) ∉ d.
Proof.
  induction d as [|[k0 v0] d IH]; cbn [dict_get].
  { split; [|done]. intros _ v. apply not_elem_of_nil. }
  destruct (decide (k0 = k)) as [->|Hne].
  - split; [done|]. intros H. exfalso. apply (H v0). by left.
  - rewrite IH. split.
    + intros H v [[= -> ->]|Hin]%elem_of_cons; [done|]. by apply (H v).
    + intros H v Hin. apply (H v). by right.
Qed.

(** X20: let the slices of the table tile its range, the section order
    have no section twice, every named slice have a section of the order,
    and a ranking of the names go up, within every section, from one
    named slice to the named slices at higher addresses.  Then [get] on
    the objects that [object_slices] returns gives, for a name that a
    slice of the table bears, a list that is not empty and holds exactly
    the slices of the table with this name, and [None] for every other
    name. *)
Theorem objects_get_slices t order (rank : option string → nat) :
  tiling t → NoDup order →
  (∀ s, s ∈ slices t → has_name s = true →
        ∃ sec, section s = Some sec ∧ sec ∈ order) →
  (∀ s1 s2, s1 ∈ slices t → s2 ∈ slices t →
            has_name s1 = true → has_name s2 = true →
            section s1 = section s2 → start s1 < start s2 →
            (rank (name s1) < rank (name s2))%nat) →
  ∃ objects,
    object_slices t order = Ok objects ∧
    ∀ n, match objects_get objects n with
         | Some l =>
             l ≠ [] ∧ ∀ s, s ∈ l ↔ s ∈ slices t ∧ name s = Some n
         | None => ∀ s, s ∈ slices t → name s ≠ Some n
         end.
Proof.
  intros Ht Hnd Hsec Hrank.
  destruct (object_slices_all t order rank Ht Hnd Hsec Hrank)
    as (objects & Hobj & Hkeys & Hall).
  exists objects. split; [done|]. intros n.
  pose proof (object_slices_ok _ _ _ Hobj) as Hok.
  rewrite Forall_forall in Hok. unfold objects_get.
  destruct (dict_get objects (Some n)) as [l|] eqn:E.
  - apply dict_get_Some in E; [|done].
    destruct (Hok _ E) as (_ & Hne & Hs & _). cbn [fst snd] in *.
    split; [done|]. intros s. split.
    + intros Hin. by destruct (Hs s Hin) as (? & ? & _).
    + intros [Hin Hname].
      destruct (Hall s Hin) as (l' & Hl' & Hsl').
      { apply has_name_true. congruence. }
      rewrite Hname in Hl'.
      by rewrite (NoDup_keys_eq _ _ _ _ Hkeys E Hl').
  - intros s Hin Hname.
    destruct (Hall s Hin) as (l' & Hl' & _).
    { apply has_name_true. congruence. }
    rewrite Hname in Hl'. by apply (proj1 (dict_get_None _ _) E l').
Qed.

Lemma objects_get_slices_witness :
  ∃ objects,
    object_slices table_c6 ["text"; "data"]%string = Ok objects ∧
    ∀ n, match objects_get objects n with
         | Some l =>
             l ≠ [] ∧ ∀ s, s ∈ l ↔ s ∈ slices table_c6 ∧ name s = Some n
         | None => ∀ s, s ∈ slices table_c6 → name s ≠ Some n
         end.
Proof.
  apply (objects_get_slices table_c6 ["text"; "data"]%string
           (fun n => if decide (n = Some "A"%string) then 0%nat else 1%nat)).
  - apply partition_invb_sound. vm_compute. reflexivity.
  - repeat constructor; set_solver.
  - intros s Hs _. unfold table_c6 in Hs. cbn [slices] in Hs.
    repeat (apply elem_of_cons in Hs as [->|Hs];
            [eexists; split; [reflexivity|set_solver]|]).
    by apply elem_of_nil in Hs.
  - intros s1 s2 H1 H2 _ _. unfold table_c6 in H1, H2. cbn [slices] in H1, H2.
    repeat (apply elem_of_cons in H1 as [->|H1]);
      try (by apply elem_of_nil in H1);
      repeat (apply elem_of_cons in H2 as [->|H2]);
      try (by apply elem_of_nil in H2);
      cbn [section start name]; intros Hsec Hlt;
      first [discriminate Hsec | lia | (vm_compute; lia)].
Defined.

Lemma sum_lens_tiles l : ∀ a b acc,
  tiles a l b → sum_lens l acc = Ok (acc + (b - a)).
Proof.
  induction l as [|s l IH]; intros a b acc Ht.
  - cbn in *. subst. f_equal. lia.
  - destruct Ht as (Hs & Hlt & Ht). cbn [sum_lens].
    rewrite len_Ok by lia. cbn [mbind res_bind].
    rewrite (IH (stop s) b) by done. f_equal. lia.
Qed.

(** X21: in a table whose slices tile its range, the lengths of the
    slices add up to the size of the table; the size is positive, the
    table has at least one slice, every slice has a positive length, and
    every slice lies within the table. *)
Theorem sizes_add_up t :
  tiling t →
  sum_lens (slices t) 0 = Ok (size t) ∧ 0 < size t ∧ (0 < count t)%nat ∧
  ∀ s, s ∈ slices t →
       (∃ n, len s = Ok n ∧ 0 < n) ∧ table_contains t s = true.
Proof.
  intros Ht. pose proof Ht as [Htl Hne]%tiling_tiles.
  pose proof (tiling_bounds _ Ht) as Hb. unfold size, count.
  split; [by rewrite (sum_lens_tiles _ _ _ _ Htl)|]. split; [lia|].
  split; [destruct (slices t); [done|cbn; lia]|].
  intros s Hs. pose proof (tiles_elem _ _ _ _ Htl Hs) as (H1 & H2 & H3).
  split.
  - exists (stop s - start s). split; [apply len_Ok; lia|lia].
  - unfold table_contains. zsolve.
Qed.

Lemma sizes_add_up_witness :
  sum_lens (slices table_c2) 0 = Ok (size table_c2) ∧ 0 < size table_c2 ∧
  (0 < count table_c2)%nat ∧
  ∀ s, s ∈ slices table_c2 →
       (∃ n, len s = Ok n ∧ 0 < n) ∧ table_contains table_c2 s = true.
Proof.
  apply (sizes_add_up table_c2).
  apply partition_invb_sound. vm_compute. reflexivity.
Defined.

(** ** When [add] and [read_from] succeed *)





(** ** The slices that are read from a written file *)











